(** * Complex logic combine: Boolean-ring polynomials and the expression builder

    A shallow embedding of [llvm/Analysis/LogicalExpr.h] (the polynomial
    algebra over and-chain masks) and of
    [llvm/lib/Analysis/ComplexLogicCombine.cpp] (the builder that walks an
    expression, the reconstruction of a value, the [simplify] driver and
    the printing of a node), together with the properties of these
    functions.

    Conventions: a [uint64_t] mask is an [N] below [2 ^ 64]; a pointer
    result is an [option], [None] being [nullptr]; the helper is passed in
    and out of every function that changes it; the sets are iterated in the
    order of [elements], which is shown not to matter
    ([add_chain_any_order], [mul_chain_any_order]); the text written to a
    stream is the list of the pieces written. *)

From Stdlib Require Import NArith Lia Bool Sorted.
From stdpp Require Import base numbers option list gmap sets.
From stdpp Require Import strings.

Local Open Scope N_scope.

#[local] Set Warnings "-clear-no-such-hyp".

(** ** LogicalExpr.h *)

(** [typedef SmallDenseSet<uint64_t, 8> ExprAddChain]: a set of 64-bit masks. *)
Abbreviation ExprAddChain := (gset N).

Definition ExprAllOne : N := 0x8000000000000000.
Definition ExprZero : N := 0x4000000000000000.

(** [class LogicalExpr]: the set of and-chains and the cached union of their
    bits. *)
Record LogicalExpr : Type := mkLogicalExpr {
  AddChain : ExprAddChain;
  LeafMask : N
}.

(** [updateLeafMask]: [LeafMask = 0; for (Mask : AddChain) LeafMask |= Mask]. *)
Definition updateLeafMask (Chain : ExprAddChain) : N :=
  foldl (fun LeafMask Mask => N.lor LeafMask Mask) 0 (elements Chain).

(** [LogicalExpr(uint64_t Mask)]. *)
Definition LogicalExpr_of_mask (Mask : N) : LogicalExpr :=
  {| AddChain := {[ Mask ]}; LeafMask := Mask |}.

(** [LogicalExpr(const ExprAddChain &SrcAddChain)]. *)
Definition LogicalExpr_of_chain (SrcAddChain : ExprAddChain) : LogicalExpr :=
  {| AddChain := SrcAddChain; LeafMask := updateLeafMask SrcAddChain |}.

(** [size()]. *)
Definition expr_size (E : LogicalExpr) : N := N.of_nat (size (AddChain E)).

(** [*Expr.begin()], read only where the set is known to be non-empty. *)
Definition expr_begin (E : LogicalExpr) : N :=
  match elements (AddChain E) with
  | Mask :: _ => Mask
  | [] => 0
  end.

(** The idiom [if (!Chain.insert(Mask).second) Chain.erase(Mask)]:
    insert the mask when it is new, erase it when it is already there. *)
Definition insert_or_erase (Mask : N) (Chain : ExprAddChain) : ExprAddChain :=
  if decide (Mask ∈ Chain) then Chain ∖ {[ Mask ]} else {[ Mask ]} ∪ Chain.

(** The new mask of one pair of and-chains in [operator*=]:
    [NewMask = LHSMask | RHSMask], and the all-ones bit is dropped when
    another bit is set next to it ([NewMask &= ~ExprAllOne] on [uint64_t]). *)
Definition mul_mask (LHSMask RHSMask : N) : N :=
  let NewMask := N.lor LHSMask RHSMask in
  if negb (NewMask =? ExprAllOne) && negb (N.land NewMask ExprAllOne =? 0)
  then N.land NewMask (N.lnot ExprAllOne 64)
  else NewMask.

(** [operator*=]: the two nested loops over the and-chains of both sides. *)
Definition mul_chain (LHSChain RHSChain : ExprAddChain) : ExprAddChain :=
  foldl (fun NewChain LHSMask =>
           if negb (N.land LHSMask ExprZero =? 0) then NewChain
           else
             foldl (fun NewChain RHSMask =>
                      if negb (N.land RHSMask ExprZero =? 0) then NewChain
                      else insert_or_erase (mul_mask LHSMask RHSMask) NewChain)
                   NewChain (elements RHSChain))
        ∅ (elements LHSChain).

Definition mul_assign (This RHS : LogicalExpr) : LogicalExpr :=
  let NewChain := mul_chain (AddChain This) (AddChain RHS) in
  {| AddChain := NewChain; LeafMask := updateLeafMask NewChain |}.

(** [operator+=]: every mask of the right-hand side is toggled in the
    receiver. *)
Definition add_chain (Chain RHSChain : ExprAddChain) : ExprAddChain :=
  foldl (fun Chain RHSMask => insert_or_erase RHSMask Chain)
        Chain (elements RHSChain).

Definition add_assign (This RHS : LogicalExpr) : LogicalExpr :=
  let Chain := add_chain (AddChain This) (AddChain RHS) in
  {| AddChain := Chain; LeafMask := updateLeafMask Chain |}.

(** The free operators: [a * b], [a + b], [a & b], [a ^ b], [a | b], [~a]. *)
Definition op_mul (a b : LogicalExpr) : LogicalExpr := mul_assign a b.
Definition op_add (a b : LogicalExpr) : LogicalExpr := add_assign a b.
Definition op_and (a b : LogicalExpr) : LogicalExpr := op_mul a b.
Definition op_xor (a b : LogicalExpr) : LogicalExpr := op_add a b.
Definition op_or (a b : LogicalExpr) : LogicalExpr :=
  op_add (op_add (op_mul a b) a) b.
Definition op_not (a : LogicalExpr) : LogicalExpr :=
  let AllOneExpr := LogicalExpr_of_mask ExprAllOne in
  op_add a AllOneExpr.

(** The previous revision of the header (the second copy in the file):
    there is no zero sentinel and [operator*=] skips the and-chains equal
    to 0 instead. The constructors, [+=] and the free operators read the
    same. *)
Module Previous.

Definition mul_chain (LHSChain RHSChain : ExprAddChain) : ExprAddChain :=
  foldl (fun NewChain LHSMask =>
           if LHSMask =? 0 then NewChain
           else
             foldl (fun NewChain RHSMask =>
                      if RHSMask =? 0 then NewChain
                      else insert_or_erase (mul_mask LHSMask RHSMask) NewChain)
                   NewChain (elements RHSChain))
        ∅ (elements LHSChain).

Definition mul_assign (This RHS : LogicalExpr) : LogicalExpr :=
  let NewChain := mul_chain (AddChain This) (AddChain RHS) in
  {| AddChain := NewChain; LeafMask := updateLeafMask NewChain |}.

Definition op_mul (a b : LogicalExpr) : LogicalExpr := mul_assign a b.
Definition op_and (a b : LogicalExpr) : LogicalExpr := op_mul a b.
Definition op_or (a b : LogicalExpr) : LogicalExpr :=
  op_add (op_add (op_mul a b) a) b.

End Previous.

(** [llvm::popcount] and [llvm::Log2_64] on a 64-bit mask. *)
Fixpoint Pos_popcount (p : positive) : N :=
  match p with
  | xH => 1
  | xO q => Pos_popcount q
  | xI q => 1 + Pos_popcount q
  end.

Definition popcount (Mask : N) : N :=
  match Mask with
  | N0 => 0
  | Npos p => Pos_popcount p
  end.

Definition Log2_64 (Mask : N) : N := N.log2 Mask.

(** [llvm::countr_zero] on a 64-bit mask: the index of the lowest set bit,
    64 for the mask 0. *)
Fixpoint Pos_countr_zero (p : positive) : N :=
  match p with
  | xO q => 1 + Pos_countr_zero q
  | _ => 0
  end.

Definition countr_zero (Mask : N) : N :=
  match Mask with
  | N0 => 64
  | Npos p => Pos_countr_zero p
  end.

(** ** The host IR, as far as the helper looks at it *)

(** [Instruction::BinaryOps]. *)
Inductive BinaryOps : Type :=
| Add | FAdd | Sub | FSub | Mul | FMul | UDiv | SDiv | FDiv
| URem | SRem | FRem | Shl | LShr | AShr | And | Or | Xor.

#[global] Instance BinaryOps_eq_dec : EqDecision BinaryOps.
Proof. solve_decision. Defined.

(** What [dyn_cast<BinaryOperator>] and [dyn_cast<ConstantInt>] tell about a
    value: a binary operator with its opcode and two operands, an integer
    constant with the answers of [isZero()] and [isAllOnesValue()], or
    anything else. *)
Inductive ValueKind (Value : Type) : Type :=
| BinaryOperator (Opcode : BinaryOps) (Op0 Op1 : Value)
| ConstantInt (isZero isAllOnesValue : bool)
| OtherValue.

Arguments BinaryOperator {Value} Opcode Op0 Op1.
Arguments ConstantInt {Value} isZero isAllOnesValue.
Arguments OtherValue {Value}.

(** What a call can do besides returning: the assertion at the head of
    [simplify] fails, or [LeafValues] is indexed past its end. *)
Inductive Outcome (A : Type) : Type :=
| Returns (a : A)
| AssertionFailed
| IndexOutOfRange.

Arguments Returns {A} a.
Arguments AssertionFailed {A}.
Arguments IndexOutOfRange {A}.

(** ** ComplexLogicCombine.h / ComplexLogicCombine.cpp *)

Section Helper.

(** [Value *]: a handle compared by identity; [Type *]. *)
Context {Value : Type} `{Countable Value} {Ty : Type}.

(** The host interface. *)
Variable kind : Value -> ValueKind Value.
Variable getType : Value -> Ty.
Variable getNullValue : Ty -> Value.
Variable getAllOnesValue : Ty -> Value.

(** [clc-max-logic-leafs] and [clc-max-depth]. *)
Variable MaxLogicOpLeafsToScan : N.
Variable MaxDepthLogicOpsToScan : N.

(** [class LogicalOpNode] (the back pointer to the helper serves printing
    only). *)
Record LogicalOpNode : Type := mkLogicalOpNode {
  getValue : Value;
  getExpr : LogicalExpr
}.

(** [class LogicalOpsHelper]. *)
Record LogicalOpsHelper : Type := mkLogicalOpsHelper {
  LogicalOpNodes : gmap Value LogicalOpNode;
  LeafSet : gset Value;
  LeafValues : list Value
}.

(** [LogicalOpsHelper() {}]. *)
Definition LogicalOpsHelper_new : LogicalOpsHelper :=
  {| LogicalOpNodes := ∅; LeafSet := ∅; LeafValues := [] |}.

(** [clear()], which only the destructor calls: every node is deleted and
    the three containers are emptied. *)
Definition clear (h : LogicalOpsHelper) : LogicalOpsHelper :=
  {| LogicalOpNodes := ∅; LeafSet := ∅; LeafValues := [] |}.

(** [LogicalOpNodes[Val] = Node]. *)
Definition store_node (Node : LogicalOpNode) (h : LogicalOpsHelper)
  : LogicalOpsHelper :=
  {| LogicalOpNodes := <[ getValue Node := Node ]> (LogicalOpNodes h);
     LeafSet := LeafSet h; LeafValues := LeafValues h |}.

(** [1ULL << LeafSet.size()]; the shift stays below 64 under the assertion
    of [simplify]. *)
Definition leaf_bit (h : LogicalOpsHelper) : N :=
  N.shiftl 1 (N.of_nat (size (LeafSet h))) mod 2 ^ 64.

Definition visitLeafNode (Val : Value) (Depth : N) (h : LogicalOpsHelper)
  : option LogicalOpNode * LogicalOpsHelper :=
  if (Depth =? 0) || (MaxLogicOpLeafsToScan <? N.of_nat (size (LeafSet h)))
  then (None, h)
  else
    let ExprVal := leaf_bit h in
    let ExprVal :=
      match kind Val with
      | ConstantInt isZero isAllOnesValue =>
          if isZero then ExprZero
          else if isAllOnesValue then ExprAllOne
          else ExprVal
      | _ => ExprVal
      end in
    let h1 :=
      if negb (ExprVal =? ExprAllOne) && negb (ExprVal =? ExprZero)
      then {| LogicalOpNodes := LogicalOpNodes h;
              LeafSet := {[ Val ]} ∪ LeafSet h;
              LeafValues := if decide (Val ∈ LeafSet h) then LeafValues h
                            else LeafValues h ++ [Val] |}
      else h in
    let Node := {| getValue := Val; getExpr := LogicalExpr_of_mask ExprVal |} in
    (Some Node, store_node Node h1).

Definition is_logic_op (Opcode : BinaryOps) : bool :=
  match Opcode with
  | And | Or | Xor => true
  | _ => false
  end.

(** [visitBinOp], with the recursive calls to [getLogicalOpNode] passed in. *)
Definition visitBinOp
    (getLogicalOpNode : Value -> N -> LogicalOpsHelper ->
                        option LogicalOpNode * LogicalOpsHelper)
    (BO : Value) (Opcode : BinaryOps) (Op0 Op1 : Value)
    (Depth : N) (h : LogicalOpsHelper)
  : option LogicalOpNode * LogicalOpsHelper :=
  if negb (is_logic_op Opcode) then visitLeafNode BO Depth h
  else
    match getLogicalOpNode Op0 (Depth + 1) h with
    | (None, h1) => (None, h1)
    | (Some LHS, h1) =>
        match getLogicalOpNode Op1 (Depth + 1) h1 with
        | (None, h2) => (None, h2)
        | (Some RHS, h2) =>
            let Node :=
              match Opcode with
              | And => {| getValue := BO;
                          getExpr := op_and (getExpr LHS) (getExpr RHS) |}
              | Or => {| getValue := BO;
                         getExpr := op_or (getExpr LHS) (getExpr RHS) |}
              | _ => {| getValue := BO;
                        getExpr := op_xor (getExpr LHS) (getExpr RHS) |}
              end in
            (Some Node, store_node Node h2)
        end
    end.

(** [getLogicalOpNode]. The recursion goes one level deeper on each call
    and stops at [Depth == MaxDepthLogicOpsToScan], so a call at depth
    [Depth] needs [MaxDepthLogicOpsToScan - Depth + 1] nested calls at
    most; [fuel] counts them. *)
Fixpoint getLogicalOpNode_rec (fuel : nat) (Val : Value) (Depth : N)
    (h : LogicalOpsHelper) : option LogicalOpNode * LogicalOpsHelper :=
  match fuel with
  | O => (None, h)
  | S fuel' =>
      if Depth =? MaxDepthLogicOpsToScan then (None, h)
      else
        match LogicalOpNodes h !! Val with
        | None =>
            let '(Node, h1) :=
              match kind Val with
              | BinaryOperator Opcode Op0 Op1 =>
                  visitBinOp (getLogicalOpNode_rec fuel') Val Opcode Op0 Op1
                             Depth h
              | _ => visitLeafNode Val Depth h
              end in
            match Node with
            | None => (None, h1)
            | Some _ => (LogicalOpNodes h1 !! Val, h1)
            end
        | Some _ => (LogicalOpNodes h !! Val, h)
        end
  end.

Definition getLogicalOpNode (Val : Value) (Depth : N) (h : LogicalOpsHelper)
  : option LogicalOpNode * LogicalOpsHelper :=
  getLogicalOpNode_rec (S (N.to_nat (MaxDepthLogicOpsToScan - Depth)))
                       Val Depth h.

(** [logicalOpToValue]. *)
Definition logicalOpToValue (h : LogicalOpsHelper) (Node : LogicalOpNode)
  : Outcome (option Value) :=
  let Expr := getExpr Node in
  if expr_size Expr =? 0
  then Returns (Some (getNullValue (getType (getValue Node))))
  else if expr_size Expr =? 1
  then
    let ExprMask := expr_begin Expr in
    if ExprMask =? ExprZero
    then Returns (Some (getNullValue (getType (getValue Node))))
    else if ExprMask =? ExprAllOne
    then Returns (Some (getAllOnesValue (getType (getValue Node))))
    else if popcount ExprMask =? 1
    then match LeafValues h !! N.to_nat (Log2_64 ExprMask) with
         | Some Leaf => Returns (Some Leaf)
         | None => IndexOutOfRange
         end
    else Returns None
  else Returns None.

(** [simplify], on the helper and the statistic
    [NumComplexLogicalOpsSimplified] (a counter; its width is the host's and
    it is taken without wrap-around). *)
Definition simplify (Root : Value) (st : LogicalOpsHelper * N)
  : Outcome (option Value) * (LogicalOpsHelper * N) :=
  let '(h, NumComplexLogicalOpsSimplified) := st in
  if negb (MaxLogicOpLeafsToScan <=? 62) then (AssertionFailed, st)
  else
    match getLogicalOpNode Root 0 h with
    | (None, h1) => (Returns None, (h1, NumComplexLogicalOpsSimplified))
    | (Some RootNode, h1) =>
        match logicalOpToValue h1 RootNode with
        | Returns NewRoot =>
            if decide (NewRoot = Some Root)
            then (Returns None, (h1, NumComplexLogicalOpsSimplified))
            else
              (Returns NewRoot,
               (h1, match NewRoot with
                    | Some _ => NumComplexLogicalOpsSimplified + 1
                    | None => NumComplexLogicalOpsSimplified
                    end))
        | AssertionFailed => (AssertionFailed, (h1, NumComplexLogicalOpsSimplified))
        | IndexOutOfRange => (IndexOutOfRange, (h1, NumComplexLogicalOpsSimplified))
        end
    end.

End Helper.

Arguments LogicalOpNode Value : clear implicits.
Arguments LogicalOpsHelper Value {_ _}.

(** ** Printing of a node, ComplexLogicCombine.cpp *)

(** The line feed that ends a printed node. *)
Definition newline : string := String (Ascii.ascii_of_nat 10) EmptyString.

Section Printing.

Context {Value : Type} `{Countable Value}.

(** The host's side of the printing: [isa<Constant>(Val)], the text of
    [OS << *Val] and [Val->getName()]. *)
Variable isConstant : Value -> bool.
Variable printIR : Value -> string.
Variable getName : Value -> string.

(** [LogicalOpNode::printValue]; the text a function writes to the stream is
    the list of the pieces it writes, in order. *)
Definition printValue (Val : Value) : string :=
  if isConstant Val then printIR Val else getName Val.

(** The loop of [printAndChain] with [n] iterations left, and the statement
    after it: the lowest set bit of [Mask] is printed and taken out
    ([Mask -= 1ULL << MaskIdx]). *)
Fixpoint printAndChain_loop (h : LogicalOpsHelper Value) (n : nat) (Mask : N)
  : Outcome (list string) :=
  let MaskIdx := countr_zero Mask in
  match LeafValues h !! N.to_nat MaskIdx with
  | None => IndexOutOfRange
  | Some Leaf =>
      match n with
      | O => Returns [printValue Leaf]
      | S n' =>
          match printAndChain_loop h n' (Mask - N.shiftl 1 MaskIdx) with
          | Returns OS => Returns (printValue Leaf :: " * " :: OS)
          | AssertionFailed => AssertionFailed
          | IndexOutOfRange => IndexOutOfRange
          end
      end
  end.

(** [LogicalOpNode::printAndChain]. *)
Definition printAndChain (h : LogicalOpsHelper Value) (Mask : N)
  : Outcome (list string) :=
  if Mask =? ExprAllOne then Returns ["-1"]
  else
    let MulElementCnt := popcount Mask in
    if negb (N.land Mask ExprZero =? 0) || (MulElementCnt =? 0)
    then Returns []
    else if MulElementCnt =? 1
    then match LeafValues h !! N.to_nat (Log2_64 Mask) with
         | Some Leaf => Returns [printValue Leaf]
         | None => IndexOutOfRange
         end
    else printAndChain_loop h (N.to_nat MulElementCnt - 1) Mask.

(** The loop of [print]: each and-chain but the first, followed by [" + "]. *)
Fixpoint print_loop (h : LogicalOpsHelper Value) (l : list N)
  : Outcome (list string) :=
  match l with
  | [] => Returns []
  | Mask :: l' =>
      match printAndChain h Mask with
      | Returns OS =>
          match print_loop h l' with
          | Returns OS' => Returns (OS ++ " + " :: OS')
          | AssertionFailed => AssertionFailed
          | IndexOutOfRange => IndexOutOfRange
          end
      | AssertionFailed => AssertionFailed
      | IndexOutOfRange => IndexOutOfRange
      end
  end.

(** [LogicalOpNode::print]. [Iteration] is the and-chains of the node in
    the order the [SmallDenseSet] iterates them, which the source does not
    fix: some enumeration of [AddChain], empty when [Expr.size() == 0]. *)
Definition print (h : LogicalOpsHelper Value) (Node : LogicalOpNode Value)
    (Iteration : list N) : Outcome (list string) :=
  let Header := [printIR (getValue Node); " --> "] in
  match Iteration with
  | [] => Returns (Header ++ ["0" +:+ newline])
  | First :: Rest =>
      match print_loop h Rest with
      | Returns OS =>
          match printAndChain h First with
          | Returns OS' =>
              Returns (Header ++ OS ++ OS' ++ [newline])
          | AssertionFailed => AssertionFailed
          | IndexOutOfRange => IndexOutOfRange
          end
      | AssertionFailed => AssertionFailed
      | IndexOutOfRange => IndexOutOfRange
      end
  end.

End Printing.

(** ** Counting modulo two

    [insert_or_erase] keeps a mask exactly when it has been offered an odd
    number of times; [odd_count] is that parity over the list of offered
    masks. *)
Fixpoint odd_count (m : N) (l : list N) : bool :=
  match l with
  | [] => false
  | x :: l' => xorb (bool_decide (x = m)) (odd_count m l')
  end.

(** The masks one pair of and-chains contributes to a product: none when
    either side carries the zero bit, the combined mask otherwise. *)
Definition pair_masks (LHSMask RHSMask : N) : list N :=
  if negb (N.land LHSMask ExprZero =? 0) || negb (N.land RHSMask ExprZero =? 0)
  then []
  else [mul_mask LHSMask RHSMask].

(** All the masks the two loops of [operator*=] offer, in loop order. *)
Definition product_masks (l1 l2 : list N) : list N :=
  flat_map (fun L => flat_map (pair_masks L) l2) l1.

(** The masks of a well-formed polynomial: one of the two sentinels alone, or
    leaf bits only (bits 0 to 61). *)
Definition wf_mask (m : N) : Prop :=
  m = ExprZero \/ m = ExprAllOne \/ m < 2 ^ 62.

Definition wf_chain (Chain : ExprAddChain) : Prop :=
  forall m, m ∈ Chain -> wf_mask m.

Definition wf_maskb (m : N) : bool :=
  (m =? ExprZero) || (m =? ExprAllOne) || (m <? 2 ^ 62).

(** ** The value of a polynomial

    [xor_sum w l] is the exclusive or of the weights [w x] of the masks of
    [l]. Under an assignment [env] of truth values to the leaf indices, an
    and-chain with the zero bit is false and any other and-chain is the
    conjunction of the leaves whose bit (0 to 61) is set, the empty
    conjunction being true; a polynomial is the exclusive or of its
    and-chains. *)
Fixpoint xor_sum (w : N -> bool) (l : list N) : bool :=
  match l with
  | [] => false
  | x :: l' => xorb (w x) (xor_sum w l')
  end.

Definition eval_mask (env : nat -> bool) (Mask : N) : bool :=
  negb (N.testbit Mask 62)
  && forallb (fun i => implb (N.testbit Mask (N.of_nat i)) (env i)) (seq 0 62).

Definition eval_chain (env : nat -> bool) (Chain : ExprAddChain) : bool :=
  xor_sum (eval_mask env) (elements Chain).

Definition eval_expr (env : nat -> bool) (E : LogicalExpr) : bool :=
  eval_chain env (AddChain E).

(** The masks of a [uint64_t] set. *)
Definition uint64_chain (Chain : ExprAddChain) : Prop :=
  forall m, m ∈ Chain -> m < 2 ^ 64.

(** The polynomials without the zero sentinel whose and-chains are the
    all-ones sentinel alone or a non-empty set of leaf bits. *)
Definition canonical_mask (m : N) : Prop :=
  m = ExprAllOne \/ (m <> 0 /\ m < 2 ^ 62).

Definition canonical_chain (Chain : ExprAddChain) : Prop :=
  forall m, m ∈ Chain -> canonical_mask m.

Definition canonical_maskb (m : N) : bool :=
  (m =? ExprAllOne) || (negb (m =? 0) && (m <? 2 ^ 62)).

(** The and-chains on which the two revisions of [operator*=] skip nothing:
    not 0 and without the zero bit. *)
Definition zero_free (Chain : ExprAddChain) : Prop :=
  forall m, m ∈ Chain -> m <> 0 /\ N.land m ExprZero = 0.

(** The cached leaf mask of a polynomial is the union of the bits of its
    and-chains. *)
Definition leaf_mask_ok (E : LogicalExpr) : Prop :=
  forall i, N.testbit (LeafMask E) i = true <->
            exists m, m ∈ AddChain E /\ N.testbit m i = true.

(** The indices of the set bits of a mask, lowest first. *)
Fixpoint Pos_bits (p : positive) (i : nat) : list nat :=
  match p with
  | xH => [i]
  | xO q => Pos_bits q (S i)
  | xI q => i :: Pos_bits q (S i)
  end.

Definition mask_bits (Mask : N) : list nat :=
  match Mask with
  | N0 => []
  | Npos p => Pos_bits p 0
  end.

(** The pieces [l] with [sep] between them. *)
Fixpoint separated (sep : string) (l : list string) : list string :=
  match l with
  | [] => []
  | [x] => [x]
  | x :: l' => x :: sep :: separated sep l'
  end.

(** ** Well-formed helper states *)

Section HelperStates.

Context {Value : Type} `{Countable Value}.
Variable kind : Value -> ValueKind Value.
Variable MaxLogicOpLeafsToScan : N.
Variable MaxDepthLogicOpsToScan : N.

(** The values [visitLeafNode] gives a leaf bit: anything but an
    and/or/xor operator and the integer constants zero and all-ones. *)
Definition is_opaque_leaf (Val : Value) : bool :=
  match kind Val with
  | BinaryOperator Opcode _ _ => negb (is_logic_op Opcode)
  | ConstantInt isZero isAllOnesValue => negb isZero && negb isAllOnesValue
  | OtherValue => true
  end.

(** [occurs_in Leaf Root]: [Leaf] is [Root] or is reached from it through
    operands of and/or/xor operators. *)
Inductive occurs_in (Leaf : Value) : Value -> Prop :=
| occurs_here : occurs_in Leaf Leaf
| occurs_op0 BO Opcode Op0 Op1 :
    kind BO = BinaryOperator Opcode Op0 Op1 ->
    is_logic_op Opcode = true ->
    occurs_in Leaf Op0 -> occurs_in Leaf BO
| occurs_op1 BO Opcode Op0 Op1 :
    kind BO = BinaryOperator Opcode Op0 Op1 ->
    is_logic_op Opcode = true ->
    occurs_in Leaf Op1 -> occurs_in Leaf BO.

(** A mask of the polynomial of [Val]: a sentinel alone, or a non-empty
    set of bits each of which is the index of a tabled leaf occurring in
    [Val]. *)
Definition mask_ok (h : LogicalOpsHelper Value) (Val : Value) (m : N) : Prop :=
  m = ExprZero \/ m = ExprAllOne \/
  (m <> 0 /\
   forall i, N.testbit m i = true ->
     exists Leaf, LeafValues h !! N.to_nat i = Some Leaf /\ occurs_in Leaf Val).

(** The invariant of the helper. *)
Record helper_inv (h : LogicalOpsHelper Value) : Prop := mk_helper_inv {
  inv_keys : forall Val Node,
    LogicalOpNodes h !! Val = Some Node -> getValue Node = Val;
  inv_leaf_set : LeafSet h = list_to_set (LeafValues h);
  inv_leaf_nodup : NoDup (LeafValues h);
  inv_leaf_count : (length (LeafValues h) <= 62)%nat;
  inv_leaf_node : forall (i : nat) Leaf,
    LeafValues h !! i = Some Leaf ->
    is_opaque_leaf Leaf = true /\
    exists Node, LogicalOpNodes h !! Leaf = Some Node /\
                 AddChain (getExpr Node) = {[ N.shiftl 1 (N.of_nat i) ]};
  inv_opaque_node : forall Val Node,
    LogicalOpNodes h !! Val = Some Node -> is_opaque_leaf Val = true ->
    AddChain (getExpr Node) = {[ ExprZero ]} \/
    exists i : nat, LeafValues h !! i = Some Val /\
                    AddChain (getExpr Node) = {[ N.shiftl 1 (N.of_nat i) ]};
  inv_masks : forall Val Node m,
    LogicalOpNodes h !! Val = Some Node -> m ∈ AddChain (getExpr Node) ->
    mask_ok h Val m
}.

(** The node [visitLeafNode] makes for a leaf that takes the next free bit,
    and the helper after it has tabled the leaf and stored the node. *)
Definition tabled_leaf_node (Val : Value) (h : LogicalOpsHelper Value)
  : LogicalOpNode Value :=
  {| getValue := Val;
     getExpr :=
       LogicalExpr_of_mask (N.shiftl 1 (N.of_nat (length (LeafValues h)))) |}.

Definition table_leaf (Val : Value) (h : LogicalOpsHelper Value)
  : LogicalOpsHelper Value :=
  store_node (tabled_leaf_node Val h)
             {| LogicalOpNodes := LogicalOpNodes h;
                LeafSet := {[ Val ]} ∪ LeafSet h;
                LeafValues := LeafValues h ++ [Val] |}.

(** The polynomial [visitBinOp] builds for an and/or/xor operator. *)
Definition binop_expr (Opcode : BinaryOps) (LHS RHS : LogicalExpr) : LogicalExpr :=
  match Opcode with
  | And => op_and LHS RHS
  | Or => op_or LHS RHS
  | _ => op_xor LHS RHS
  end.

(** [extends h h']: everything cached or tabled in [h] is still there,
    unchanged, in [h']. *)
Definition extends (h h' : LogicalOpsHelper Value) : Prop :=
  (forall Val Node, LogicalOpNodes h !! Val = Some Node ->
                    LogicalOpNodes h' !! Val = Some Node) /\
  LeafValues h `prefix_of` LeafValues h' /\
  LeafSet h ⊆ LeafSet h'.

(** A call of [getLogicalOpNode], as the value, the depth and the helper
    state it starts from; [nested_call x y]: the call [x] is on an and/or/xor
    operator not yet cached and makes the call [y] on one of its operands
    (the second operand is visited only when the first gave a node). *)
Inductive nested_call :
  Value * N * LogicalOpsHelper Value ->
  Value * N * LogicalOpsHelper Value -> Prop :=
| nested_op0 Val Depth h Opcode Op0 Op1 :
    Depth <> MaxDepthLogicOpsToScan ->
    LogicalOpNodes h !! Val = None ->
    kind Val = BinaryOperator Opcode Op0 Op1 ->
    is_logic_op Opcode = true ->
    nested_call (Val, Depth, h) (Op0, Depth + 1, h)
| nested_op1 Val Depth h Opcode Op0 Op1 LHS h1 :
    Depth <> MaxDepthLogicOpsToScan ->
    LogicalOpNodes h !! Val = None ->
    kind Val = BinaryOperator Opcode Op0 Op1 ->
    is_logic_op Opcode = true ->
    getLogicalOpNode kind MaxLogicOpLeafsToScan MaxDepthLogicOpsToScan
                     Op0 (Depth + 1) h = (Some LHS, h1) ->
    nested_call (Val, Depth, h) (Op1, Depth + 1, h1).

(** The calls that return no node by themselves: a call at the maximal
    depth, and a visit of a value that is neither cached nor an and/or/xor
    operator at depth 0 or with more than [MaxLogicOpLeafsToScan] leaves in
    the leaf set. *)
Definition cut_off (call : Value * N * LogicalOpsHelper Value) : Prop :=
  let '(Val, Depth, h) := call in
  Depth = MaxDepthLogicOpsToScan \/
  (LogicalOpNodes h !! Val = None /\
   (forall Opcode Op0 Op1,
       kind Val = BinaryOperator Opcode Op0 Op1 -> is_logic_op Opcode = false) /\
   (Depth = 0 \/ MaxLogicOpLeafsToScan < N.of_nat (size (LeafSet h)))).

(** One bit position of the values of the host: an assignment of truth
    values to the values that follows the and/or/xor operators, is false on
    the zero constants and true on the all-ones constants. *)
Definition bit_consistent (bit : Value -> bool) : Prop :=
  (forall BO Opcode Op0 Op1,
      kind BO = BinaryOperator Opcode Op0 Op1 -> is_logic_op Opcode = true ->
      bit BO = match Opcode with
               | And => bit Op0 && bit Op1
               | Or => bit Op0 || bit Op1
               | _ => xorb (bit Op0) (bit Op1)
               end) /\
  (forall Val isAllOnesValue,
      kind Val = ConstantInt true isAllOnesValue -> bit Val = false) /\
  (forall Val, kind Val = ConstantInt false true -> bit Val = true).

(** The truth values of the tabled leaves, by leaf index. *)
Definition leaf_env (bit : Value -> bool) (h : LogicalOpsHelper Value)
  : nat -> bool :=
  fun i => match LeafValues h !! i with
           | Some Leaf => bit Leaf
           | None => false
           end.

(** Every cached polynomial has the truth value of its value. *)
Definition nodes_sound (bit : Value -> bool) (h : LogicalOpsHelper Value)
  : Prop :=
  forall Val Node,
    LogicalOpNodes h !! Val = Some Node ->
    eval_expr (leaf_env bit h) (getExpr Node) = bit Val.

(** Every cached polynomial is canonical. *)
Definition nodes_canonical (h : LogicalOpsHelper Value) : Prop :=
  forall Val Node,
    LogicalOpNodes h !! Val = Some Node ->
    canonical_chain (AddChain (getExpr Node)).

(** The states a helper goes through: it starts empty, and every call of
    [getLogicalOpNode] (the one of [simplify] and the nested ones) leaves
    the next state. *)
Inductive reachable : LogicalOpsHelper Value -> Prop :=
| reachable_new : reachable LogicalOpsHelper_new
| reachable_walk h Val Depth :
    reachable h ->
    reachable (getLogicalOpNode kind MaxLogicOpLeafsToScan
                                MaxDepthLogicOpsToScan Val Depth h).2.

End HelperStates.

(** ** Worked expressions

    A small host for the examples: values are numbered by [N], the kind of a
    value is read off a table (anything not listed is an opaque value), every
    value has the 32-bit integer type, value 1000 is the constant zero and
    value 1001 the constant all-ones. *)

Fixpoint kind_table (table : list (N * ValueKind N)) (Val : N) : ValueKind N :=
  match table with
  | [] => OtherValue
  | (v, k) :: rest => if v =? Val then k else kind_table rest Val
  end.

Definition ex_getType (Val : N) : N := 32.
Definition ex_getNullValue (BitWidth : N) : N := 1000.
Definition ex_getAllOnesValue (BitWidth : N) : N := 1001.

Definition ex_constants : list (N * ValueKind N) :=
  [(1000, ConstantInt true false); (1001, ConstantInt false true)].

(** The walkthrough of the header comment, with [a = 1], [b = 2], [c = 3]:
    value 16 is [((a & b) | (a ^ c)) ^ (((b & c) ^ -1) & a)]. *)
Definition kind_S6 : N -> ValueKind N :=
  kind_table
    ([(10, BinaryOperator And 1 2);
      (11, BinaryOperator Xor 1 3);
      (12, BinaryOperator Or 10 11);
      (13, BinaryOperator And 2 3);
      (14, BinaryOperator Xor 13 1001);
      (15, BinaryOperator And 14 1);
      (16, BinaryOperator Xor 12 15)] ++ ex_constants).

(** An expression without a zero constant: value 12 is
    [((a & b) | c) ^ -1]. *)
Definition kind_plain : N -> ValueKind N :=
  kind_table
    [(10, BinaryOperator And 1 2);
     (11, BinaryOperator Or 10 3);
     (12, BinaryOperator Xor 11 1001);
     (1001, ConstantInt false true)].

(** Printers for the examples: the values from 1000 on are constants, the
    leaves 1, 2 and 3 are named [a], [b] and [c]. *)
Definition ex_isConstant (Val : N) : bool := 1000 <=? Val.

Definition ex_printIR (Val : N) : string :=
  if Val =? 1000 then "i32 0" else if Val =? 1001 then "i32 -1" else "%t".

Definition ex_getName (Val : N) : string :=
  if Val =? 1 then "a" else if Val =? 2 then "b"
  else if Val =? 3 then "c" else "t".

(** Truth values for the walkthrough with [a] true, [b] false and [c] true:
    the values 14, 15 and 16 and the constant all-ones are true as well. *)
Definition bit_S6 (Val : N) : bool :=
  match Val with
  | 1 | 3 | 14 | 15 | 16 | 1001 => true
  | _ => false
  end.

(** Nine opaque values 1 to 9: value 27 is the xor of the first eight,
    value 29 is [27 ^ (27 ^ 9)]; value 40 is [50 ^ 50] for one more opaque
    value 50. *)
Definition kind_nine : N -> ValueKind N :=
  kind_table
    ([(21, BinaryOperator Xor 1 2);
      (22, BinaryOperator Xor 3 4);
      (23, BinaryOperator Xor 5 6);
      (24, BinaryOperator Xor 7 8);
      (25, BinaryOperator Xor 21 22);
      (26, BinaryOperator Xor 23 24);
      (27, BinaryOperator Xor 25 26);
      (28, BinaryOperator Xor 27 9);
      (29, BinaryOperator Xor 27 28);
      (40, BinaryOperator Xor 50 50)] ++ ex_constants).

(** A balanced xor tree: values 1 to 62 are the operators [2v ^ (2v+1)],
    value 63 is [64 ^ 65], values 64 to 125 are its 62 opaque leaves; the
    opaque value 200 is one leaf more, 201 is [1 ^ 200] and 202 is
    [1 ^ 201]. *)
Definition kind_wide (Val : N) : ValueKind N :=
  if (1 <=? Val) && (Val <? 63) then BinaryOperator Xor (2 * Val) (2 * Val + 1)
  else if Val =? 63 then BinaryOperator Xor 64 65
  else if Val =? 201 then BinaryOperator Xor 1 200
  else if Val =? 202 then BinaryOperator Xor 1 201
  else if Val =? 1000 then ConstantInt true false
  else if Val =? 1001 then ConstantInt false true
  else OtherValue.

(** ** Properties of the polynomial algebra *)

Section Algebra.

Implicit Types (m x : N) (l : list N) (S : ExprAddChain).

Lemma elem_of_insert_or_erase m x S :
  bool_decide (m ∈ insert_or_erase x S)
  = xorb (bool_decide (m ∈ S)) (bool_decide (x = m)).
Proof.
  unfold insert_or_erase.
  destruct (decide (x ∈ S)) as [Hin | Hnin];
    repeat case_bool_decide; simpl; try done; set_solver.
Qed.

Lemma elem_of_toggles l : forall S m,
  bool_decide (m ∈ foldl (fun Chain x => insert_or_erase x Chain) S l)
  = xorb (bool_decide (m ∈ S)) (odd_count m l).
Proof.
  induction l as [| x l IH]; intros S m; simpl.
  - by rewrite xorb_false_r.
  - rewrite IH, elem_of_insert_or_erase. by rewrite xorb_assoc.
Qed.

Lemma odd_count_app m l1 l2 :
  odd_count m (l1 ++ l2) = xorb (odd_count m l1) (odd_count m l2).
Proof.
  induction l1 as [| x l1 IH]; simpl; [done |].
  by rewrite IH, xorb_assoc.
Qed.

Lemma odd_count_not_in m l : m ∉ l -> odd_count m l = false.
Proof.
  induction l as [| x l IH]; simpl; [done |].
  intros Hn. apply not_elem_of_cons in Hn as [Hne Hn].
  rewrite IH; [| done]. case_bool_decide; [congruence | done].
Qed.

Lemma odd_count_NoDup m l :
  NoDup l -> odd_count m l = bool_decide (m ∈ l).
Proof.
  induction 1 as [| x l Hx Hnd IH]; simpl.
  - done.
  - destruct (decide (x = m)) as [-> | Hne].
    + rewrite odd_count_not_in; [| done].
      repeat case_bool_decide; simpl; try done.
      exfalso. set_solver.
    + rewrite IH.
      repeat case_bool_decide; simpl; try done; exfalso; set_solver.
Qed.

(** Membership in a sum: a mask is in [a + b] when it is in exactly one of
    the two. *)
Lemma elem_of_add_chain S1 S2 m :
  bool_decide (m ∈ add_chain S1 S2)
  = xorb (bool_decide (m ∈ S1)) (bool_decide (m ∈ S2)).
Proof.
  unfold add_chain. rewrite elem_of_toggles.
  rewrite odd_count_NoDup by apply NoDup_elements.
  f_equal. apply bool_decide_ext. apply elem_of_elements.
Qed.

Lemma updateLeafMask_empty : updateLeafMask ∅ = 0.
Proof. unfold updateLeafMask. by rewrite elements_empty. Qed.

(** The two loops of [operator*=] toggle the masks of [product_masks]. *)
Lemma mul_inner_loop L l2 : forall S,
  foldl (fun NewChain RHSMask =>
           if negb (N.land RHSMask ExprZero =? 0) then NewChain
           else insert_or_erase (mul_mask L RHSMask) NewChain) S l2
  = foldl (fun Chain x => insert_or_erase x Chain) S
          (flat_map (fun R => if negb (N.land R ExprZero =? 0) then []
                              else [mul_mask L R]) l2).
Proof.
  induction l2 as [| R l2 IH]; intros S; simpl; [done |].
  rewrite foldl_app, IH.
  by destruct (negb (N.land R ExprZero =? 0)).
Qed.

Lemma pair_masks_zero_l L l2 :
  negb (N.land L ExprZero =? 0) = true -> flat_map (pair_masks L) l2 = [].
Proof.
  intros HL. induction l2 as [| R l2 IH]; simpl; [done |].
  rewrite IH. unfold pair_masks. by rewrite HL.
Qed.

Lemma pair_masks_nonzero_l L l2 :
  negb (N.land L ExprZero =? 0) = false ->
  flat_map (pair_masks L) l2
  = flat_map (fun R => if negb (N.land R ExprZero =? 0) then []
                       else [mul_mask L R]) l2.
Proof.
  intros HL. induction l2 as [| R l2 IH]; simpl; [done |].
  rewrite IH. unfold pair_masks. by rewrite HL.
Qed.

Lemma mul_outer_loop l2 l1 : forall S,
  foldl (fun NewChain LHSMask =>
           if negb (N.land LHSMask ExprZero =? 0) then NewChain
           else
             foldl (fun NewChain RHSMask =>
                      if negb (N.land RHSMask ExprZero =? 0) then NewChain
                      else insert_or_erase (mul_mask LHSMask RHSMask) NewChain)
                   NewChain l2) S l1
  = foldl (fun Chain x => insert_or_erase x Chain) S (product_masks l1 l2).
Proof.
  unfold product_masks.
  induction l1 as [| L l1 IH]; intros S; simpl; [done |].
  rewrite foldl_app, IH.
  destruct (negb (N.land L ExprZero =? 0)) eqn:HL.
  - by rewrite pair_masks_zero_l.
  - by rewrite mul_inner_loop, pair_masks_nonzero_l.
Qed.

Lemma elem_of_mul_chain S1 S2 m :
  bool_decide (m ∈ mul_chain S1 S2)
  = odd_count m (product_masks (elements S1) (elements S2)).
Proof.
  unfold mul_chain. rewrite mul_outer_loop, elem_of_toggles.
  rewrite (bool_decide_eq_false_2 (m ∈ (∅ : ExprAddChain))); [done |].
  apply not_elem_of_empty.
Qed.

Lemma chain_eq S1 S2 :
  (forall m, bool_decide (m ∈ S1) = bool_decide (m ∈ S2)) -> S1 = S2.
Proof.
  intros Heq. apply set_eq. intros m. specialize (Heq m).
  by repeat case_bool_decide.
Qed.

(** Bits of the sentinels and of leaf-only masks. *)
Lemma ExprZero_pow2 : ExprZero = 2 ^ 62.
Proof. reflexivity. Qed.

Lemma ExprAllOne_pow2 : ExprAllOne = 2 ^ 63.
Proof. reflexivity. Qed.

Lemma testbit_leaf_mask m i : m < 2 ^ 62 -> 62 <= i -> N.testbit m i = false.
Proof.
  intros Hm Hi. destruct (N.eq_dec m 0) as [-> | Hne].
  - apply N.bits_0.
  - apply N.bits_above_log2.
    assert (N.log2 m < 62) by (apply N.log2_lt_pow2; lia). lia.
Qed.

Lemma land_leaf_mask_pow2 m k : m < 2 ^ 62 -> 62 <= k -> N.land m (2 ^ k) = 0.
Proof.
  intros Hm Hk. apply N.bits_inj. intros i.
  rewrite N.land_spec, N.bits_0, N.pow2_bits_eqb.
  destruct (N.eqb_spec k i) as [<- | Hne].
  - by rewrite testbit_leaf_mask.
  - apply andb_false_r.
Qed.

Lemma land_leaf_mask_ExprZero m : m < 2 ^ 62 -> N.land m ExprZero = 0.
Proof. intros Hm. rewrite ExprZero_pow2. by apply land_leaf_mask_pow2. Qed.

Lemma land_leaf_mask_ExprAllOne m : m < 2 ^ 62 -> N.land m ExprAllOne = 0.
Proof. intros Hm. rewrite ExprAllOne_pow2. by apply land_leaf_mask_pow2. Qed.

Lemma lor_leaf_mask m1 m2 : m1 < 2 ^ 62 -> m2 < 2 ^ 62 -> N.lor m1 m2 < 2 ^ 62.
Proof.
  intros H1 H2.
  destruct (N.eq_dec (N.lor m1 m2) 0) as [-> | Hne]; [done |].
  apply N.log2_lt_pow2; [lia |].
  rewrite N.log2_lor.
  destruct (N.eq_dec m1 0) as [-> | Hm1]; destruct (N.eq_dec m2 0) as [-> | Hm2];
    simpl in *; try lia.
  - apply N.max_lub_lt; [done |]. apply N.log2_lt_pow2; lia.
  - apply N.max_lub_lt; [| done]. apply N.log2_lt_pow2; lia.
  - apply N.max_lub_lt; apply N.log2_lt_pow2; lia.
Qed.

(** [mul_mask] on the kinds of masks a well-formed polynomial holds. *)
Lemma mul_mask_leaf m1 m2 :
  m1 < 2 ^ 62 -> m2 < 2 ^ 62 -> mul_mask m1 m2 = N.lor m1 m2.
Proof.
  intros H1 H2. unfold mul_mask.
  rewrite land_leaf_mask_ExprAllOne by (by apply lor_leaf_mask).
  by rewrite andb_false_r.
Qed.

Lemma mul_mask_AllOne_leaf m :
  m < 2 ^ 62 -> m <> 0 -> mul_mask ExprAllOne m = m.
Proof.
  intros Hm Hne. unfold mul_mask.
  assert (Hdisj : N.land m ExprAllOne = 0) by (by apply land_leaf_mask_ExprAllOne).
  assert (Hor : N.lor ExprAllOne m = ExprAllOne + m).
  { rewrite <- N.lxor_lor by (by rewrite N.land_comm).
    symmetry. apply N.add_nocarry_lxor. by rewrite N.land_comm. }
  rewrite Hor.
  assert (Hbig : ExprAllOne = 2 ^ 63) by reflexivity.
  destruct (N.eqb_spec (ExprAllOne + m) ExprAllOne) as [Heq | _]; [lia |].
  rewrite <- Hor.
  destruct (N.eqb_spec (N.land (N.lor ExprAllOne m) ExprAllOne) 0) as [Heq | _].
  - exfalso. rewrite N.land_lor_distr_l, Hdisj, N.land_diag, N.lor_0_r in Heq.
    discriminate.
  - simpl. rewrite N.land_lor_distr_l.
    replace (N.land ExprAllOne (N.lnot ExprAllOne 64)) with 0 by reflexivity.
    rewrite N.lor_0_l. apply N.bits_inj. intros i.
    rewrite N.land_spec.
    destruct (N.ltb_spec i 62) as [Hi | Hi].
    + replace (N.testbit (N.lnot ExprAllOne 64) i) with true;
        [apply andb_true_r |].
      symmetry. rewrite N.lnot_spec_low by lia.
      rewrite Hbig, N.pow2_bits_eqb.
      destruct (N.eqb_spec 63 i); [lia | done].
    + by rewrite testbit_leaf_mask.
Qed.

Lemma mul_mask_comm m1 m2 : mul_mask m1 m2 = mul_mask m2 m1.
Proof. unfold mul_mask. by rewrite (N.lor_comm m1 m2). Qed.

Lemma pair_masks_comm m1 m2 : pair_masks m1 m2 = pair_masks m2 m1.
Proof.
  unfold pair_masks. rewrite (mul_mask_comm m1 m2).
  by rewrite orb_comm.
Qed.

(** What an and-chain contributes when it meets itself. *)
Lemma pair_masks_diag m :
  wf_mask m -> pair_masks m m = if decide (m = ExprZero) then [] else [m].
Proof.
  intros [-> | [-> | Hm]].
  - reflexivity.
  - reflexivity.
  - unfold pair_masks. rewrite land_leaf_mask_ExprZero by done. simpl.
    rewrite mul_mask_leaf, N.lor_diag by done.
    destruct (decide (m = ExprZero)) as [-> | _]; [| done].
    rewrite ExprZero_pow2 in Hm. lia.
Qed.

(** In a product of a list with itself the pairs [(L, R)] and [(R, L)]
    offer the same mask, so only the diagonal counts modulo two. *)
Lemma product_masks_cons L l1 l2 :
  product_masks (L :: l1) l2
  = flat_map (pair_masks L) l2 ++ product_masks l1 l2.
Proof. reflexivity. Qed.

Lemma odd_count_product_cons_r m a l1 l2 :
  odd_count m (product_masks l1 (a :: l2))
  = xorb (odd_count m (flat_map (fun L => pair_masks L a) l1))
         (odd_count m (product_masks l1 l2)).
Proof.
  induction l1 as [| L l1 IH]; [done |].
  rewrite !product_masks_cons, !odd_count_app, IH.
  change (flat_map (pair_masks L) (a :: l2))
    with (pair_masks L a ++ flat_map (pair_masks L) l2).
  change (flat_map (fun L0 => pair_masks L0 a) (L :: l1))
    with (pair_masks L a ++ flat_map (fun L0 => pair_masks L0 a) l1).
  rewrite !odd_count_app.
  destruct (odd_count m (pair_masks L a)),
           (odd_count m (flat_map (pair_masks L) l2)),
           (odd_count m (flat_map (fun L0 => pair_masks L0 a) l1)),
           (odd_count m (product_masks l1 l2));
    reflexivity.
Qed.

Lemma odd_count_column_row m a l :
  odd_count m (flat_map (fun L => pair_masks L a) l)
  = odd_count m (flat_map (pair_masks a) l).
Proof.
  induction l as [| L l IH]; simpl; [done |].
  by rewrite !odd_count_app, IH, (pair_masks_comm L a).
Qed.

Lemma odd_count_product_diag m l :
  odd_count m (product_masks l l)
  = odd_count m (flat_map (fun a => pair_masks a a) l).
Proof.
  induction l as [| a l IH]; [done |].
  rewrite product_masks_cons.
  change (flat_map (pair_masks a) (a :: l))
    with (pair_masks a a ++ flat_map (pair_masks a) l).
  change (flat_map (fun a0 => pair_masks a0 a0) (a :: l))
    with (pair_masks a a ++ flat_map (fun a0 => pair_masks a0 a0) l).
  rewrite !odd_count_app, odd_count_product_cons_r.
  rewrite odd_count_column_row, IH.
  destruct (odd_count m (pair_masks a a)),
           (odd_count m (flat_map (pair_masks a) l)),
           (odd_count m (flat_map (fun a0 => pair_masks a0 a0) l));
    reflexivity.
Qed.

Lemma odd_count_diag_wf m l :
  NoDup l -> (forall x, x ∈ l -> wf_mask x) ->
  odd_count m (flat_map (fun a => pair_masks a a) l)
  = bool_decide (m ∈ l) && negb (bool_decide (m = ExprZero)).
Proof.
  induction 1 as [| a l Ha Hnd IH]; intros Hwf; simpl; [done |].
  rewrite odd_count_app, IH by (intros x Hx; apply Hwf; by right).
  rewrite pair_masks_diag by (apply Hwf; by left).
  destruct (decide (a = ExprZero)) as [-> | Hne]; simpl.
  - repeat case_bool_decide; simpl; try done; exfalso; set_solver.
  - repeat case_bool_decide; simpl; try done; exfalso; set_solver.
Qed.

Lemma wf_chain_elements S :
  forallb wf_maskb (elements S) = true -> wf_chain S.
Proof.
  intros Hall m Hm. rewrite forallb_forall in Hall.
  apply elem_of_elements, list_elem_of_In, Hall in Hm.
  unfold wf_maskb in Hm. unfold wf_mask.
  destruct (N.eqb_spec m ExprZero); [by left |].
  destruct (N.eqb_spec m ExprAllOne); [by right; left |].
  right; right. simpl in Hm. by apply N.ltb_lt.
Qed.

(** The square of a well-formed polynomial keeps every monomial but the
    zero sentinel. *)
Lemma mul_chain_square S :
  wf_chain S -> mul_chain S S = S ∖ {[ ExprZero ]}.
Proof.
  intros Hwf. apply chain_eq. intros m.
  rewrite elem_of_mul_chain, odd_count_product_diag.
  rewrite odd_count_diag_wf.
  - repeat case_bool_decide; simpl; try done; exfalso; set_solver.
  - apply NoDup_elements.
  - intros x Hx. apply Hwf. by apply elem_of_elements.
Qed.


Lemma elem_of_add_chain_inv S1 S2 m :
  m ∈ add_chain S1 S2 -> m ∈ S1 \/ m ∈ S2.
Proof.
  intros Hin. pose proof (elem_of_add_chain S1 S2 m) as Heq.
  rewrite (bool_decide_eq_true_2 _ Hin) in Heq.
  repeat case_bool_decide; auto. discriminate.
Qed.

Lemma odd_count_true_elem m l : odd_count m l = true -> m ∈ l.
Proof.
  intros Hodd. destruct (decide (m ∈ l)) as [| Hn]; [done |].
  rewrite odd_count_not_in in Hodd; done.
Qed.

Lemma elem_of_pair_masks m L R :
  m ∈ pair_masks L R ->
  N.land L ExprZero = 0 /\ N.land R ExprZero = 0 /\ m = mul_mask L R.
Proof.
  unfold pair_masks.
  destruct (N.eqb_spec (N.land L ExprZero) 0) as [HL | HL]; simpl;
    [| by intros ?%elem_of_nil].
  destruct (N.eqb_spec (N.land R ExprZero) 0) as [HR | HR]; simpl;
    [| by intros ?%elem_of_nil].
  intros ->%list_elem_of_singleton. done.
Qed.

Lemma elem_of_product_masks m l1 l2 :
  m ∈ product_masks l1 l2 ->
  exists L R, L ∈ l1 /\ R ∈ l2 /\
    N.land L ExprZero = 0 /\ N.land R ExprZero = 0 /\ m = mul_mask L R.
Proof.
  unfold product_masks. rewrite list_elem_of_In, in_flat_map.
  intros (L & HL & Hin). apply in_flat_map in Hin as (R & HR & Hin).
  apply list_elem_of_In, elem_of_pair_masks in Hin as (? & ? & ?).
  exists L, R. by rewrite !list_elem_of_In.
Qed.

Lemma elem_of_mul_chain_inv S1 S2 m :
  m ∈ mul_chain S1 S2 ->
  exists L R, L ∈ S1 /\ R ∈ S2 /\
    N.land L ExprZero = 0 /\ N.land R ExprZero = 0 /\ m = mul_mask L R.
Proof.
  intros Hin. pose proof (elem_of_mul_chain S1 S2 m) as Heq.
  rewrite (bool_decide_eq_true_2 _ Hin) in Heq. symmetry in Heq.
  apply odd_count_true_elem, elem_of_product_masks in Heq
    as (L & R & HL & HR & Hrest).
  exists L, R. by rewrite <- !elem_of_elements.
Qed.

(** A mask whose bits all lie below 62 is a leaf-only mask. *)
Lemma leaf_mask_of_bits m :
  (forall i, N.testbit m i = true -> i < 62) -> m < 2 ^ 62.
Proof.
  intros Hbits. destruct (N.eq_dec m 0) as [-> | Hne]; [done |].
  apply N.log2_lt_pow2; [lia |].
  apply Hbits, N.bit_log2. done.
Qed.

Lemma testbit_pow2 k i : N.testbit (2 ^ k) i = true -> i = k.
Proof.
  rewrite N.pow2_bits_eqb. by intros ->%N.eqb_eq.
Qed.

(** A mask with a single bit set is the power of two of its logarithm. *)
Lemma Pos_popcount_pos p : 1 <= Pos_popcount p.
Proof. induction p; simpl; lia. Qed.

Lemma Pos_popcount_1_pow2 p :
  Pos_popcount p = 1 -> N.pos p = 2 ^ N.log2 (N.pos p).
Proof.
  induction p as [p IH | p IH |]; intros Hp.
  - simpl in Hp. pose proof (Pos_popcount_pos p). lia.
  - simpl in Hp. specialize (IH Hp).
    change (N.pos p~0) with (2 * N.pos p).
    rewrite N.log2_double by lia.
    rewrite N.pow_succ_r', <- IH. done.
  - reflexivity.
Qed.

Lemma popcount_pow2 k : popcount (2 ^ k) = 1.
Proof.
  induction k as [| k IH] using N.peano_ind; [reflexivity |].
  rewrite N.pow_succ_r'. by destruct (2 ^ k).
Qed.

Lemma popcount_1_pow2 m : popcount m = 1 -> m = 2 ^ Log2_64 m.
Proof.
  unfold Log2_64. destruct m as [| p]; [done |].
  apply Pos_popcount_1_pow2.
Qed.


(** The loops of [operator+=] and [operator*=] give the same set in whatever
    order the and-chains are enumerated. *)
Lemma odd_count_perm m l1 l2 : l1 ≡ₚ l2 -> odd_count m l1 = odd_count m l2.
Proof.
  induction 1 as [| x l1 l2 _ IH | x y l | l1 l2 l3 _ IH1 _ IH2]; simpl.
  - done.
  - by rewrite IH.
  - by destruct (bool_decide (y = m)), (bool_decide (x = m)),
               (odd_count m l).
  - by rewrite IH1.
Qed.

Lemma odd_count_flat_map_ext m (f g : N -> list N) l :
  (forall x, odd_count m (f x) = odd_count m (g x)) ->
  odd_count m (flat_map f l) = odd_count m (flat_map g l).
Proof.
  intros Hfg. induction l as [| x l IH]; simpl; [done |].
  by rewrite !odd_count_app, Hfg, IH.
Qed.

Lemma add_chain_any_order S1 S2 l :
  l ≡ₚ elements S2 ->
  foldl (fun Chain RHSMask => insert_or_erase RHSMask Chain) S1 l
  = add_chain S1 S2.
Proof.
  intros Hperm. apply chain_eq. intros m. unfold add_chain.
  by rewrite !elem_of_toggles, (odd_count_perm m _ _ Hperm).
Qed.

Lemma mul_chain_any_order S1 S2 l1 l2 :
  l1 ≡ₚ elements S1 -> l2 ≡ₚ elements S2 ->
  foldl (fun NewChain LHSMask =>
           if negb (N.land LHSMask ExprZero =? 0) then NewChain
           else
             foldl (fun NewChain RHSMask =>
                      if negb (N.land RHSMask ExprZero =? 0) then NewChain
                      else insert_or_erase (mul_mask LHSMask RHSMask) NewChain)
                   NewChain l2) ∅ l1
  = mul_chain S1 S2.
Proof.
  intros H1 H2. apply chain_eq. intros m. unfold mul_chain.
  rewrite !mul_outer_loop, !elem_of_toggles. f_equal.
  unfold product_masks.
  rewrite (odd_count_perm m _ _ (Permutation_flat_map _ H1)).
  apply odd_count_flat_map_ext. intros L.
  apply odd_count_perm. by apply Permutation_flat_map.
Qed.

(** Sizes and the first element. *)
Lemma expr_size_0 (E : LogicalExpr) : expr_size E = 0 <-> AddChain E = ∅.
Proof.
  unfold expr_size. split.
  - intros Hs. apply leibniz_equiv, size_empty_iff. lia.
  - intros ->. by rewrite size_empty.
Qed.

Lemma expr_singleton (E : LogicalExpr) m :
  AddChain E = {[ m ]} -> expr_size E = 1 /\ expr_begin E = m.
Proof.
  unfold expr_size, expr_begin. intros ->.
  by rewrite size_singleton, elements_singleton.
Qed.

Lemma expr_size_1 (E : LogicalExpr) :
  expr_size E = 1 -> exists m, AddChain E = {[ m ]}.
Proof.
  unfold expr_size. intros Hs.
  destruct (size_1_elem_of (AddChain E)) as [m Hm]; [lia |].
  exists m. by apply leibniz_equiv.
Qed.

(** C6. Adding a polynomial to itself: every monomial of the right-hand
    side is already present and is erased, so [p + p] has no monomial left
    (size 0, the constant zero) and its leaf mask is 0. *)
Theorem add_self_cancels (p : LogicalExpr) :
  AddChain (op_add p p) = ∅ /\
  expr_size (op_add p p) = 0 /\
  LeafMask (op_add p p) = 0.
Proof.
  assert (Hempty : add_chain (AddChain p) (AddChain p) = ∅).
  { apply chain_eq. intros m. rewrite elem_of_add_chain, xorb_nilpotent.
    symmetry. apply bool_decide_eq_false_2, not_elem_of_empty. }
  unfold op_add, add_assign, expr_size. simpl. rewrite Hempty.
  by rewrite size_empty, updateLeafMask_empty.
Qed.

(** C5 (amended). For a polynomial [p] within leaf bounds (each monomial is
    a sentinel alone or a mask of leaf bits 0 to 61), [p * p] holds exactly
    the monomials of [p] other than the zero sentinel; hence [p * p = p]
    whenever [p] does not hold the zero-sentinel monomial. *)
Theorem mul_self_idempotent (p : LogicalExpr) :
  wf_chain (AddChain p) ->
  AddChain (op_mul p p) = AddChain p ∖ {[ ExprZero ]} /\
  (ExprZero ∉ AddChain p -> AddChain (op_mul p p) = AddChain p).
Proof.
  intros Hwf. unfold op_mul, mul_assign. simpl.
  rewrite mul_chain_square by done. split; [done |].
  intros Hz. set_solver.
Qed.

(** *** Exclusive-or sums over the and-chains *)

Lemma xor_sum_app w l1 l2 :
  xor_sum w (l1 ++ l2) = xorb (xor_sum w l1) (xor_sum w l2).
Proof.
  induction l1 as [| x l1 IH]; simpl; [done |].
  by rewrite IH, xorb_assoc.
Qed.

Lemma xor_sum_perm w l1 l2 : l1 ≡ₚ l2 -> xor_sum w l1 = xor_sum w l2.
Proof.
  induction 1 as [| x l1 l2 _ IH | x y l | l1 l2 l3 _ IH1 _ IH2]; simpl.
  - done.
  - by rewrite IH.
  - by destruct (w y), (w x), (xor_sum w l).
  - by rewrite IH1.
Qed.

Lemma xor_sum_ext w1 w2 l :
  (forall x, x ∈ l -> w1 x = w2 x) -> xor_sum w1 l = xor_sum w2 l.
Proof.
  induction l as [| x l IH]; intros Hext; simpl; [done |].
  rewrite Hext by (by left). rewrite IH; [done |].
  intros y Hy. apply Hext. by right.
Qed.

Lemma xor_sum_false l : xor_sum (fun _ => false) l = false.
Proof. by induction l. Qed.

Lemma xor_sum_xorb w1 w2 l :
  xor_sum (fun x => xorb (w1 x) (w2 x)) l
  = xorb (xor_sum w1 l) (xor_sum w2 l).
Proof.
  induction l as [| x l IH]; simpl; [done |].
  rewrite IH. by destruct (w1 x), (w2 x), (xor_sum w1 l), (xor_sum w2 l).
Qed.

Lemma xor_sum_andb_r w b l :
  xor_sum (fun x => w x && b) l = xor_sum w l && b.
Proof.
  induction l as [| x l IH]; simpl; [done |].
  rewrite IH. by destruct (w x), b, (xor_sum w l).
Qed.

Lemma xor_sum_flat_map w (g : N -> list N) l :
  xor_sum w (flat_map g l) = xor_sum (fun x => xor_sum w (g x)) l.
Proof.
  induction l as [| x l IH]; simpl; [done |].
  by rewrite xor_sum_app, IH.
Qed.

Lemma xor_sum_swap (f : N -> N -> bool) l1 l2 :
  xor_sum (fun x => xor_sum (fun y => f x y) l2) l1
  = xor_sum (fun y => xor_sum (fun x => f x y) l1) l2.
Proof.
  induction l1 as [| x l1 IH]; simpl.
  - by rewrite xor_sum_false.
  - by rewrite IH, <- xor_sum_xorb.
Qed.

Lemma odd_count_xor_sum m l :
  odd_count m l = xor_sum (fun x => bool_decide (x = m)) l.
Proof. induction l as [| x l IH]; simpl; [done |]. by rewrite IH. Qed.

(** Offering a mask to a chain adds its weight to the sum of the chain,
    whether the mask is inserted or erased. *)
Lemma xor_sum_insert_or_erase w x S :
  xor_sum w (elements (insert_or_erase x S))
  = xorb (xor_sum w (elements S)) (w x).
Proof.
  unfold insert_or_erase. destruct (decide (x ∈ S)) as [Hin | Hnin].
  - assert (HS : S = {[ x ]} ∪ S ∖ {[ x ]}).
    { apply set_eq. intros y. rewrite elem_of_union, elem_of_difference,
        elem_of_singleton.
      destruct (decide (y = x)) as [-> | ?]; naive_solver. }
    rewrite HS at 2.
    rewrite (xor_sum_perm w _ _
               (elements_union_singleton (S ∖ {[ x ]}) x ltac:(set_solver))).
    simpl. by destruct (w x), (xor_sum w (elements (S ∖ {[ x ]}))).
  - rewrite (xor_sum_perm w _ _ (elements_union_singleton S x Hnin)).
    simpl. apply xorb_comm.
Qed.

Lemma xor_sum_toggles w l : forall S,
  xor_sum w (elements (foldl (fun Chain x => insert_or_erase x Chain) S l))
  = xorb (xor_sum w (elements S)) (xor_sum w l).
Proof.
  induction l as [| x l IH]; intros S; simpl.
  - by rewrite xorb_false_r.
  - rewrite IH, xor_sum_insert_or_erase.
    by destruct (xor_sum w (elements S)), (w x), (xor_sum w l).
Qed.

Lemma xor_sum_add_chain w S1 S2 :
  xor_sum w (elements (add_chain S1 S2))
  = xorb (xor_sum w (elements S1)) (xor_sum w (elements S2)).
Proof. unfold add_chain. apply xor_sum_toggles. Qed.

Lemma xor_sum_mul_chain w S1 S2 :
  xor_sum w (elements (mul_chain S1 S2))
  = xor_sum w (product_masks (elements S1) (elements S2)).
Proof.
  unfold mul_chain. rewrite mul_outer_loop, xor_sum_toggles.
  by rewrite elements_empty.
Qed.

(** *** Laws of the addition *)

Lemma add_chain_comm S1 S2 : add_chain S1 S2 = add_chain S2 S1.
Proof.
  apply chain_eq. intros m. rewrite !elem_of_add_chain. apply xorb_comm.
Qed.

Lemma add_chain_assoc S1 S2 S3 :
  add_chain (add_chain S1 S2) S3 = add_chain S1 (add_chain S2 S3).
Proof.
  apply chain_eq. intros m. rewrite !elem_of_add_chain. apply xorb_assoc.
Qed.

Lemma add_chain_empty_r S : add_chain S ∅ = S.
Proof. unfold add_chain. by rewrite elements_empty. Qed.

Lemma add_chain_empty_l S : add_chain ∅ S = S.
Proof. by rewrite add_chain_comm, add_chain_empty_r. Qed.

Lemma add_chain_self S : add_chain S S = ∅.
Proof.
  apply chain_eq. intros m. rewrite elem_of_add_chain, xorb_nilpotent.
  symmetry. apply bool_decide_eq_false_2, not_elem_of_empty.
Qed.

(** X1. [a + b] holds the and-chains that are in exactly one of [a] and [b]
    (the symmetric difference), so adding the empty polynomial on either
    side changes nothing. *)
Theorem op_add_symmetric_difference (a b : LogicalExpr) :
  AddChain (op_add a b)
  = (AddChain a ∖ AddChain b) ∪ (AddChain b ∖ AddChain a) /\
  AddChain (op_add a (LogicalExpr_of_chain ∅)) = AddChain a /\
  AddChain (op_add (LogicalExpr_of_chain ∅) a) = AddChain a.
Proof.
  split; [| split]; simpl.
  - apply chain_eq. intros m. rewrite elem_of_add_chain.
    repeat case_bool_decide; simpl; try done; exfalso; set_solver.
  - apply add_chain_empty_r.
  - apply add_chain_empty_l.
Qed.

(** X2. The addition is commutative and associative; the results are equal
    as polynomials, cached leaf mask included. *)
Theorem op_add_comm_assoc (a b c : LogicalExpr) :
  op_add a b = op_add b a /\
  op_add (op_add a b) c = op_add a (op_add b c).
Proof.
  unfold op_add, add_assign. simpl. split.
  - by rewrite (add_chain_comm (AddChain a)).
  - by rewrite add_chain_assoc.
Qed.

(** X3. Complement twice: [~~a] has the and-chains of [a]. *)
Theorem op_not_involutive (a : LogicalExpr) :
  AddChain (op_not (op_not a)) = AddChain a.
Proof.
  simpl. rewrite add_chain_assoc, add_chain_self. apply add_chain_empty_r.
Qed.

(** *** Laws of the multiplication *)

Lemma odd_count_product_swap m l1 l2 :
  odd_count m (product_masks l1 l2) = odd_count m (product_masks l2 l1).
Proof.
  induction l1 as [| a l1 IH].
  - induction l2 as [| b l2 IH2]; [done |].
    by rewrite product_masks_cons, odd_count_app, <- IH2.
  - rewrite product_masks_cons, odd_count_app, IH.
    by rewrite odd_count_product_cons_r, odd_count_column_row.
Qed.

Lemma mul_chain_comm S1 S2 : mul_chain S1 S2 = mul_chain S2 S1.
Proof.
  apply chain_eq. intros m. rewrite !elem_of_mul_chain.
  apply odd_count_product_swap.
Qed.

Lemma odd_count_product_xor_sum m l1 l2 :
  odd_count m (product_masks l1 l2)
  = xor_sum (fun L => xor_sum (fun R => odd_count m (pair_masks L R)) l2) l1.
Proof.
  unfold product_masks.
  rewrite odd_count_xor_sum, xor_sum_flat_map.
  apply xor_sum_ext. intros L _.
  rewrite xor_sum_flat_map. apply xor_sum_ext. intros R _.
  by rewrite odd_count_xor_sum.
Qed.

Lemma mul_chain_add_distr_l S1 S2 S3 :
  mul_chain S1 (add_chain S2 S3)
  = add_chain (mul_chain S1 S2) (mul_chain S1 S3).
Proof.
  apply chain_eq. intros m.
  rewrite elem_of_add_chain, !elem_of_mul_chain, !odd_count_product_xor_sum.
  rewrite <- xor_sum_xorb. apply xor_sum_ext. intros L _.
  apply xor_sum_add_chain.
Qed.

Lemma mul_chain_add_distr_r S1 S2 S3 :
  mul_chain (add_chain S1 S2) S3
  = add_chain (mul_chain S1 S3) (mul_chain S2 S3).
Proof.
  by rewrite mul_chain_comm, mul_chain_add_distr_l,
    (mul_chain_comm S3 S1), (mul_chain_comm S3 S2).
Qed.

(** X4. The multiplication is commutative and distributes over the addition
    on both sides, for all polynomials; the results are equal as
    polynomials, cached leaf mask included. *)
Theorem op_mul_comm_distr (a b c : LogicalExpr) :
  op_mul a b = op_mul b a /\
  op_mul a (op_add b c) = op_add (op_mul a b) (op_mul a c) /\
  op_mul (op_add a b) c = op_add (op_mul a c) (op_mul b c).
Proof.
  unfold op_mul, op_add, mul_assign, add_assign. simpl. split; [| split].
  - by rewrite (mul_chain_comm (AddChain a)).
  - by rewrite mul_chain_add_distr_l.
  - by rewrite mul_chain_add_distr_r.
Qed.

Lemma land_ExprZero_testbit m :
  N.land m ExprZero = 0 <-> N.testbit m 62 = false.
Proof.
  rewrite ExprZero_pow2. split.
  - intros Hland. destruct (N.testbit m 62) eqn:Hb; [| done].
    assert (Hbit : N.testbit (N.land m (2 ^ 62)) 62 = true)
      by (by rewrite N.land_spec, Hb, N.pow2_bits_true).
    by rewrite Hland, N.bits_0 in Hbit.
  - intros Hb. apply N.bits_inj. intros i.
    rewrite N.land_spec, N.bits_0, N.pow2_bits_eqb.
    destruct (N.eqb_spec 62 i) as [<- | _]; [by rewrite Hb |].
    apply andb_false_r.
Qed.

Lemma testbit_lnot_ExprAllOne i :
  i < 63 -> N.testbit (N.lnot ExprAllOne 64) i = true.
Proof.
  intros Hi. rewrite N.lnot_spec_low by lia.
  rewrite ExprAllOne_pow2, N.pow2_bits_eqb.
  by destruct (N.eqb_spec 63 i); [lia |].
Qed.

(** Below the all-ones bit the combined mask is the union of the two. *)
Lemma mul_mask_testbit L R i :
  i < 63 -> N.testbit (mul_mask L R) i = N.testbit L i || N.testbit R i.
Proof.
  intros Hi. unfold mul_mask.
  destruct (negb (N.lor L R =? ExprAllOne)
            && negb (N.land (N.lor L R) ExprAllOne =? 0)).
  - by rewrite N.land_spec, N.lor_spec, testbit_lnot_ExprAllOne, andb_true_r.
  - apply N.lor_spec.
Qed.

Lemma mul_mask_no_zero_bit L R :
  N.land L ExprZero = 0 -> N.land R ExprZero = 0 ->
  N.land (mul_mask L R) ExprZero = 0.
Proof.
  rewrite !land_ExprZero_testbit. intros HL HR.
  by rewrite mul_mask_testbit, HL, HR by lia.
Qed.

Lemma product_masks_nil_r l : product_masks l [] = [].
Proof. induction l as [| L l IH]; [done |]. by rewrite product_masks_cons, IH. Qed.

Lemma product_masks_zero_l l1 l2 :
  (forall L, L ∈ l1 -> N.land L ExprZero <> 0) -> product_masks l1 l2 = [].
Proof.
  induction l1 as [| L l1 IH]; intros Hz; [done |].
  rewrite product_masks_cons, IH by (intros L' HL'; apply Hz; by right).
  rewrite pair_masks_zero_l; [done |].
  destruct (N.eqb_spec (N.land L ExprZero) 0) as [Heq | _]; [| done].
  by destruct (Hz L ltac:(by left)).
Qed.

Lemma mul_chain_zero_l S1 S2 :
  (forall L, L ∈ S1 -> N.land L ExprZero <> 0) -> mul_chain S1 S2 = ∅.
Proof.
  intros Hz. apply chain_eq. intros m.
  rewrite elem_of_mul_chain, product_masks_zero_l.
  - symmetry. apply bool_decide_eq_false_2, not_elem_of_empty.
  - intros L HL. apply Hz. by apply elem_of_elements.
Qed.

(** X5. Zero absorbs: a product is empty as soon as every and-chain of one
    side carries the zero bit, whatever the other side; this covers the
    empty polynomial and the zero sentinel alone. *)
Theorem op_mul_zero (a b : LogicalExpr) :
  (forall L, L ∈ AddChain a -> N.land L ExprZero <> 0) ->
  AddChain (op_mul a b) = ∅ /\ AddChain (op_mul b a) = ∅.
Proof.
  simpl. intros Hz. split; [by apply mul_chain_zero_l |].
  rewrite mul_chain_comm. by apply mul_chain_zero_l.
Qed.

(** X6. No and-chain of a product carries the zero bit, whatever the two
    factors hold: the zero sentinel never comes out of a multiplication. *)
Theorem op_mul_no_zero_bit (a b : LogicalExpr) (m : N) :
  m ∈ AddChain (op_mul a b) -> N.land m ExprZero = 0.
Proof.
  simpl. intros Hm.
  apply elem_of_mul_chain_inv in Hm as (L & R & _ & _ & HL & HR & ->).
  by apply mul_mask_no_zero_bit.
Qed.

(** *** Associativity of the multiplication

    A 64-bit mask is its 63 low bits and its all-ones bit; the combined mask
    of two and-chains has the union of the low bits, and keeps the all-ones
    bit only when no low bit is set. *)

Lemma lor_uint64 a b : a < 2 ^ 64 -> b < 2 ^ 64 -> N.lor a b < 2 ^ 64.
Proof.
  intros Ha Hb.
  destruct (N.eq_dec (N.lor a b) 0) as [-> | Hne]; [done |].
  apply N.log2_lt_pow2; [lia |]. rewrite N.log2_lor.
  destruct (N.eq_dec a 0) as [-> | Ha0]; destruct (N.eq_dec b 0) as [-> | Hb0];
    simpl in *; try lia.
  - apply N.max_lub_lt; [done |]. apply N.log2_lt_pow2; lia.
  - apply N.max_lub_lt; [| done]. apply N.log2_lt_pow2; lia.
  - apply N.max_lub_lt; apply N.log2_lt_pow2; lia.
Qed.

Lemma mul_mask_lt L R : L < 2 ^ 64 -> R < 2 ^ 64 -> mul_mask L R < 2 ^ 64.
Proof.
  intros HL HR. pose proof (lor_uint64 L R HL HR) as Hor.
  unfold mul_mask.
  destruct (negb (N.lor L R =? ExprAllOne)
            && negb (N.land (N.lor L R) ExprAllOne =? 0)); [| done].
  eapply N.le_lt_trans; [apply N.land_le_l | exact Hor].
Qed.

(** The all-ones bit of the combined mask. *)
Lemma mul_mask_testbit_63 L R :
  L < 2 ^ 64 -> R < 2 ^ 64 ->
  N.testbit (mul_mask L R) 63
  = (N.testbit L 63 || N.testbit R 63)
    && (N.land (N.lor L R) (N.lnot ExprAllOne 64) =? 0).
Proof.
  intros HL HR. pose proof (lor_uint64 L R HL HR) as Hor.
  assert (Hsplit : forall x, x < 2 ^ 64 ->
            N.land x (N.lnot ExprAllOne 64) = 0 ->
            x = if N.testbit x 63 then ExprAllOne else 0).
  { intros x Hx Hlow. apply N.bits_inj. intros i.
    destruct (N.eq_dec i 63) as [-> | Hne].
    - destruct (N.testbit x 63) eqn:Hb; [by rewrite ExprAllOne_pow2,
        N.pow2_bits_true | by rewrite N.bits_0].
    - transitivity false.
      + destruct (N.lt_ge_cases i 63) as [Hlt | Hge].
        * assert (Hbit : N.testbit (N.land x (N.lnot ExprAllOne 64)) i = false)
            by (by rewrite Hlow, N.bits_0).
          rewrite N.land_spec, testbit_lnot_ExprAllOne, andb_true_r in Hbit;
            done.
        * destruct (N.eq_dec x 0) as [-> | Hx0]; [apply N.bits_0 |].
          apply N.bits_above_log2.
          assert (N.log2 x < 64) by (apply N.log2_lt_pow2; lia). lia.
      + destruct (N.testbit x 63).
        * rewrite ExprAllOne_pow2, N.pow2_bits_eqb.
          by destruct (N.eqb_spec 63 i) as [<- | _].
        * by rewrite N.bits_0. }
  assert (Hbit63 : N.testbit (N.lnot ExprAllOne 64) 63 = false).
  { rewrite N.lnot_spec_low by lia.
    by rewrite ExprAllOne_pow2, N.pow2_bits_true. }
  assert (Hland63 : (N.land (N.lor L R) ExprAllOne =? 0)
                    = negb (N.testbit (N.lor L R) 63)).
  { destruct (N.testbit (N.lor L R) 63) eqn:Hb; simpl.
    - apply N.eqb_neq. intros Hz.
      assert (Hc : N.testbit (N.land (N.lor L R) ExprAllOne) 63 = true)
        by (by rewrite N.land_spec, Hb, ExprAllOne_pow2, N.pow2_bits_true).
      by rewrite Hz, N.bits_0 in Hc.
    - apply N.eqb_eq, N.bits_inj. intros i.
      rewrite N.land_spec, N.bits_0, ExprAllOne_pow2, N.pow2_bits_eqb.
      destruct (N.eqb_spec 63 i) as [<- | _]; [by rewrite Hb |].
      apply andb_false_r. }
  unfold mul_mask. rewrite Hland63, <- N.lor_spec.
  destruct (N.eqb_spec (N.land (N.lor L R) (N.lnot ExprAllOne 64)) 0)
    as [Hlow | Hlow].
  - rewrite andb_true_r. pose proof (Hsplit _ Hor Hlow) as Hx.
    destruct (N.testbit (N.lor L R) 63) eqn:Hb.
    + rewrite Hx. reflexivity.
    + simpl. rewrite andb_false_r. done.
  - rewrite andb_false_r.
    destruct (N.testbit (N.lor L R) 63) eqn:Hb.
    + destruct (N.eqb_spec (N.lor L R) ExprAllOne) as [Heq | _].
      * exfalso. apply Hlow. by rewrite Heq.
      * simpl. by rewrite N.land_spec, Hbit63, andb_false_r.
    + by rewrite andb_false_r.
Qed.

Lemma mul_mask_low L R :
  N.land (mul_mask L R) (N.lnot ExprAllOne 64)
  = N.lor (N.land L (N.lnot ExprAllOne 64)) (N.land R (N.lnot ExprAllOne 64)).
Proof.
  rewrite <- N.land_lor_distr_l. unfold mul_mask.
  destruct (negb (N.lor L R =? ExprAllOne)
            && negb (N.land (N.lor L R) ExprAllOne =? 0)); [| done].
  by rewrite <- N.land_assoc, N.land_diag.
Qed.

Lemma uint64_eq x y :
  x < 2 ^ 64 -> y < 2 ^ 64 ->
  N.land x (N.lnot ExprAllOne 64) = N.land y (N.lnot ExprAllOne 64) ->
  N.testbit x 63 = N.testbit y 63 -> x = y.
Proof.
  intros Hx Hy Hlow H63. apply N.bits_inj. intros i.
  destruct (N.eq_dec i 63) as [-> | Hne]; [done |].
  destruct (N.lt_ge_cases i 63) as [Hlt | Hge].
  - assert (Hb : N.testbit (N.land x (N.lnot ExprAllOne 64)) i
                 = N.testbit (N.land y (N.lnot ExprAllOne 64)) i)
      by (by rewrite Hlow).
    by rewrite !N.land_spec, testbit_lnot_ExprAllOne, !andb_true_r in Hb.
  - assert (Hhigh : forall z, z < 2 ^ 64 -> N.testbit z i = false).
    { intros z Hz. destruct (N.eq_dec z 0) as [-> | Hz0]; [apply N.bits_0 |].
      apply N.bits_above_log2.
      assert (N.log2 z < 64) by (apply N.log2_lt_pow2; lia). lia. }
    by rewrite !Hhigh.
Qed.

Lemma mul_mask_assoc L Q R :
  L < 2 ^ 64 -> Q < 2 ^ 64 -> R < 2 ^ 64 ->
  mul_mask (mul_mask L Q) R = mul_mask L (mul_mask Q R).
Proof.
  intros HL HQ HR.
  pose proof (mul_mask_lt L Q HL HQ) as HLQ.
  pose proof (mul_mask_lt Q R HQ HR) as HQR.
  apply uint64_eq; try (by apply mul_mask_lt).
  - by rewrite !mul_mask_low, N.lor_assoc.
  - rewrite !mul_mask_testbit_63 by done.
    rewrite !N.land_lor_distr_l, !mul_mask_low.
    set (l := N.land L (N.lnot ExprAllOne 64)).
    set (q := N.land Q (N.lnot ExprAllOne 64)).
    set (r := N.land R (N.lnot ExprAllOne 64)).
    rewrite <- (N.lor_assoc l q r).
    destruct (N.eqb_spec (N.lor l (N.lor q r)) 0) as [Hz | _];
      [| by rewrite !andb_false_r].
    apply N.lor_eq_0_iff in Hz as [-> Hz].
    apply N.lor_eq_0_iff in Hz as [-> ->]. simpl.
    by destruct (N.testbit L 63), (N.testbit Q 63), (N.testbit R 63).
Qed.

Lemma pair_masks_assoc L Q R :
  L < 2 ^ 64 -> Q < 2 ^ 64 -> R < 2 ^ 64 ->
  flat_map (fun X => pair_masks X R) (pair_masks L Q)
  = flat_map (pair_masks L) (pair_masks Q R).
Proof.
  intros HL HQ HR.
  destruct (N.eq_dec (N.land L ExprZero) 0) as [HzL | HzL];
    destruct (N.eq_dec (N.land Q ExprZero) 0) as [HzQ | HzQ];
    destruct (N.eq_dec (N.land R ExprZero) 0) as [HzR | HzR];
    unfold pair_masks;
    repeat match goal with
           | H : ?x = 0 |- context [?x =? 0] =>
               rewrite (proj2 (N.eqb_eq x 0) H)
           | H : ?x <> 0 |- context [?x =? 0] =>
               rewrite (proj2 (N.eqb_neq x 0) H)
           end; simpl; try done.
  - rewrite ?(proj2 (N.eqb_eq _ 0) (mul_mask_no_zero_bit L Q HzL HzQ)).
    rewrite ?(proj2 (N.eqb_eq _ 0) (mul_mask_no_zero_bit Q R HzQ HzR)).
    simpl. by rewrite mul_mask_assoc.
  - by rewrite orb_true_r.
Qed.

Lemma odd_count_flat_map m (g : N -> list N) l :
  odd_count m (flat_map g l) = xor_sum (fun x => odd_count m (g x)) l.
Proof.
  induction l as [| x l IH]; simpl; [done |].
  by rewrite odd_count_app, IH.
Qed.

Lemma mul_chain_assoc S1 S2 S3 :
  uint64_chain S1 -> uint64_chain S2 -> uint64_chain S3 ->
  mul_chain (mul_chain S1 S2) S3 = mul_chain S1 (mul_chain S2 S3).
Proof.
  intros H1 H2 H3. apply chain_eq. intros m.
  rewrite !elem_of_mul_chain, !odd_count_product_xor_sum.
  rewrite xor_sum_mul_chain. unfold product_masks at 1.
  rewrite xor_sum_flat_map.
  apply xor_sum_ext. intros L HL%elem_of_elements%H1.
  rewrite xor_sum_mul_chain. unfold product_masks.
  rewrite !xor_sum_flat_map.
  apply xor_sum_ext. intros Q HQ%elem_of_elements%H2.
  rewrite xor_sum_flat_map, xor_sum_swap.
  apply xor_sum_ext. intros R HR%elem_of_elements%H3.
  rewrite <- !odd_count_flat_map.
  by rewrite pair_masks_assoc.
Qed.

(** X7. The multiplication is associative on sets of 64-bit masks; the
    results are equal as polynomials, cached leaf mask included. *)
Theorem op_mul_assoc (a b c : LogicalExpr) :
  uint64_chain (AddChain a) -> uint64_chain (AddChain b) ->
  uint64_chain (AddChain c) ->
  op_mul (op_mul a b) c = op_mul a (op_mul b c).
Proof.
  intros Ha Hb Hc. unfold op_mul, mul_assign. simpl.
  by rewrite mul_chain_assoc.
Qed.

(** *** Canonical polynomials *)

Lemma canonical_maskb_spec m : canonical_maskb m = true <-> canonical_mask m.
Proof.
  unfold canonical_maskb, canonical_mask.
  by rewrite orb_true_iff, andb_true_iff, negb_true_iff,
    N.eqb_eq, N.eqb_neq, N.ltb_lt.
Qed.

Lemma canonical_chain_elements S :
  forallb canonical_maskb (elements S) = true -> canonical_chain S.
Proof.
  intros Hall m Hm. rewrite forallb_forall in Hall.
  by apply canonical_maskb_spec, Hall, list_elem_of_In, elem_of_elements.
Qed.

Lemma canonical_wf S : canonical_chain S -> wf_chain S /\ ExprZero ∉ S.
Proof.
  intros Hc. split.
  - intros m Hm. destruct (Hc m Hm) as [-> | [_ Hlt]];
      [by right; left | by right; right].
  - intros Hz. destruct (Hc _ Hz) as [Heq | [_ Hlt]]; [done |].
    rewrite ExprZero_pow2 in Hlt. lia.
Qed.

Lemma canonical_no_zero_bit m : canonical_mask m -> N.land m ExprZero = 0.
Proof. intros [-> | [_ Hlt]]; [done | by apply land_leaf_mask_ExprZero]. Qed.

Lemma canonical_mul_mask L R :
  canonical_mask L -> canonical_mask R -> canonical_mask (mul_mask L R).
Proof.
  intros [-> | [HL0 HL]] [-> | [HR0 HR]].
  - by left.
  - rewrite mul_mask_AllOne_leaf by done. by right.
  - rewrite mul_mask_comm, mul_mask_AllOne_leaf by done. by right.
  - rewrite mul_mask_leaf by done. right. split.
    + intros Hz. apply N.lor_eq_0_iff in Hz as [? _]. done.
    + by apply lor_leaf_mask.
Qed.

Lemma canonical_mul_chain S1 S2 :
  canonical_chain S1 -> canonical_chain S2 -> canonical_chain (mul_chain S1 S2).
Proof.
  intros H1 H2 m Hm.
  apply elem_of_mul_chain_inv in Hm as (L & R & HL & HR & _ & _ & ->).
  apply canonical_mul_mask; auto.
Qed.

Lemma canonical_add_chain S1 S2 :
  canonical_chain S1 -> canonical_chain S2 -> canonical_chain (add_chain S1 S2).
Proof.
  intros H1 H2 m Hm. apply elem_of_add_chain_inv in Hm as [Hm | Hm]; auto.
Qed.

Lemma canonical_AllOne : canonical_chain {[ ExprAllOne ]}.
Proof. intros m ->%elem_of_singleton. by left. Qed.

(** X8. The four operators keep canonical polynomials canonical: when no
    and-chain of [a] and [b] is empty or carries the zero bit, and the
    all-ones bit appears only alone, the same holds of [a & b], [a ^ b],
    [a | b] and [~a]. *)
Theorem canonical_closed (a b : LogicalExpr) :
  canonical_chain (AddChain a) -> canonical_chain (AddChain b) ->
  canonical_chain (AddChain (op_and a b)) /\
  canonical_chain (AddChain (op_xor a b)) /\
  canonical_chain (AddChain (op_or a b)) /\
  canonical_chain (AddChain (op_not a)).
Proof.
  intros Ha Hb. simpl. repeat split.
  - by apply canonical_mul_chain.
  - by apply canonical_add_chain.
  - repeat apply canonical_add_chain; try done. by apply canonical_mul_chain.
  - apply canonical_add_chain; [done | apply canonical_AllOne].
Qed.

Lemma pair_masks_AllOne l :
  (forall R, R ∈ l -> canonical_mask R) ->
  flat_map (pair_masks ExprAllOne) l = l.
Proof.
  induction l as [| R l IH]; intros Hc; simpl; [done |].
  rewrite IH by (intros R' HR'; apply Hc; by right). f_equal.
  unfold pair_masks.
  rewrite (canonical_no_zero_bit R) by (apply Hc; by left). simpl.
  destruct (Hc R ltac:(by left)) as [-> | [HR0 HR]]; [done |].
  by rewrite mul_mask_AllOne_leaf.
Qed.

Lemma mul_chain_AllOne_l S :
  canonical_chain S -> mul_chain {[ ExprAllOne ]} S = S.
Proof.
  intros Hc. apply chain_eq. intros m.
  rewrite elem_of_mul_chain, elements_singleton.
  unfold product_masks. simpl. rewrite app_nil_r.
  rewrite pair_masks_AllOne by (intros R HR; by apply Hc, elem_of_elements).
  rewrite odd_count_NoDup by apply NoDup_elements.
  apply bool_decide_ext, elem_of_elements.
Qed.

(** X9. The all-ones sentinel alone is the unit of the multiplication on
    canonical polynomials: [1 * a] and [a * 1] have the and-chains of [a]. *)
Theorem op_mul_one (a : LogicalExpr) :
  canonical_chain (AddChain a) ->
  AddChain (op_mul (LogicalExpr_of_mask ExprAllOne) a) = AddChain a /\
  AddChain (op_mul a (LogicalExpr_of_mask ExprAllOne)) = AddChain a.
Proof.
  intros Ha. simpl. split; [by apply mul_chain_AllOne_l |].
  rewrite mul_chain_comm. by apply mul_chain_AllOne_l.
Qed.

(** X10. Complement laws on canonical polynomials: [a & ~a] is the empty
    polynomial (zero) and [a | ~a] is the all-ones sentinel alone. *)
Theorem op_not_complement (a : LogicalExpr) :
  canonical_chain (AddChain a) ->
  AddChain (op_and a (op_not a)) = ∅ /\
  AddChain (op_or a (op_not a)) = {[ ExprAllOne ]}.
Proof.
  intros Ha. destruct (canonical_wf _ Ha) as [Hwf Hz].
  assert (Hand : mul_chain (AddChain a) (add_chain (AddChain a) {[ ExprAllOne ]})
                 = ∅).
  { rewrite mul_chain_add_distr_l, mul_chain_square by done.
    rewrite (mul_chain_comm _ {[ ExprAllOne ]}), mul_chain_AllOne_l by done.
    replace (AddChain a ∖ {[ ExprZero ]}) with (AddChain a) by set_solver.
    apply add_chain_self. }
  simpl. split; [done |].
  rewrite Hand, add_chain_empty_l.
  by rewrite <- add_chain_assoc, add_chain_self, add_chain_empty_l.
Qed.

(** *** The value of sums and products *)

Lemma forallb_ext_in {A} (f g : A -> bool) (xs : list A) :
  (forall y, In y xs -> f y = g y) -> forallb f xs = forallb g xs.
Proof.
  induction xs as [| y xs IH]; intros Hext; simpl; [done |].
  rewrite Hext by (by left). rewrite IH; [done |].
  intros z Hz. apply Hext. by right.
Qed.

Lemma forallb_andb {A} (f g : A -> bool) (xs : list A) :
  forallb (fun y => f y && g y) xs = forallb f xs && forallb g xs.
Proof.
  induction xs as [| y xs IH]; simpl; [done |].
  rewrite IH. by destruct (f y), (g y), (forallb f xs), (forallb g xs).
Qed.

Lemma eval_mask_zero_bit env m :
  N.land m ExprZero <> 0 -> eval_mask env m = false.
Proof.
  intros Hz. unfold eval_mask.
  destruct (N.testbit m 62) eqn:Hb; [done |].
  by apply land_ExprZero_testbit in Hb.
Qed.

Lemma eval_mask_mul_mask env L R :
  eval_mask env (mul_mask L R) = eval_mask env L && eval_mask env R.
Proof.
  unfold eval_mask. rewrite mul_mask_testbit by lia.
  rewrite (forallb_ext_in _
             (fun i => implb (N.testbit L (N.of_nat i)) (env i)
                       && implb (N.testbit R (N.of_nat i)) (env i))).
  - rewrite forallb_andb.
    by destruct (N.testbit L 62), (N.testbit R 62),
         (forallb (fun i => implb (N.testbit L (N.of_nat i)) (env i)) (seq 0 62)),
         (forallb (fun i => implb (N.testbit R (N.of_nat i)) (env i)) (seq 0 62)).
  - intros i Hi%in_seq. rewrite mul_mask_testbit by lia.
    by destruct (N.testbit L (N.of_nat i)), (N.testbit R (N.of_nat i)), (env i).
Qed.

Lemma eval_mask_pair_masks env L R :
  xor_sum (eval_mask env) (pair_masks L R) = eval_mask env L && eval_mask env R.
Proof.
  unfold pair_masks.
  destruct (N.eqb_spec (N.land L ExprZero) 0) as [HL | HL]; simpl.
  - destruct (N.eqb_spec (N.land R ExprZero) 0) as [HR | HR]; simpl.
    + by rewrite xorb_false_r, eval_mask_mul_mask.
    + by rewrite (eval_mask_zero_bit env R), andb_false_r.
  - by rewrite (eval_mask_zero_bit env L).
Qed.

Lemma eval_product_masks env l1 l2 :
  xor_sum (eval_mask env) (product_masks l1 l2)
  = xor_sum (eval_mask env) l1 && xor_sum (eval_mask env) l2.
Proof.
  unfold product_masks. rewrite xor_sum_flat_map.
  rewrite <- xor_sum_andb_r. apply xor_sum_ext. intros L _.
  rewrite xor_sum_flat_map.
  rewrite (xor_sum_ext _ (fun R => eval_mask env R && eval_mask env L)).
  - rewrite xor_sum_andb_r. apply andb_comm.
  - intros R _. rewrite eval_mask_pair_masks. apply andb_comm.
Qed.

Lemma eval_chain_add env S1 S2 :
  eval_chain env (add_chain S1 S2)
  = xorb (eval_chain env S1) (eval_chain env S2).
Proof. apply xor_sum_add_chain. Qed.

Lemma eval_chain_mul env S1 S2 :
  eval_chain env (mul_chain S1 S2) = eval_chain env S1 && eval_chain env S2.
Proof.
  unfold eval_chain. rewrite xor_sum_mul_chain. apply eval_product_masks.
Qed.

Lemma eval_mask_AllOne env : eval_mask env ExprAllOne = true.
Proof.
  unfold eval_mask.
  replace (N.testbit ExprAllOne 62) with false by reflexivity. simpl negb.
  rewrite andb_true_l. apply forallb_forall. intros i Hi%in_seq.
  rewrite ExprAllOne_pow2, N.pow2_bits_eqb.
  destruct (N.eqb_spec 63 (N.of_nat i)); [lia | done].
Qed.

Lemma eval_mask_leaf_bit env (k : nat) :
  (k < 62)%nat -> eval_mask env (N.shiftl 1 (N.of_nat k)) = env k.
Proof.
  intros Hk. unfold eval_mask. rewrite N.shiftl_1_l, N.pow2_bits_eqb.
  destruct (N.eqb_spec (N.of_nat k) 62) as [| _]; [lia |].
  cbn [negb]. rewrite andb_true_l.
  destruct (env k) eqn:Hek.
  - apply forallb_forall. intros i _. rewrite N.pow2_bits_eqb.
    destruct (N.eqb_spec (N.of_nat k) (N.of_nat i)) as [Heq | _]; [| done].
    apply Nat2N.inj in Heq as <-. by rewrite Hek.
  - apply not_true_iff_false. intros Hall. rewrite forallb_forall in Hall.
    specialize (Hall k ltac:(apply in_seq; lia)).
    by rewrite N.pow2_bits_true, Hek in Hall.
Qed.

Lemma eval_chain_singleton env m : eval_chain env {[ m ]} = eval_mask env m.
Proof.
  unfold eval_chain. rewrite elements_singleton. cbn [xor_sum].
  apply xorb_false_r.
Qed.

Lemma eval_expr_of_mask_zero env :
  eval_expr env (LogicalExpr_of_mask ExprZero) = false.
Proof.
  unfold eval_expr, LogicalExpr_of_mask. cbn [AddChain].
  rewrite eval_chain_singleton. by apply eval_mask_zero_bit.
Qed.

Lemma eval_expr_of_mask_all_one env :
  eval_expr env (LogicalExpr_of_mask ExprAllOne) = true.
Proof.
  unfold eval_expr, LogicalExpr_of_mask. cbn [AddChain].
  rewrite eval_chain_singleton. apply eval_mask_AllOne.
Qed.

Lemma eval_expr_op_xor env a b :
  eval_expr env (op_xor a b) = xorb (eval_expr env a) (eval_expr env b).
Proof. apply eval_chain_add. Qed.

Lemma eval_expr_op_and env a b :
  eval_expr env (op_and a b) = eval_expr env a && eval_expr env b.
Proof. apply eval_chain_mul. Qed.

Lemma eval_expr_op_or env a b :
  eval_expr env (op_or a b) = eval_expr env a || eval_expr env b.
Proof.
  unfold eval_expr, op_or, op_add, op_mul, add_assign, mul_assign.
  cbn [AddChain]. rewrite !eval_chain_add, eval_chain_mul.
  by destruct (eval_chain env (AddChain a)), (eval_chain env (AddChain b)).
Qed.

(** X11. The value of a polynomial under any assignment of truth values to
    the leaves follows the operators: [a ^ b] is the exclusive or, [a & b]
    the conjunction, [a | b] the disjunction and [~a] the negation of the
    values of the operands; the empty polynomial and the zero sentinel are
    false, the all-ones sentinel is true and the polynomial [{1 << k}] is
    the leaf [k]. This holds for all polynomials, canonical or not. *)
Theorem eval_expr_operators (env : nat -> bool) (a b : LogicalExpr) :
  eval_expr env (op_xor a b) = xorb (eval_expr env a) (eval_expr env b) /\
  eval_expr env (op_and a b) = eval_expr env a && eval_expr env b /\
  eval_expr env (op_or a b) = eval_expr env a || eval_expr env b /\
  eval_expr env (op_not a) = negb (eval_expr env a) /\
  eval_expr env (LogicalExpr_of_chain ∅) = false /\
  eval_expr env (LogicalExpr_of_mask ExprZero) = false /\
  eval_expr env (LogicalExpr_of_mask ExprAllOne) = true /\
  (forall k : nat, (k < 62)%nat ->
     eval_expr env (LogicalExpr_of_mask (N.shiftl 1 (N.of_nat k))) = env k).
Proof.
  unfold eval_expr, op_xor, op_and, op_or, op_not, op_add, op_mul,
    add_assign, mul_assign, LogicalExpr_of_mask, LogicalExpr_of_chain.
  cbn [AddChain].
  assert (Hsingle : forall m, eval_chain env {[ m ]} = eval_mask env m).
  { intros m. unfold eval_chain. rewrite elements_singleton.
    cbn [xor_sum]. apply xorb_false_r. }
  repeat apply conj.
  - apply eval_chain_add.
  - apply eval_chain_mul.
  - rewrite !eval_chain_add, eval_chain_mul.
    by destruct (eval_chain env (AddChain a)), (eval_chain env (AddChain b)).
  - rewrite eval_chain_add, Hsingle, eval_mask_AllOne.
    by destruct (eval_chain env (AddChain a)).
  - reflexivity.
  - rewrite Hsingle. by apply eval_mask_zero_bit.
  - rewrite Hsingle. apply eval_mask_AllOne.
  - intros k Hk. rewrite Hsingle. by apply eval_mask_leaf_bit.
Qed.

(** *** The order of the iterations and the previous revision *)

Lemma foldl_lor_testbit l i : forall acc,
  N.testbit (foldl (fun LeafMask Mask => N.lor LeafMask Mask) acc l) i
  = N.testbit acc i || existsb (fun m => N.testbit m i) l.
Proof.
  induction l as [| x l IH]; intros acc; simpl.
  - by rewrite orb_false_r.
  - by rewrite IH, N.lor_spec, orb_assoc.
Qed.

Lemma existsb_perm (f : N -> bool) l1 l2 :
  l1 ≡ₚ l2 -> existsb f l1 = existsb f l2.
Proof.
  induction 1 as [| y xs1 xs2 _ IH | y z xs | xs1 xs2 xs3 _ IH1 _ IH2]; simpl.
  - done.
  - by rewrite IH.
  - by destruct (f y), (f z).
  - by rewrite IH1.
Qed.

(** X12. The three loops over an and-chain set do not depend on the order
    in which the set is iterated: toggling the masks of the right-hand side
    ([+=]), the two nested loops of [*=] and the union of [updateLeafMask]
    give the same result for every enumeration of the sets. *)
Theorem loops_any_iteration_order S1 S2 l1 l2 :
  l1 ≡ₚ elements S1 -> l2 ≡ₚ elements S2 ->
  foldl (fun Chain RHSMask => insert_or_erase RHSMask Chain) S1 l2
  = add_chain S1 S2 /\
  foldl (fun NewChain LHSMask =>
           if negb (N.land LHSMask ExprZero =? 0) then NewChain
           else
             foldl (fun NewChain RHSMask =>
                      if negb (N.land RHSMask ExprZero =? 0) then NewChain
                      else insert_or_erase (mul_mask LHSMask RHSMask) NewChain)
                   NewChain l2) ∅ l1
  = mul_chain S1 S2 /\
  foldl (fun LeafMask Mask => N.lor LeafMask Mask) 0 l1 = updateLeafMask S1.
Proof.
  intros H1 H2. repeat apply conj.
  - by apply add_chain_any_order.
  - by apply mul_chain_any_order.
  - unfold updateLeafMask. apply N.bits_inj. intros i.
    by rewrite !foldl_lor_testbit, (existsb_perm _ _ _ H1).
Qed.

Lemma foldl_ext_in {A B} (f g : A -> B -> A) (xs : list B) : forall acc,
  (forall a y, y ∈ xs -> f a y = g a y) ->
  foldl f acc xs = foldl g acc xs.
Proof.
  induction xs as [| y xs IH]; intros acc Hfg; simpl; [done |].
  rewrite Hfg by apply list_elem_of_here.
  apply IH. intros a z Hz. apply Hfg. by apply list_elem_of_further.
Qed.

Lemma mul_chain_previous S1 S2 :
  zero_free S1 -> zero_free S2 -> Previous.mul_chain S1 S2 = mul_chain S1 S2.
Proof.
  intros H1 H2. unfold Previous.mul_chain, mul_chain.
  apply foldl_ext_in. intros NewChain L HL%elem_of_elements.
  destruct (H1 L HL) as [HL0 HLz].
  rewrite HLz. destruct (N.eqb_spec L 0) as [| _]; [done |]. simpl.
  apply foldl_ext_in. intros NewChain' R HR%elem_of_elements.
  destruct (H2 R HR) as [HR0 HRz].
  rewrite HRz. by destruct (N.eqb_spec R 0) as [| _].
Qed.

(** X13. On polynomials whose and-chains are neither 0 nor carry the zero
    bit, the two revisions of the header agree: the product and the
    disjunction computed by the previous revision (which skips the
    and-chains equal to 0) are those of the revision with the zero
    sentinel. *)
Theorem previous_revision_agrees (a b : LogicalExpr) :
  zero_free (AddChain a) -> zero_free (AddChain b) ->
  Previous.op_mul a b = op_mul a b /\ Previous.op_and a b = op_and a b /\
  Previous.op_or a b = op_or a b.
Proof.
  intros Ha Hb.
  assert (Hmul : Previous.op_mul a b = op_mul a b).
  { unfold Previous.op_mul, op_mul, Previous.mul_assign, mul_assign.
    cbv zeta. by rewrite mul_chain_previous. }
  repeat apply conj; [done | done |].
  unfold Previous.op_or, op_or. by rewrite Hmul.
Qed.

(** *** The cached leaf mask *)

Lemma updateLeafMask_testbit S i :
  N.testbit (updateLeafMask S) i = true <->
  exists m, m ∈ S /\ N.testbit m i = true.
Proof.
  unfold updateLeafMask.
  assert (Hfold : forall l acc,
            N.testbit (foldl (fun LeafMask Mask => N.lor LeafMask Mask) acc l) i
            = N.testbit acc i || existsb (fun m => N.testbit m i) l).
  { induction l as [| x l IH]; intros acc; simpl.
    - by rewrite orb_false_r.
    - by rewrite IH, N.lor_spec, orb_assoc. }
  rewrite Hfold, N.bits_0. simpl. rewrite existsb_exists.
  split; intros (m & Hm & Hb); exists m; (split; [| done]).
  - by apply elem_of_elements, list_elem_of_In.
  - by apply list_elem_of_In, elem_of_elements.
Qed.

(** X14. Every way of making a polynomial leaves the cached leaf mask equal
    to the union of the bits of the and-chains: the two constructors with
    an argument, [+=] and [*=] and the operators made of them. *)
Theorem leaf_mask_is_union (a b : LogicalExpr) (Mask : N) (Chain : ExprAddChain) :
  leaf_mask_ok (LogicalExpr_of_mask Mask) /\
  leaf_mask_ok (LogicalExpr_of_chain Chain) /\
  leaf_mask_ok (op_add a b) /\ leaf_mask_ok (op_mul a b) /\
  leaf_mask_ok (op_or a b) /\ leaf_mask_ok (op_not a).
Proof.
  repeat apply conj; intros i; try apply updateLeafMask_testbit.
  simpl. split.
  - intros Hb. exists Mask. split; [by apply elem_of_singleton | done].
  - by intros (m & ->%elem_of_singleton & Hb).
Qed.

(** *** Canonical polynomials are a normal form *)

Lemma list_min_exists l :
  l <> [] -> exists m, m ∈ l /\ forall y, y ∈ l -> m <= y.
Proof.
  induction l as [| x l IH]; [done |]. intros _.
  destruct l as [| x' l].
  - exists x. split; [by left |]. intros y ->%list_elem_of_singleton. lia.
  - destruct IH as (m & Hm & Hmin); [done |].
    destruct (N.le_ge_cases x m) as [Hle | Hge].
    + exists x. split; [by left |].
      intros y [-> | Hy]%elem_of_cons; [lia |].
      specialize (Hmin y Hy). lia.
    + exists m. split; [by right |].
      intros y [-> | Hy]%elem_of_cons; [lia | by apply Hmin].
Qed.

Lemma eval_mask_true env m :
  eval_mask env m = true <->
  N.testbit m 62 = false /\
  forall i : nat, (i < 62)%nat -> N.testbit m (N.of_nat i) = true -> env i = true.
Proof.
  unfold eval_mask. rewrite andb_true_iff, negb_true_iff, forallb_forall.
  split; intros [Hz Hall]; (split; [done |]).
  - intros i Hi Hb. specialize (Hall i). rewrite Hb in Hall.
    apply Hall, in_seq. lia.
  - intros i Hi%in_seq. destruct (N.testbit m (N.of_nat i)) eqn:Hb; [| done].
    simpl. apply Hall; [lia | done].
Qed.

Lemma eval_mask_no_leaf m :
  m <> 0 -> m < 2 ^ 62 -> eval_mask (fun _ => false) m = false.
Proof.
  intros Hne Hlt. destruct (eval_mask (fun _ => false) m) eqn:He; [| done].
  apply eval_mask_true in He as [_ Hall].
  assert (Hlog : N.log2 m < 62) by (apply N.log2_lt_pow2; lia).
  specialize (Hall (N.to_nat (N.log2 m)) ltac:(lia)).
  rewrite N2Nat.id in Hall. symmetry. apply Hall, N.bit_log2. done.
Qed.

Lemma eval_mask_own_bits m :
  m < 2 ^ 62 -> eval_mask (fun i => N.testbit m (N.of_nat i)) m = true.
Proof.
  intros Hlt. apply eval_mask_true. split; [| done].
  by apply testbit_leaf_mask.
Qed.

Lemma eval_mask_submask m y :
  y < 2 ^ 62 ->
  eval_mask (fun i => N.testbit m (N.of_nat i)) y = true -> y <= m.
Proof.
  intros Hlt [_ Hall]%eval_mask_true.
  replace y with (N.land y m); [apply N.land_le_r |].
  apply N.bits_inj. intros i. rewrite N.land_spec.
  destruct (N.testbit y i) eqn:Hb; [| done]. simpl.
  destruct (N.lt_ge_cases i 62) as [Hi | Hi].
  - specialize (Hall (N.to_nat i) ltac:(lia)).
    rewrite N2Nat.id in Hall. by apply Hall.
  - by rewrite (testbit_leaf_mask y i) in Hb.
Qed.

Lemma xor_sum_single w m l :
  NoDup l -> m ∈ l -> (forall y, y ∈ l -> w y = bool_decide (y = m)) ->
  xor_sum w l = true.
Proof.
  intros Hnd Hm Hw. rewrite (xor_sum_ext w (fun y => bool_decide (y = m))) by done.
  rewrite <- odd_count_xor_sum, odd_count_NoDup by done.
  by apply bool_decide_eq_true_2.
Qed.

(** A canonical polynomial that is not empty is not the constant false. *)
Lemma canonical_not_false S :
  canonical_chain S -> S <> ∅ -> exists env, eval_chain env S = true.
Proof.
  intros Hc Hne. destruct (decide (ExprAllOne ∈ S)) as [Hone | Hone].
  - exists (fun _ => false). unfold eval_chain.
    apply (xor_sum_single _ ExprAllOne);
      [apply NoDup_elements | by apply elem_of_elements |].
    intros y Hy%elem_of_elements.
    destruct (Hc y Hy) as [-> | [Hy0 Hylt]].
    + rewrite eval_mask_AllOne. symmetry. by apply bool_decide_eq_true_2.
    + rewrite eval_mask_no_leaf by done. symmetry.
      apply bool_decide_eq_false_2. intros ->.
      rewrite ExprAllOne_pow2 in Hylt.
      apply N.pow_lt_mono_r_iff in Hylt; lia.
  - assert (Hlow : forall y, y ∈ S -> y < 2 ^ 62).
    { intros y Hy. destruct (Hc y Hy) as [-> | [_ Hlt]]; done. }
    destruct (list_min_exists (elements S)) as (m & Hm & Hmin).
    { intros Hnil. apply Hne, leibniz_equiv, elements_empty_inv.
      by rewrite Hnil. }
    exists (fun i => N.testbit m (N.of_nat i)). unfold eval_chain.
    apply (xor_sum_single _ m); [apply NoDup_elements | done |].
    intros y Hy. pose proof (Hmin y Hy) as Hle.
    apply elem_of_elements in Hy, Hm.
    destruct (decide (y = m)) as [-> | Hym].
    + rewrite eval_mask_own_bits by auto. symmetry.
      by apply bool_decide_eq_true_2.
    + rewrite (bool_decide_eq_false_2 _ Hym).
      destruct (eval_mask _ y) eqn:He; [| done].
      apply eval_mask_submask in He; [lia | auto].
Qed.

Lemma canonical_chain_unique S1 S2 :
  canonical_chain S1 -> canonical_chain S2 ->
  (forall env, eval_chain env S1 = eval_chain env S2) -> S1 = S2.
Proof.
  intros H1 H2 Heq.
  destruct (decide (add_chain S1 S2 = ∅)) as [Hempty | Hne].
  - apply chain_eq. intros m.
    pose proof (elem_of_add_chain S1 S2 m) as Hm. rewrite Hempty in Hm.
    rewrite (bool_decide_eq_false_2 (m ∈ (∅ : ExprAddChain))) in Hm
      by apply not_elem_of_empty.
    by destruct (bool_decide (m ∈ S1)), (bool_decide (m ∈ S2)).
  - destruct (canonical_not_false (add_chain S1 S2)) as [env Henv];
      [by apply canonical_add_chain | done |].
    rewrite eval_chain_add, Heq, xorb_nilpotent in Henv. done.
Qed.

(** X15. Canonical polynomials are a normal form: two canonical polynomials
    that have the same value under every assignment of truth values to
    the leaves hold the same and-chains. *)
Theorem canonical_normal_form (a b : LogicalExpr) :
  canonical_chain (AddChain a) -> canonical_chain (AddChain b) ->
  (forall env, eval_expr env a = eval_expr env b) ->
  AddChain a = AddChain b.
Proof. apply canonical_chain_unique. Qed.

End Algebra.

(** ** Properties of the builder, the reconstruction and the driver *)

Section HelperProofs.

Context {Value : Type} `{Countable Value}.
Variable kind : Value -> ValueKind Value.
Variable MaxLeafs : N.
Variable MaxDepth : N.

Implicit Types (h : LogicalOpsHelper Value) (Val Leaf : Value)
               (Node : LogicalOpNode Value).

Lemma extends_refl h : extends h h.
Proof. repeat split; done. Qed.

Lemma extends_trans h1 h2 h3 : extends h1 h2 -> extends h2 h3 -> extends h1 h3.
Proof.
  intros (Hc1 & Hl1 & Hs1) (Hc2 & Hl2 & Hs2). repeat split.
  - intros Val Node Hn. by apply Hc2, Hc1.
  - by etrans.
  - by etrans.
Qed.

Lemma store_node_extends Node h h' :
  LogicalOpNodes h !! getValue Node = None ->
  extends h h' -> extends h (store_node Node h').
Proof.
  intros Hnone (Hc & Hl & Hs). repeat split; simpl; [| done | done].
  intros Val Node' Hn.
  rewrite lookup_insert_ne; [by apply Hc |].
  intros Heq. rewrite Heq in Hnone. congruence.
Qed.

Lemma visitLeafNode_extends Val Depth h :
  LogicalOpNodes h !! Val = None ->
  extends h (visitLeafNode kind MaxLeafs Val Depth h).2.
Proof.
  intros Hnone. unfold visitLeafNode.
  destruct ((Depth =? 0) || (MaxLeafs <? N.of_nat (size (LeafSet h))));
    [apply extends_refl |].
  simpl. apply store_node_extends; [done |].
  match goal with |- context [if ?c then _ else h] => destruct c end;
    [| apply extends_refl].
  repeat split; simpl; [done | | set_solver].
  destruct (decide (Val ∈ LeafSet h)); [done | by apply prefix_app_r].
Qed.

Lemma getLogicalOpNode_rec_extends fuel : forall Val Depth h,
  extends h (getLogicalOpNode_rec kind MaxLeafs MaxDepth fuel Val Depth h).2.
Proof.
  induction fuel as [| fuel IH]; intros Val Depth h; simpl;
    [apply extends_refl |].
  destruct (Depth =? MaxDepth); [apply extends_refl |].
  destruct (LogicalOpNodes h !! Val) as [Node |] eqn:Hcache;
    [apply extends_refl |].
  assert (Hleaf : extends h (visitLeafNode kind MaxLeafs Val Depth h).2)
    by (by apply visitLeafNode_extends).
  destruct (kind Val) as [Opcode Op0 Op1 | isZero isAllOnes |].
  - unfold visitBinOp.
    destruct (negb (is_logic_op Opcode)).
    + destruct (visitLeafNode kind MaxLeafs Val Depth h) as [[?|] h1]; done.
    + pose proof (IH Op0 (Depth + 1) h) as H1.
      destruct (getLogicalOpNode_rec kind MaxLeafs MaxDepth fuel Op0 (Depth + 1) h)
        as [[LHS |] h1]; [| done].
      pose proof (IH Op1 (Depth + 1) h1) as H2.
      destruct (getLogicalOpNode_rec kind MaxLeafs MaxDepth fuel Op1 (Depth + 1) h1)
        as [[RHS |] h2]; simpl in *; [| by eapply extends_trans].
      apply store_node_extends; [by destruct Opcode |].
      by eapply extends_trans.
  - destruct (visitLeafNode kind MaxLeafs Val Depth h) as [[?|] h1]; done.
  - destruct (visitLeafNode kind MaxLeafs Val Depth h) as [[?|] h1]; done.
Qed.

(** *** Masks of the cached polynomials *)

Lemma mask_ok_extends h h' Val m :
  LeafValues h `prefix_of` LeafValues h' ->
  mask_ok kind h Val m -> mask_ok kind h' Val m.
Proof.
  intros Hpre [-> | [-> | [Hne Hbits]]]; [by left | by right; left |].
  right; right. split; [done |]. intros i Hi.
  destruct (Hbits i Hi) as (Leaf & Hl & Hocc). exists Leaf. split; [| done].
  by eapply prefix_lookup_Some.
Qed.

Lemma mask_ok_operand h BO Opcode Op0 Op1 Val m :
  kind BO = BinaryOperator Opcode Op0 Op1 -> is_logic_op Opcode = true ->
  Val = Op0 \/ Val = Op1 ->
  mask_ok kind h Val m -> mask_ok kind h BO m.
Proof.
  intros Hk Hop HVal [-> | [-> | [Hne Hbits]]]; [by left | by right; left |].
  right; right. split; [done |]. intros i Hi.
  destruct (Hbits i Hi) as (Leaf & Hl & Hocc). exists Leaf. split; [done |].
  destruct HVal as [-> | ->].
  - by eapply occurs_op0.
  - by eapply occurs_op1.
Qed.

Lemma mask_ok_leaf_bound h Val m :
  (length (LeafValues h) <= 62)%nat -> mask_ok kind h Val m ->
  m <> ExprZero -> m <> ExprAllOne -> m <> 0 /\ m < 2 ^ 62.
Proof.
  intros Hlen [-> | [-> | [Hne Hbits]]] HZ HA; [done | done |].
  split; [done |]. apply leaf_mask_of_bits. intros i Hi.
  destruct (Hbits i Hi) as (Leaf & Hl & _).
  apply lookup_lt_Some in Hl. lia.
Qed.

Lemma mask_ok_lor h Val L R :
  mask_ok kind h Val L -> mask_ok kind h Val R ->
  L < 2 ^ 62 -> R < 2 ^ 62 -> L <> 0 ->
  mask_ok kind h Val (N.lor L R).
Proof.
  intros HL HR HLb HRb HL0.
  assert (HLz : L <> ExprZero) by (rewrite ExprZero_pow2; lia).
  assert (HLa : L <> ExprAllOne) by (rewrite ExprAllOne_pow2; lia).
  destruct HL as [-> | [-> | [_ HLbits]]]; [done | done |].
  right; right. split.
  - intros Heq. apply N.lor_eq_0_iff in Heq as [? _]. done.
  - intros i Hi. rewrite N.lor_spec in Hi.
    apply orb_true_iff in Hi as [Hi | Hi]; [by apply HLbits |].
    destruct (N.eq_dec R 0) as [-> | HR0]; [by rewrite N.bits_0 in Hi |].
    destruct HR as [-> | [-> | [_ HRbits]]].
    + rewrite ExprZero_pow2 in HRb. lia.
    + rewrite ExprAllOne_pow2 in HRb. lia.
    + by apply HRbits.
Qed.

Lemma mask_ok_mul_mask h Val L R :
  (length (LeafValues h) <= 62)%nat ->
  mask_ok kind h Val L -> mask_ok kind h Val R ->
  N.land L ExprZero = 0 -> N.land R ExprZero = 0 ->
  mask_ok kind h Val (mul_mask L R).
Proof.
  intros Hlen HL HR HLz HRz.
  assert (HLne : L <> ExprZero) by (by intros ->).
  assert (HRne : R <> ExprZero) by (by intros ->).
  destruct (N.eq_dec L ExprAllOne) as [-> | HLa];
    destruct (N.eq_dec R ExprAllOne) as [-> | HRa].
  - by right; left.
  - destruct (mask_ok_leaf_bound h Val R) as [HR0 HRb]; [done .. |].
    by rewrite mul_mask_AllOne_leaf.
  - destruct (mask_ok_leaf_bound h Val L) as [HL0 HLb]; [done .. |].
    by rewrite mul_mask_comm, mul_mask_AllOne_leaf.
  - destruct (mask_ok_leaf_bound h Val L) as [HL0 HLb]; [done .. |].
    destruct (mask_ok_leaf_bound h Val R) as [HR0 HRb]; [done .. |].
    rewrite mul_mask_leaf by done. by apply mask_ok_lor.
Qed.

Lemma op_xor_masks_ok h Val (E1 E2 : LogicalExpr) :
  (forall m, m ∈ AddChain E1 -> mask_ok kind h Val m) ->
  (forall m, m ∈ AddChain E2 -> mask_ok kind h Val m) ->
  forall m, m ∈ AddChain (op_xor E1 E2) -> mask_ok kind h Val m.
Proof.
  intros H1 H2 m Hm. simpl in Hm.
  apply elem_of_add_chain_inv in Hm as [Hm | Hm]; auto.
Qed.

Lemma op_and_masks_ok h Val (E1 E2 : LogicalExpr) :
  (length (LeafValues h) <= 62)%nat ->
  (forall m, m ∈ AddChain E1 -> mask_ok kind h Val m) ->
  (forall m, m ∈ AddChain E2 -> mask_ok kind h Val m) ->
  forall m, m ∈ AddChain (op_and E1 E2) -> mask_ok kind h Val m.
Proof.
  intros Hlen H1 H2 m Hm. simpl in Hm.
  apply elem_of_mul_chain_inv in Hm as (L & R & HL & HR & HLz & HRz & ->).
  apply mask_ok_mul_mask; auto.
Qed.

Lemma op_or_masks_ok h Val (E1 E2 : LogicalExpr) :
  (length (LeafValues h) <= 62)%nat ->
  (forall m, m ∈ AddChain E1 -> mask_ok kind h Val m) ->
  (forall m, m ∈ AddChain E2 -> mask_ok kind h Val m) ->
  forall m, m ∈ AddChain (op_or E1 E2) -> mask_ok kind h Val m.
Proof.
  intros Hlen H1 H2 m Hm. unfold op_or in Hm.
  apply (op_xor_masks_ok h Val (op_add (op_mul E1 E2) E1) E2); [| done | done].
  apply (op_xor_masks_ok h Val (op_mul E1 E2) E1); [| done].
  by apply op_and_masks_ok.
Qed.


(** *** The invariant is kept by every step of the builder *)

Lemma helper_inv_new : helper_inv kind (LogicalOpsHelper_new (Value := Value)).
Proof.
  split; simpl; try done.
  - apply NoDup_nil_2.
  - lia.
Qed.

Lemma leaf_set_size h :
  helper_inv kind h -> size (LeafSet h) = length (LeafValues h).
Proof.
  intros Hinv. rewrite (inv_leaf_set _ _ Hinv).
  apply size_list_to_set, (inv_leaf_nodup _ _ Hinv).
Qed.

Lemma tabled_leaf_cached h Leaf :
  helper_inv kind h -> Leaf ∈ LeafValues h ->
  is_opaque_leaf kind Leaf = true /\ is_Some (LogicalOpNodes h !! Leaf).
Proof.
  intros Hinv (i & Hi)%list_elem_of_lookup.
  destruct (inv_leaf_node _ _ Hinv i Leaf Hi) as (Hop & Node & Hn & _).
  split; [done | by exists Node].
Qed.

Lemma logic_op_not_opaque BO Opcode Op0 Op1 :
  kind BO = BinaryOperator Opcode Op0 Op1 -> is_logic_op Opcode = true ->
  is_opaque_leaf kind BO = false.
Proof. intros Hk Hop. unfold is_opaque_leaf. by rewrite Hk, Hop. Qed.

(** Storing the node of an and/or/xor operator. *)
Lemma store_binop_inv h BO Opcode Op0 Op1 (E : LogicalExpr) :
  helper_inv kind h ->
  kind BO = BinaryOperator Opcode Op0 Op1 -> is_logic_op Opcode = true ->
  (forall m, m ∈ AddChain E -> mask_ok kind h BO m) ->
  helper_inv kind (store_node {| getValue := BO; getExpr := E |} h).
Proof.
  intros Hinv Hk Hop HE.
  pose proof (logic_op_not_opaque BO Opcode Op0 Op1 Hk Hop) as Hnop.
  destruct Hinv as [Hkeys Hset Hnd Hcnt Hleaf Hopq Hmasks].
  split; simpl; try done.
  - intros Val Node. rewrite lookup_insert. case_decide as Heq.
    + by intros [= <-].
    + apply Hkeys.
  - intros i Leaf Hi. destruct (Hleaf i Leaf Hi) as (Hlo & Node & Hn & Hch).
    split; [done |]. exists Node. split; [| done].
    rewrite lookup_insert_ne; [done |]. intros <-. congruence.
  - intros Val Node Hn Hvo. rewrite lookup_insert_ne in Hn; [by eapply Hopq |].
    intros <-. congruence.
  - intros Val Node m. rewrite lookup_insert. case_decide as Heq.
    + intros [= <-]. subst Val. simpl. apply HE.
    + apply Hmasks.
Qed.

(** Storing the node of a leaf that carries a sentinel mask. *)
Lemma store_sentinel_inv h Val ExprVal :
  helper_inv kind h -> LogicalOpNodes h !! Val = None ->
  ExprVal = ExprZero \/ ExprVal = ExprAllOne ->
  (is_opaque_leaf kind Val = true -> ExprVal = ExprZero) ->
  helper_inv kind
    (store_node {| getValue := Val; getExpr := LogicalExpr_of_mask ExprVal |} h).
Proof.
  intros Hinv Hnone Hsent Hopq0.
  destruct Hinv as [Hkeys Hset Hnd Hcnt Hleaf Hopq Hmasks].
  split; simpl; try done.
  - intros Val' Node. rewrite lookup_insert. case_decide as Heq.
    + by intros [= <-].
    + apply Hkeys.
  - intros i Leaf Hi. destruct (Hleaf i Leaf Hi) as (Hlo & Node & Hn & Hch).
    split; [done |]. exists Node. split; [| done].
    rewrite lookup_insert_ne; [done |]. intros <-. congruence.
  - intros Val' Node. rewrite lookup_insert. case_decide as Heq.
    + intros [= <-] Hvo. subst Val'. left. simpl. by rewrite Hopq0.
    + apply Hopq.
  - intros Val' Node m. rewrite lookup_insert. case_decide as Heq.
    + intros [= <-]. simpl. intros ->%elem_of_singleton.
      destruct Hsent as [-> | ->]; [by left | by right; left].
    + apply Hmasks.
Qed.

(** Storing the node of a leaf that takes the next free bit. *)
Lemma store_leaf_inv h Val :
  helper_inv kind h -> LogicalOpNodes h !! Val = None ->
  is_opaque_leaf kind Val = true ->
  (length (LeafValues h) < 62)%nat ->
  helper_inv kind
    (store_node
       {| getValue := Val;
          getExpr :=
            LogicalExpr_of_mask (N.shiftl 1 (N.of_nat (length (LeafValues h)))) |}
       {| LogicalOpNodes := LogicalOpNodes h;
          LeafSet := {[ Val ]} ∪ LeafSet h;
          LeafValues := LeafValues h ++ [Val] |}).
Proof.
  intros Hinv Hnone Hvo Hlen.
  assert (Hfresh : Val ∉ LeafValues h).
  { intros Hin. destruct (tabled_leaf_cached h Val Hinv Hin) as [_ [Node Hn]].
    congruence. }
  destruct Hinv as [Hkeys Hset Hnd Hcnt Hleaf Hopq Hmasks].
  split; simpl.
  - intros Val' Node. rewrite lookup_insert. case_decide as Heq.
    + by intros [= <-].
    + apply Hkeys.
  - rewrite list_to_set_app_L, Hset. simpl. set_solver.
  - apply NoDup_app. repeat split; [done | | apply NoDup_singleton].
    intros x Hx ->%list_elem_of_singleton. done.
  - rewrite length_app. simpl. lia.
  - intros i Leaf Hi. apply lookup_app_Some in Hi as [Hi | [Hge Hi]].
    + destruct (Hleaf i Leaf Hi) as (Hlo & Node & Hn & Hch).
      split; [done |]. exists Node. split; [| done].
      rewrite lookup_insert_ne; [done |]. intros <-. congruence.
    + apply list_lookup_singleton_Some in Hi as [Hi <-].
      split; [done |]. eexists. rewrite lookup_insert_eq. split; [done |].
      simpl. replace i with (length (LeafValues h)) by lia. done.
  - intros Val' Node. rewrite lookup_insert. case_decide as Heq.
    + intros [= <-] _. subst Val'. right. exists (length (LeafValues h)).
      split; [| done]. rewrite lookup_app_r by lia.
      by rewrite Nat.sub_diag.
    + intros Hn Hvo'. destruct (Hopq Val' Node Hn Hvo') as [Hz | (i & Hi & Hch)];
        [by left |].
      right. exists i. split; [| done]. by apply lookup_app_l_Some.
  - intros Val' Node m. rewrite lookup_insert. case_decide as Heq.
    + intros [= <-]. subst Val'. simpl. intros ->%elem_of_singleton.
      right; right. rewrite N.shiftl_1_l. split.
      * apply N.pow_nonzero. lia.
      * intros i ->%testbit_pow2. exists Val. rewrite Nat2N.id.
        split; [| apply occurs_here]. simpl.
        rewrite lookup_app_r by lia. by rewrite Nat.sub_diag.
    + intros Hn Hm. eapply mask_ok_extends; [| by eapply Hmasks].
      simpl. by apply prefix_app_r.
Qed.


(** *** Fuel *)

Lemma getLogicalOpNode_rec_fuel fuel1 : forall fuel2 Val Depth h,
  Depth <= MaxDepth ->
  (N.to_nat (MaxDepth - Depth) < fuel1)%nat ->
  (N.to_nat (MaxDepth - Depth) < fuel2)%nat ->
  getLogicalOpNode_rec kind MaxLeafs MaxDepth fuel1 Val Depth h
  = getLogicalOpNode_rec kind MaxLeafs MaxDepth fuel2 Val Depth h.
Proof.
  induction fuel1 as [| fuel1 IH]; intros fuel2 Val Depth h Hle H1 H2; [lia |].
  destruct fuel2 as [| fuel2]; [lia |]. simpl.
  destruct (N.eqb_spec Depth MaxDepth) as [| Hne]; [done |].
  destruct (LogicalOpNodes h !! Val); [done |].
  destruct (kind Val) as [Opcode Op0 Op1 | |]; [| done | done].
  unfold visitBinOp. destruct (negb (is_logic_op Opcode)); [done |].
  rewrite (IH fuel2 Op0 (Depth + 1) h) by lia.
  destruct (getLogicalOpNode_rec kind MaxLeafs MaxDepth fuel2 Op0 (Depth + 1) h)
    as [[LHS |] h1]; [| done].
  by rewrite (IH fuel2 Op1 (Depth + 1) h1) by lia.
Qed.

(** *** Cut-offs *)

Lemma getLogicalOpNode_unfold Val Depth h :
  Depth <> MaxDepth -> Depth <= MaxDepth ->
  getLogicalOpNode kind MaxLeafs MaxDepth Val Depth h
  = match LogicalOpNodes h !! Val with
    | None =>
        let '(Node, h1) :=
          match kind Val with
          | BinaryOperator Opcode Op0 Op1 =>
              visitBinOp kind MaxLeafs (getLogicalOpNode kind MaxLeafs MaxDepth)
                         Val Opcode Op0 Op1 Depth h
          | _ => visitLeafNode kind MaxLeafs Val Depth h
          end in
        match Node with
        | None => (None, h1)
        | Some _ => (LogicalOpNodes h1 !! Val, h1)
        end
    | Some _ => (LogicalOpNodes h !! Val, h)
    end.
Proof.
  intros Hne Hle. unfold getLogicalOpNode. simpl.
  destruct (N.eqb_spec Depth MaxDepth) as [| _]; [done |].
  destruct (LogicalOpNodes h !! Val); [done |].
  destruct (kind Val) as [Opcode Op0 Op1 | |]; [| done | done].
  replace (N.to_nat (MaxDepth - Depth))
    with (S (N.to_nat (MaxDepth - (Depth + 1)))) by lia.
  done.
Qed.

(** Once a nested call is cut off, every enclosing call returns no node. *)
Lemma cut_off_propagates x y :
  rtc (nested_call kind MaxLeafs MaxDepth) x y ->
  cut_off kind MaxLeafs MaxDepth y ->
  x.1.2 <= MaxDepth ->
  (getLogicalOpNode kind MaxLeafs MaxDepth x.1.1 x.1.2 x.2).1 = None.
Proof.
  induction 1 as [[[Val Depth] h] | x y z Hcall _ IH]; intros Hcut Hle.
  - simpl in *. destruct Hcut as [-> | (Hnone & Hnl & Hbound)].
    + unfold getLogicalOpNode. simpl. by rewrite N.eqb_refl.
    + destruct (N.eq_dec Depth MaxDepth) as [-> | Hne].
      { unfold getLogicalOpNode. simpl. by rewrite N.eqb_refl. }
      rewrite getLogicalOpNode_unfold, Hnone by done.
      assert (Hleaf : visitLeafNode kind MaxLeafs Val Depth h = (None, h)).
      { unfold visitLeafNode. destruct Hbound as [-> | Hlt]; [done |].
        apply N.ltb_lt in Hlt. rewrite Hlt. by rewrite orb_true_r. }
      destruct (kind Val) as [Opcode Op0 Op1 | |] eqn:Hk.
      * unfold visitBinOp. rewrite (Hnl Opcode Op0 Op1 eq_refl). simpl.
        by rewrite Hleaf.
      * by rewrite Hleaf.
      * by rewrite Hleaf.
  - destruct Hcall as [Val Depth h Opcode Op0 Op1 Hne Hnone Hk Hop
                      | Val Depth h Opcode Op0 Op1 LHS h1 Hne Hnone Hk Hop E0];
      simpl in *.
    + specialize (IH Hcut ltac:(lia)).
      rewrite getLogicalOpNode_unfold, Hnone, Hk by done.
      unfold visitBinOp. rewrite Hop. simpl.
      by destruct (getLogicalOpNode kind MaxLeafs MaxDepth Op0 (Depth + 1) h)
        as [[? |] ?].
    + specialize (IH Hcut ltac:(lia)).
      rewrite getLogicalOpNode_unfold, Hnone, Hk by done.
      unfold visitBinOp. rewrite Hop, E0. simpl.
      by destruct (getLogicalOpNode kind MaxLeafs MaxDepth Op1 (Depth + 1) h1)
        as [[? |] ?].
Qed.

(** *** Under the assertion of [simplify] *)

Hypothesis MaxLeafs_le : MaxLeafs <= 62.

Lemma visitLeafNode_inv Val Depth h :
  helper_inv kind h -> LogicalOpNodes h !! Val = None ->
  (forall Opcode Op0 Op1,
      kind Val = BinaryOperator Opcode Op0 Op1 -> is_logic_op Opcode = false) ->
  helper_inv kind (visitLeafNode kind MaxLeafs Val Depth h).2.
Proof.
  intros Hinv Hnone Hnl. unfold visitLeafNode.
  destruct (Depth =? 0); [done |].
  destruct (N.ltb_spec MaxLeafs (N.of_nat (size (LeafSet h)))) as [| Hsz];
    [done |].
  simpl. unfold leaf_bit.
  rewrite (leaf_set_size h Hinv) in *.
  set (k := length (LeafValues h)) in *.
  assert (Hbit : N.shiftl 1 (N.of_nat k) mod 2 ^ 64 = N.shiftl 1 (N.of_nat k)).
  { apply N.mod_small. rewrite N.shiftl_1_l.
    apply N.pow_lt_mono_r; lia. }
  rewrite Hbit.
  set (ExprVal := match kind Val with
                  | ConstantInt isZero isAllOnesValue => _
                  | _ => _
                  end).
  assert (HE : (ExprVal = ExprZero /\ is_opaque_leaf kind Val = false) \/
               (ExprVal = ExprAllOne /\ is_opaque_leaf kind Val = false) \/
               (ExprVal = N.shiftl 1 (N.of_nat k) /\
                is_opaque_leaf kind Val = true)).
  { subst ExprVal. unfold is_opaque_leaf.
    destruct (kind Val) as [Opcode Op0 Op1 | [] [] |] eqn:Hk; simpl; auto.
    right; right. by rewrite (Hnl Opcode Op0 Op1). }
  clearbody ExprVal.
  destruct HE as [[-> Hop] | [[-> Hop] | [-> Hop]]].
  - simpl. apply store_sentinel_inv; auto; congruence.
  - simpl. apply store_sentinel_inv; auto; congruence.
  - destruct (decide (k = 62%nat)) as [Hk62 | Hk62].
    + rewrite Hk62. simpl. apply store_sentinel_inv; auto.
    + assert (Hlt : (k < 62)%nat) by lia.
      assert (Hpow : N.shiftl 1 (N.of_nat k) < 2 ^ 62).
      { rewrite N.shiftl_1_l. apply N.pow_lt_mono_r; lia. }
      destruct (N.eqb_spec (N.shiftl 1 (N.of_nat k)) ExprAllOne) as [Heq | _];
        [rewrite ExprAllOne_pow2 in Heq; lia |].
      destruct (N.eqb_spec (N.shiftl 1 (N.of_nat k)) ExprZero) as [Heq | _];
        [rewrite ExprZero_pow2 in Heq; lia |].
      simpl.
      destruct (decide (Val ∈ LeafSet h)) as [Hin | _].
      * exfalso. rewrite (inv_leaf_set _ _ Hinv), elem_of_list_to_set in Hin.
        destruct (tabled_leaf_cached h Val Hinv Hin) as [_ [Node Hn]].
        congruence.
      * by apply store_leaf_inv.
Qed.

Lemma getLogicalOpNode_rec_cached fuel Val Depth h Node h' :
  getLogicalOpNode_rec kind MaxLeafs MaxDepth fuel Val Depth h = (Some Node, h') ->
  LogicalOpNodes h' !! Val = Some Node.
Proof.
  destruct fuel as [| fuel]; simpl; [done |].
  destruct (Depth =? MaxDepth); [done |].
  destruct (LogicalOpNodes h !! Val) as [Node0 |] eqn:Hcache.
  - by intros [= <- <-].
  - match goal with
    | |- (let '(_, _) := ?visit in _) = _ -> _ =>
        destruct visit as [[Node1 |] h1]
    end; [| done].
    by intros [= Hl <-].
Qed.

Lemma getLogicalOpNode_rec_inv fuel : forall Val Depth h,
  helper_inv kind h ->
  helper_inv kind (getLogicalOpNode_rec kind MaxLeafs MaxDepth fuel Val Depth h).2.
Proof.
  induction fuel as [| fuel IH]; intros Val Depth h Hinv; simpl; [done |].
  destruct (Depth =? MaxDepth); [done |].
  destruct (LogicalOpNodes h !! Val) as [Node |] eqn:Hcache; [done |].
  assert (Hleaf :
    (forall Opcode Op0 Op1,
        kind Val = BinaryOperator Opcode Op0 Op1 -> is_logic_op Opcode = false) ->
    helper_inv kind (visitLeafNode kind MaxLeafs Val Depth h).2)
    by (by apply visitLeafNode_inv).
  destruct (kind Val) as [Opcode Op0 Op1 | isZero isAllOnes |] eqn:Hk.
  - unfold visitBinOp.
    destruct (is_logic_op Opcode) eqn:Hop; simpl.
    + pose proof (IH Op0 (Depth + 1) h Hinv) as Hinv1.
      destruct (getLogicalOpNode_rec kind MaxLeafs MaxDepth fuel Op0 (Depth + 1) h)
        as [[LHS |] h1] eqn:E1; [| done].
      simpl in Hinv1.
      pose proof (IH Op1 (Depth + 1) h1 Hinv1) as Hinv2.
      pose proof (getLogicalOpNode_rec_extends fuel Op1 (Depth + 1) h1) as Hext.
      destruct (getLogicalOpNode_rec kind MaxLeafs MaxDepth fuel Op1 (Depth + 1) h1)
        as [[RHS |] h2] eqn:E2; [| done].
      simpl in Hinv2, Hext.
      apply getLogicalOpNode_rec_cached in E1, E2.
      assert (HL : forall m, m ∈ AddChain (getExpr LHS) -> mask_ok kind h2 Val m).
      { intros m Hm.
        apply (mask_ok_operand h2 Val Opcode Op0 Op1 Op0); auto.
        apply (mask_ok_extends h1); [apply Hext |].
        by apply (inv_masks _ _ Hinv1 Op0 LHS). }
      assert (HR : forall m, m ∈ AddChain (getExpr RHS) -> mask_ok kind h2 Val m).
      { intros m Hm.
        apply (mask_ok_operand h2 Val Opcode Op0 Op1 Op1); auto.
        by apply (inv_masks _ _ Hinv2 Op1 RHS). }
      pose proof (inv_leaf_count _ _ Hinv2) as Hcnt.
      assert (Hstore : forall E : LogicalExpr,
                 (forall m, m ∈ AddChain E -> mask_ok kind h2 Val m) ->
                 helper_inv kind
                   (store_node {| getValue := Val; getExpr := E |} h2))
        by (intros E HE; by eapply store_binop_inv).
      destruct Opcode; try discriminate Hop; simpl; apply Hstore.
      * by apply op_and_masks_ok.
      * by apply op_or_masks_ok.
      * by apply op_xor_masks_ok.
    + assert (Hinv1 := Hleaf ltac:(by intros ? ? ? [= -> _ _])).
      destruct (visitLeafNode kind MaxLeafs Val Depth h) as [[? |] h1]; done.
  - assert (Hinv1 := Hleaf ltac:(done)).
    destruct (visitLeafNode kind MaxLeafs Val Depth h) as [[? |] h1]; done.
  - assert (Hinv1 := Hleaf ltac:(done)).
    destruct (visitLeafNode kind MaxLeafs Val Depth h) as [[? |] h1]; done.
Qed.

Lemma reachable_inv h :
  reachable kind MaxLeafs MaxDepth h -> helper_inv kind h.
Proof.
  induction 1 as [| h Val Depth Hr IH].
  - apply helper_inv_new.
  - by apply getLogicalOpNode_rec_inv.
Qed.


(** A one-bit mask of a cached polynomial, if not a sentinel, indexes a
    tabled leaf that occurs in the value of the node. *)
Lemma one_hot_mask_lookup h Val Node m :
  helper_inv kind h -> LogicalOpNodes h !! Val = Some Node ->
  m ∈ AddChain (getExpr Node) ->
  popcount m = 1 -> m <> ExprZero -> m <> ExprAllOne ->
  exists Leaf, LeafValues h !! N.to_nat (Log2_64 m) = Some Leaf /\
               is_opaque_leaf kind Leaf = true /\ occurs_in kind Leaf Val.
Proof.
  intros Hinv Hn Hm Hpop HZ HA.
  destruct (inv_masks _ _ Hinv Val Node m Hn Hm) as [-> | [-> | [Hne Hbits]]];
    [done | done |].
  destruct (Hbits (Log2_64 m)) as (Leaf & Hl & Hocc).
  { pose proof (popcount_1_pow2 m Hpop) as Heq.
    rewrite Heq at 1. apply N.pow2_bits_true. }
  exists Leaf. repeat split; [done | | done].
  by destruct (inv_leaf_node _ _ Hinv _ _ Hl).
Qed.

(** C10. In every state the helper goes through, the leaf table and the bit
    assignment agree: the value at index [i] of the table is an opaque leaf,
    its node is cached under it with the singleton polynomial [{1 << i}],
    no other opaque leaf has that polynomial, and [1 << i] is a one-bit mask
    other than the sentinels whose logarithm indexes that same value.
    Conversely a one-bit mask, not a sentinel, found in any cached
    polynomial indexes a tabled leaf whose own node is the singleton of that
    mask. *)
Theorem leaf_table_consistent h :
  reachable kind MaxLeafs MaxDepth h ->
  (forall (i : nat) Leaf,
      LeafValues h !! i = Some Leaf ->
      let Bit := N.shiftl 1 (N.of_nat i) in
      is_opaque_leaf kind Leaf = true /\
      (exists Node, LogicalOpNodes h !! Leaf = Some Node /\
                    getValue Node = Leaf /\
                    AddChain (getExpr Node) = {[ Bit ]}) /\
      (forall Val Node,
          LogicalOpNodes h !! Val = Some Node ->
          is_opaque_leaf kind Val = true ->
          AddChain (getExpr Node) = {[ Bit ]} -> Val = Leaf) /\
      popcount Bit = 1 /\ Bit <> ExprZero /\ Bit <> ExprAllOne /\
      LeafValues h !! N.to_nat (Log2_64 Bit) = Some Leaf) /\
  (forall Val Node m,
      LogicalOpNodes h !! Val = Some Node ->
      m ∈ AddChain (getExpr Node) ->
      popcount m = 1 -> m <> ExprZero -> m <> ExprAllOne ->
      exists Leaf LeafNode,
        LeafValues h !! N.to_nat (Log2_64 m) = Some Leaf /\
        LogicalOpNodes h !! Leaf = Some LeafNode /\
        AddChain (getExpr LeafNode) = {[ m ]}).
Proof.
  intros Hr. pose proof (reachable_inv h Hr) as Hinv. split.
  - intros i Leaf Hi Bit. subst Bit.
    destruct (inv_leaf_node _ _ Hinv i Leaf Hi) as (Hop & Node & Hn & Hch).
    pose proof (lookup_lt_Some _ _ _ Hi) as Hlt.
    pose proof (inv_leaf_count _ _ Hinv) as Hcnt.
    assert (Hpow : 2 ^ N.of_nat i < 2 ^ 62) by (apply N.pow_lt_mono_r; lia).
    rewrite N.shiftl_1_l in *.
    repeat split.
    + done.
    + exists Node. repeat split; [done | | done].
      by apply (inv_keys _ _ Hinv).
    + intros Val Node' Hn' Hop' Hch'.
      destruct (inv_opaque_node _ _ Hinv Val Node' Hn' Hop')
        as [Hz | (j & Hj & Hchj)]; rewrite Hch' in *.
      * apply singleton_inj in Hz. rewrite ExprZero_pow2 in Hz. lia.
      * apply singleton_inj in Hchj. rewrite N.shiftl_1_l in Hchj.
        apply N.pow_inj_r in Hchj; [| lia].
        assert (i = j) as -> by lia. congruence.
    + apply popcount_pow2.
    + rewrite ExprZero_pow2. lia.
    + rewrite ExprAllOne_pow2. lia.
    + unfold Log2_64. rewrite N.log2_pow2 by lia. by rewrite Nat2N.id.
  - intros Val Node m Hn Hm Hpop HZ HA.
    destruct (one_hot_mask_lookup h Val Node m) as (Leaf & Hl & Hop & _);
      [done .. |].
    destruct (inv_leaf_node _ _ Hinv _ _ Hl) as (_ & LeafNode & Hln & Hch).
    exists Leaf, LeafNode. repeat split; [done | done |].
    rewrite Hch, N2Nat.id, N.shiftl_1_l.
    by rewrite <- (popcount_1_pow2 m Hpop).
Qed.


(** *** Reconstruction and the driver *)

Context {Ty : Type}.
Variable getType : Value -> Ty.
Variable getNullValue : Ty -> Value.
Variable getAllOnesValue : Ty -> Value.

Lemma logicalOpToValue_returns h Val Node :
  helper_inv kind h -> LogicalOpNodes h !! Val = Some Node ->
  exists r, logicalOpToValue getType getNullValue getAllOnesValue h Node = Returns r /\
    forall v, r = Some v ->
      v = getNullValue (getType Val) \/ v = getAllOnesValue (getType Val) \/
      (is_opaque_leaf kind v = true /\ occurs_in kind v Val /\
       v ∈ LeafValues h).
Proof.
  intros Hinv Hn. unfold logicalOpToValue.
  rewrite (inv_keys _ _ Hinv Val Node Hn).
  destruct (expr_size (getExpr Node) =? 0);
    [eexists; split; [done |]; intros v [= <-]; by left |].
  destruct (N.eqb_spec (expr_size (getExpr Node)) 1) as [Hs1 | _];
    [| eexists; split; [done |]; by intros v [=]].
  destruct (expr_size_1 _ Hs1) as [m Hm].
  destruct (expr_singleton _ m Hm) as [_ ->].
  destruct (N.eqb_spec m ExprZero) as [| HZ];
    [eexists; split; [done |]; intros v [= <-]; by left |].
  destruct (N.eqb_spec m ExprAllOne) as [| HA];
    [eexists; split; [done |]; intros v [= <-]; by right; left |].
  destruct (N.eqb_spec (popcount m) 1) as [Hpop | _];
    [| eexists; split; [done |]; by intros v [=]].
  destruct (one_hot_mask_lookup h Val Node m) as (Leaf & Hl & Hop & Hocc);
    [done | done | rewrite Hm; by apply elem_of_singleton | done .. |].
  rewrite Hl. eexists; split; [done |]. intros v [= <-].
  right; right. repeat split; [done | done |].
  by eapply list_elem_of_lookup_2.
Qed.


(** *** The specification of [logicalOpToValue] and of [simplify] *)

Abbreviation to_value := (logicalOpToValue getType getNullValue getAllOnesValue).
Abbreviation walk := (getLogicalOpNode kind MaxLeafs MaxDepth).
Abbreviation run_simplify :=
  (simplify kind getType getNullValue getAllOnesValue MaxLeafs MaxDepth).

(** C2. Reconstruction of a node built by the helper ([logicalOpToValue]):
    the constant 0 of the node's type when the polynomial is empty or is the
    singleton zero sentinel; the constant all-ones of that type when it is
    the singleton all-ones sentinel; the leaf stored at index [log2 mask]
    of the leaf table (the index is in range) when it is a singleton with
    one bit set that is not a sentinel; and no value in every other case:
    a singleton whose mask has not exactly one bit set, or two or more
    monomials. *)
Theorem logicalOpToValue_cases h Val Node :
  reachable kind MaxLeafs MaxDepth h ->
  LogicalOpNodes h !! Val = Some Node ->
  let Chain := AddChain (getExpr Node) in
  let NodeTy := getType (getValue Node) in
  (Chain = ∅ \/ Chain = {[ ExprZero ]} ->
   to_value h Node = Returns (Some (getNullValue NodeTy))) /\
  (Chain = {[ ExprAllOne ]} ->
   to_value h Node = Returns (Some (getAllOnesValue NodeTy))) /\
  (forall m, Chain = {[ m ]} -> popcount m = 1 ->
             m <> ExprZero -> m <> ExprAllOne ->
     exists Leaf, LeafValues h !! N.to_nat (Log2_64 m) = Some Leaf /\
                  to_value h Node = Returns (Some Leaf)) /\
  (forall m, Chain = {[ m ]} -> popcount m <> 1 ->
     to_value h Node = Returns None) /\
  ((2 <= size Chain)%nat -> to_value h Node = Returns None).
Proof.
  intros Hr Hn Chain NodeTy. subst Chain NodeTy.
  pose proof (reachable_inv h Hr) as Hinv.
  unfold logicalOpToValue. repeat split.
  - intros [He | Hz].
    + by rewrite (proj2 (expr_size_0 _) He).
    + destruct (expr_singleton _ _ Hz) as [-> ->]. done.
  - intros Ha. destruct (expr_singleton _ _ Ha) as [-> ->]. done.
  - intros m Hm Hpop HZ HA.
    destruct (expr_singleton _ _ Hm) as [-> ->]. simpl.
    destruct (N.eqb_spec m ExprZero); [done |].
    destruct (N.eqb_spec m ExprAllOne); [done |].
    rewrite Hpop. simpl.
    destruct (one_hot_mask_lookup h Val Node m) as (Leaf & Hl & _);
      [done | done | rewrite Hm; by apply elem_of_singleton | done .. |].
    exists Leaf. by rewrite Hl.
  - intros m Hm Hpop.
    destruct (expr_singleton _ _ Hm) as [-> ->]. simpl.
    destruct (N.eqb_spec m ExprZero) as [-> | _]; [done |].
    destruct (N.eqb_spec m ExprAllOne) as [-> | _]; [done |].
    by destruct (N.eqb_spec (popcount m) 1).
  - intros Hsz. unfold expr_size.
    destruct (N.eqb_spec (N.of_nat (size (AddChain (getExpr Node)))) 0);
      [lia |].
    destruct (N.eqb_spec (N.of_nat (size (AddChain (getExpr Node)))) 1);
      [lia | done].
Qed.

(** C1. [simplify] on any root, from any state of the helper: it returns
    (no assertion fails, no index is out of range), the helper is left as
    the builder left it, and the result is "no change" exactly when the
    builder gave no node, or the reconstruction gave no value, or it gave
    the root itself; then the counter is unchanged. In every other case the
    result is the reconstructed value, which differs from the root, and the
    counter [NumComplexLogicalOpsSimplified] grows by exactly one. *)
Theorem simplify_no_change_iff Root h cnt :
  reachable kind MaxLeafs MaxDepth h ->
  let RootNode := (walk Root 0 h).1 in
  let h1 := (walk Root 0 h).2 in
  exists r cnt1,
    run_simplify Root (h, cnt) = (Returns r, (h1, cnt1)) /\
    (r = None <->
     RootNode = None \/
     exists Node, RootNode = Some Node /\
       (to_value h1 Node = Returns None \/
        to_value h1 Node = Returns (Some Root))) /\
    (r = None -> cnt1 = cnt) /\
    (forall NewRoot, r = Some NewRoot ->
       NewRoot <> Root /\ cnt1 = cnt + 1 /\
       exists Node, RootNode = Some Node /\
                    to_value h1 Node = Returns (Some NewRoot)).
Proof.
  intros Hr RootNode h1. subst RootNode h1. unfold simplify.
  destruct (N.leb_spec MaxLeafs 62) as [_ | Hgt]; [| lia]. simpl.
  pose proof (reachable_walk kind MaxLeafs MaxDepth h Root 0 Hr) as Hr1.
  apply reachable_inv in Hr1.
  destruct (walk Root 0 h) as [[Node |] h1] eqn:Hwalk; cbn [fst snd] in *.
  - apply getLogicalOpNode_rec_cached in Hwalk.
    destruct (logicalOpToValue_returns h1 Root Node Hr1 Hwalk) as (r & Hret & _).
    destruct (decide (r = Some Root)) as [-> | Hne].
    + exists None, cnt. rewrite Hret.
      destruct (decide (Some Root = Some Root)); [| done].
      split; [done |]. split; [| split]; [| done | done].
      split; [| done]. intros _. right. exists Node. split; [done |]. by right.
    + destruct r as [NewRoot |].
      * exists (Some NewRoot), (cnt + 1). rewrite Hret.
        destruct (decide (Some NewRoot = Some Root)); [done |].
        split; [done |]. split; [| split].
        -- split; [done |].
           intros [[=] | (Node' & [= <-] & [Hrn | Hrs])]; congruence.
        -- done.
        -- intros ? [= <-]. split; [congruence |]. split; [done |].
           by exists Node.
      * exists None, cnt. rewrite Hret.
        destruct (decide (None = Some Root)); [done |].
        split; [done |]. split; [| split]; [| done | done].
        split; [| done]. intros _. right. exists Node. split; [done |]. by left.
  - exists None, cnt. split; [done |]. split; [| split]; [| done | done].
    split; [| done]. intros _. by left.
Qed.

(** C9. A value returned by [simplify] is the constant zero or the constant
    all-ones of the root's type, or an opaque leaf of the leaf table that
    occurs in the root expression (reached from the root through operands of
    and/or/xor operators): no other value is ever made. *)
Theorem simplify_returns_constant_or_leaf Root h cnt NewRoot st :
  reachable kind MaxLeafs MaxDepth h ->
  run_simplify Root (h, cnt) = (Returns (Some NewRoot), st) ->
  NewRoot = getNullValue (getType Root) \/
  NewRoot = getAllOnesValue (getType Root) \/
  (is_opaque_leaf kind NewRoot = true /\ occurs_in kind NewRoot Root /\
   NewRoot ∈ LeafValues st.1).
Proof.
  intros Hr. unfold simplify.
  destruct (MaxLeafs <=? 62); simpl; [| done].
  pose proof (reachable_walk kind MaxLeafs MaxDepth h Root 0 Hr) as Hr1.
  apply reachable_inv in Hr1.
  destruct (walk Root 0 h) as [[Node |] h1] eqn:Hwalk; cbn [fst snd] in *;
    [| done].
  apply getLogicalOpNode_rec_cached in Hwalk.
  destruct (logicalOpToValue_returns h1 Root Node Hr1 Hwalk) as (r & Hret & Hcases).
  rewrite Hret.
  destruct (decide (r = Some Root)); [done |].
  intros [= -> <-]. simpl. by apply Hcases.
Qed.

(** The bounds as [simplify] enforces them: when the walk from the root
    makes a call that is cut off (at the maximal depth, or on a new leaf with
    more than [MaxLeafs] leaves in the leaf set), the result is "no
    change". *)
Lemma simplify_cut_off Root h cnt y :
  rtc (nested_call kind MaxLeafs MaxDepth) (Root, 0, h) y ->
  cut_off kind MaxLeafs MaxDepth y ->
  (run_simplify Root (h, cnt)).1 = Returns None.
Proof.
  intros Hcalls Hcut.
  pose proof (cut_off_propagates _ _ Hcalls Hcut ltac:(simpl; lia)) as Hnone.
  simpl in Hnone. unfold simplify.
  destruct (N.leb_spec MaxLeafs 62) as [_ | Hgt]; [| lia]. simpl.
  by destruct (walk Root 0 h) as [[Node |] h1]; [discriminate Hnone |].
Qed.

(** C7 (amended). [simplify] never resets the caches: every node cached
    and every leaf tabled before a call is still there, unchanged, after
    it, so a later call on the same helper starts from what the earlier
    calls left. The caches are emptied together by [clear], which only the
    destructor calls. *)
Theorem simplify_keeps_caches Root h cnt :
  let h1 := (run_simplify Root (h, cnt)).2.1 in
  extends h h1 /\ clear h1 = LogicalOpsHelper_new.
Proof.
  unfold simplify. split.
  - destruct (MaxLeafs <=? 62); simpl; [| apply extends_refl].
    pose proof (getLogicalOpNode_rec_extends
                  (S (N.to_nat (MaxDepth - 0))) Root 0 h) as Hext.
    fold (walk Root 0 h) in Hext.
    destruct (walk Root 0 h) as [[Node |] h1]; [| done].
    destruct (to_value h1 Node) as [NewRoot | |]; [| done | done].
    by destruct (decide (NewRoot = Some Root)).
  - reflexivity.
Qed.

(** *** One call of the walk, case by case *)

Lemma visitLeafNode_opaque Val Depth h :
  helper_inv kind h -> LogicalOpNodes h !! Val = None ->
  is_opaque_leaf kind Val = true ->
  Depth <> 0 ->
  N.of_nat (length (LeafValues h)) <= MaxLeafs ->
  (length (LeafValues h) < 62)%nat ->
  visitLeafNode kind MaxLeafs Val Depth h
  = (Some (tabled_leaf_node Val h), table_leaf Val h).
Proof.
  intros Hinv Hnone Hop HD Hle Hlt. unfold visitLeafNode.
  destruct (N.eqb_spec Depth 0) as [| _]; [done |].
  rewrite (leaf_set_size h Hinv).
  destruct (N.ltb_spec MaxLeafs (N.of_nat (length (LeafValues h)))) as [| _];
    [lia |].
  simpl. unfold leaf_bit. rewrite (leaf_set_size h Hinv).
  set (k := length (LeafValues h)) in *.
  assert (Hpow : N.shiftl 1 (N.of_nat k) < 2 ^ 62).
  { rewrite N.shiftl_1_l. apply N.pow_lt_mono_r; lia. }
  rewrite N.mod_small by lia.
  assert (HE : match kind Val with
               | ConstantInt isZero isAllOnesValue =>
                   if isZero then ExprZero
                   else if isAllOnesValue then ExprAllOne
                   else N.shiftl 1 (N.of_nat k)
               | _ => N.shiftl 1 (N.of_nat k)
               end = N.shiftl 1 (N.of_nat k)).
  { unfold is_opaque_leaf in Hop.
    by destruct (kind Val) as [? ? ? | [] [] |]. }
  rewrite HE.
  destruct (N.eqb_spec (N.shiftl 1 (N.of_nat k)) ExprAllOne) as [Heq | _];
    [rewrite ExprAllOne_pow2 in Heq; lia |].
  destruct (N.eqb_spec (N.shiftl 1 (N.of_nat k)) ExprZero) as [Heq | _];
    [rewrite ExprZero_pow2 in Heq; lia |].
  simpl.
  destruct (decide (Val ∈ LeafSet h)) as [Hin | _]; [| done].
  exfalso. rewrite (inv_leaf_set _ _ Hinv), elem_of_list_to_set in Hin.
  destruct (tabled_leaf_cached h Val Hinv Hin) as [_ [Node Hn]].
  congruence.
Qed.

Lemma walk_cached fuel Val Depth h Node :
  Depth <> MaxDepth -> LogicalOpNodes h !! Val = Some Node ->
  getLogicalOpNode_rec kind MaxLeafs MaxDepth (S fuel) Val Depth h
  = (Some Node, h).
Proof.
  intros HD Hn. simpl.
  destruct (N.eqb_spec Depth MaxDepth) as [| _]; [done |].
  by rewrite Hn.
Qed.

Lemma walk_opaque_leaf fuel Val Depth h :
  helper_inv kind h -> LogicalOpNodes h !! Val = None ->
  is_opaque_leaf kind Val = true ->
  Depth <> MaxDepth -> Depth <> 0 ->
  N.of_nat (length (LeafValues h)) <= MaxLeafs ->
  (length (LeafValues h) < 62)%nat ->
  getLogicalOpNode_rec kind MaxLeafs MaxDepth (S fuel) Val Depth h
  = (Some (tabled_leaf_node Val h), table_leaf Val h).
Proof.
  intros Hinv Hnone Hop HM HD Hle Hlt. simpl.
  destruct (N.eqb_spec Depth MaxDepth) as [| _]; [done |].
  rewrite Hnone.
  pose proof (visitLeafNode_opaque Val Depth h Hinv Hnone Hop HD Hle Hlt) as Hv.
  assert (Hl : LogicalOpNodes (table_leaf Val h) !! Val
               = Some (tabled_leaf_node Val h))
    by apply lookup_insert_eq.
  destruct (kind Val) as [Opcode Op0 Op1 | isZero isAllOnes |] eqn:Hk.
  - unfold visitBinOp. unfold is_opaque_leaf in Hop. rewrite Hk in Hop.
    rewrite Hop, Hv. by rewrite Hl.
  - rewrite Hv. by rewrite Hl.
  - rewrite Hv. by rewrite Hl.
Qed.

Lemma walk_all_ones fuel Val Depth h :
  helper_inv kind h -> LogicalOpNodes h !! Val = None ->
  kind Val = ConstantInt false true ->
  Depth <> MaxDepth -> Depth <> 0 ->
  N.of_nat (length (LeafValues h)) <= MaxLeafs ->
  getLogicalOpNode_rec kind MaxLeafs MaxDepth (S fuel) Val Depth h
  = (Some {| getValue := Val; getExpr := LogicalExpr_of_mask ExprAllOne |},
     store_node {| getValue := Val;
                   getExpr := LogicalExpr_of_mask ExprAllOne |} h).
Proof.
  intros Hinv Hnone Hk HM HD Hle. simpl.
  destruct (N.eqb_spec Depth MaxDepth) as [| _]; [done |].
  rewrite Hnone, Hk. unfold visitLeafNode.
  destruct (N.eqb_spec Depth 0) as [| _]; [done |].
  rewrite (leaf_set_size h Hinv).
  destruct (N.ltb_spec MaxLeafs (N.of_nat (length (LeafValues h)))) as [| _];
    [lia |].
  rewrite Hk. simpl. by rewrite lookup_insert_eq.
Qed.

Lemma walk_logic_op fuel Val Depth h Opcode Op0 Op1 LHS h1 RHS h2 :
  getLogicalOpNode_rec kind MaxLeafs MaxDepth fuel Op0 (Depth + 1) h
  = (Some LHS, h1) ->
  getLogicalOpNode_rec kind MaxLeafs MaxDepth fuel Op1 (Depth + 1) h1
  = (Some RHS, h2) ->
  kind Val = BinaryOperator Opcode Op0 Op1 -> is_logic_op Opcode = true ->
  Depth <> MaxDepth -> LogicalOpNodes h !! Val = None ->
  getLogicalOpNode_rec kind MaxLeafs MaxDepth (S fuel) Val Depth h
  = (Some {| getValue := Val;
             getExpr := binop_expr Opcode (getExpr LHS) (getExpr RHS) |},
     store_node {| getValue := Val;
                   getExpr := binop_expr Opcode (getExpr LHS) (getExpr RHS) |}
                h2).
Proof.
  intros E1 E2 Hk Hop HM Hnone. simpl.
  destruct (N.eqb_spec Depth MaxDepth) as [| _]; [done |].
  rewrite Hnone, Hk. unfold visitBinOp. rewrite Hop, E1, E2. simpl.
  destruct Opcode; try discriminate Hop; simpl; by rewrite lookup_insert_eq.
Qed.

(** *** The walkthrough of the header comment *)

(** Two values of different kinds, or with different operands, differ. *)
Ltac kinds_differ :=
  let E := fresh "E" in
  intros E; subst; unfold is_opaque_leaf in *;
  repeat match goal with
         | K : kind ?v = _, K' : context [kind ?v] |- _ => rewrite K in K'
         end;
  simpl in *; congruence.

Ltac map_lookup :=
  unfold table_leaf, store_node; simpl;
  repeat (rewrite lookup_insert_ne by congruence);
  first [apply lookup_insert_eq | apply lookup_empty].

Ltac side_condition :=
  first [assumption | reflexivity | lia | simpl; lia | map_lookup].

Ltac discharge E :=
  repeat match type of E with
         | ?P -> _ =>
             let HP := fresh "HP" in
             assert (HP : P) by side_condition; specialize (E HP); clear HP
         end.

(** The invariant after the call of equation [E], from the invariant
    [inv] before it. *)
Ltac walk_inv inv E :=
  match type of E with
  | getLogicalOpNode_rec _ _ _ ?fuel ?v ?d ?h = (_, ?h') =>
      let X := fresh "X" in
      pose proof (getLogicalOpNode_rec_inv fuel v d h inv) as X;
      rewrite E in X; exact X
  end.

(** C8. Scenario S6, for any host: with three distinct opaque leaves [a], [b],
    [c], the all-ones constant and the operators of
    [((a & b) | (a ^ c)) ^ (((b & c) ^ -1) & a)], a new helper tables
    [a], [b], [c] in this order (bits 0, 1, 2), builds the singleton
    polynomial [{0b100}] for the root, and [simplify] returns the leaf [c]
    and counts one simplification. The bounds must leave room for the walk:
    the constant is visited with three leaves tabled and the deepest call is
    at depth 4. *)
Theorem scenario_S6_reduces_to_c
    (a b c AllOnes ab axc lhs bc nbc rhs Root : Value) (cnt : N) :
  is_opaque_leaf kind a = true ->
  is_opaque_leaf kind b = true ->
  is_opaque_leaf kind c = true ->
  a <> b -> a <> c -> b <> c ->
  kind AllOnes = ConstantInt false true ->
  kind ab = BinaryOperator And a b ->
  kind axc = BinaryOperator Xor a c ->
  kind lhs = BinaryOperator Or ab axc ->
  kind bc = BinaryOperator And b c ->
  kind nbc = BinaryOperator Xor bc AllOnes ->
  kind rhs = BinaryOperator And nbc a ->
  kind Root = BinaryOperator Xor lhs rhs ->
  3 <= MaxLeafs -> 5 <= MaxDepth ->
  let built := walk Root 0 LogicalOpsHelper_new in
  LeafValues built.2 = [a; b; c] /\
  (AddChain ∘ getExpr) <$> built.1 = Some {[ 4 ]} /\
  run_simplify Root (LogicalOpsHelper_new, cnt)
  = (Returns (Some c), (built.2, cnt + 1)).
Proof.
  intros Ha Hb Hc Hab Hac Hbc Kones Kab Kaxc Klhs Kbc Knbc Krhs KRoot HL HD.
  assert (exists f, N.to_nat (MaxDepth - 0) = S (S (S (S (S f))))) as [f Hf]
    by (exists (N.to_nat MaxDepth - 5)%nat; lia).
  (* the eleven values are pairwise distinct *)
  assert (ab <> a) by kinds_differ. assert (ab <> b) by kinds_differ.
  assert (ab <> c) by kinds_differ.
  assert (axc <> a) by kinds_differ. assert (axc <> b) by kinds_differ.
  assert (axc <> c) by kinds_differ. assert (axc <> ab) by kinds_differ.
  assert (lhs <> a) by kinds_differ. assert (lhs <> b) by kinds_differ.
  assert (lhs <> c) by kinds_differ. assert (lhs <> ab) by kinds_differ.
  assert (lhs <> axc) by kinds_differ.
  assert (bc <> a) by kinds_differ. assert (bc <> b) by kinds_differ.
  assert (bc <> c) by kinds_differ. assert (bc <> ab) by kinds_differ.
  assert (bc <> axc) by kinds_differ. assert (bc <> lhs) by kinds_differ.
  assert (AllOnes <> a) by kinds_differ. assert (AllOnes <> b) by kinds_differ.
  assert (AllOnes <> c) by kinds_differ. assert (AllOnes <> ab) by kinds_differ.
  assert (AllOnes <> axc) by kinds_differ.
  assert (AllOnes <> lhs) by kinds_differ.
  assert (AllOnes <> bc) by kinds_differ.
  assert (nbc <> a) by kinds_differ. assert (nbc <> b) by kinds_differ.
  assert (nbc <> c) by kinds_differ. assert (nbc <> ab) by kinds_differ.
  assert (nbc <> axc) by kinds_differ. assert (nbc <> lhs) by kinds_differ.
  assert (nbc <> bc) by kinds_differ. assert (nbc <> AllOnes) by kinds_differ.
  assert (rhs <> a) by kinds_differ. assert (rhs <> b) by kinds_differ.
  assert (rhs <> c) by kinds_differ. assert (rhs <> ab) by kinds_differ.
  assert (rhs <> axc) by kinds_differ. assert (rhs <> lhs) by kinds_differ.
  assert (Root <> c) by kinds_differ.
  pose proof helper_inv_new as inv0.
  (* lhs = (a & b) | (a ^ c) *)
  pose proof (walk_opaque_leaf (S (S f)) a (0 + 1 + 1 + 1) _ inv0) as Ea.
  discharge Ea.
  assert (inv1 : helper_inv kind (table_leaf a LogicalOpsHelper_new))
    by walk_inv inv0 Ea.
  pose proof (walk_opaque_leaf (S (S f)) b (0 + 1 + 1 + 1) _ inv1) as Eb.
  discharge Eb.
  pose proof (walk_logic_op (S (S (S f))) ab (0 + 1 + 1) _ And a b _ _ _ _
                            Ea Eb) as Eab.
  discharge Eab.
  match type of Eab with _ = (Some _, ?h) =>
    assert (inv3 : helper_inv kind h) by walk_inv inv0 Eab;
    assert (Ea' : getLogicalOpNode_rec kind MaxLeafs MaxDepth (S (S (S f)))
                    a (0 + 1 + 1 + 1) h
                  = (Some (tabled_leaf_node a LogicalOpsHelper_new), h))
      by (apply walk_cached; side_condition)
  end.
  pose proof (walk_opaque_leaf (S (S f)) c (0 + 1 + 1 + 1) _ inv3) as Ec.
  discharge Ec.
  pose proof (walk_logic_op (S (S (S f))) axc (0 + 1 + 1) _ Xor a c _ _ _ _
                            Ea' Ec) as Eaxc.
  discharge Eaxc.
  pose proof (walk_logic_op (S (S (S (S f)))) lhs (0 + 1) _ Or ab axc _ _ _ _
                            Eab Eaxc) as Elhs.
  discharge Elhs.
  (* rhs = ((b & c) ^ -1) & a *)
  match type of Elhs with _ = (Some _, ?h) =>
    assert (inv6 : helper_inv kind h) by walk_inv inv0 Elhs;
    match type of Eb with _ = (Some ?nb, _) =>
      assert (Eb4 : getLogicalOpNode_rec kind MaxLeafs MaxDepth (S (S f))
                      b (0 + 1 + 1 + 1 + 1) h = (Some nb, h))
        by (apply walk_cached; side_condition)
    end;
    match type of Ec with _ = (Some ?nc, _) =>
      assert (Ec4 : getLogicalOpNode_rec kind MaxLeafs MaxDepth (S (S f))
                      c (0 + 1 + 1 + 1 + 1) h = (Some nc, h))
        by (apply walk_cached; side_condition)
    end
  end.
  pose proof (walk_logic_op (S (S f)) bc (0 + 1 + 1 + 1) _ And b c _ _ _ _
                            Eb4 Ec4) as Ebc.
  discharge Ebc.
  match type of Ebc with _ = (Some _, ?h) =>
    assert (inv7 : helper_inv kind h) by walk_inv inv6 Ebc
  end.
  pose proof (walk_all_ones (S (S f)) AllOnes (0 + 1 + 1 + 1) _ inv7) as Eones.
  discharge Eones.
  pose proof (walk_logic_op (S (S (S f))) nbc (0 + 1 + 1) _ Xor bc AllOnes
                            _ _ _ _ Ebc Eones) as Enbc.
  discharge Enbc.
  match type of Enbc with _ = (Some _, ?h) =>
    assert (Ea2 : getLogicalOpNode_rec kind MaxLeafs MaxDepth
                    (S (S (S (S f)))) a (0 + 1 + 1) h
                  = (Some (tabled_leaf_node a LogicalOpsHelper_new), h))
      by (apply walk_cached; side_condition)
  end.
  pose proof (walk_logic_op (S (S (S (S f)))) rhs (0 + 1) _ And nbc a _ _ _ _
                            Enbc Ea2) as Erhs.
  discharge Erhs.
  pose proof (walk_logic_op (S (S (S (S (S f))))) Root 0 _ Xor lhs rhs _ _ _ _
                            Elhs Erhs) as ERoot.
  discharge ERoot.
  unfold simplify, getLogicalOpNode. rewrite Hf, ERoot.
  destruct (N.leb_spec MaxLeafs 62) as [_ | Hgt]; [| lia].
  cbn [fst snd negb fmap option_fmap option_map].
  split; [reflexivity |]. split; [vm_compute; reflexivity |].
  match goal with
  | |- context [logicalOpToValue _ _ _ ?h ?n] =>
      replace (logicalOpToValue getType getNullValue getAllOnesValue h n)
        with (Returns (Some c)) by (vm_compute; reflexivity)
  end.
  destruct (decide (Some c = Some Root)) as [[= Heq] | _]; [| done].
  congruence.
Qed.

End HelperProofs.

(** ** What the bounds and the caches do to a walk *)

Section Walks.

Context {Value : Type} `{Countable Value}.
Variable kind : Value -> ValueKind Value.
Variable MaxLeafs : N.
Variable MaxDepth : N.

Implicit Types (h : LogicalOpsHelper Value) (Val Leaf : Value)
               (Node : LogicalOpNode Value).

Lemma getLogicalOpNode_again Val Depth h Node h1 h2 Depth' :
  getLogicalOpNode kind MaxLeafs MaxDepth Val Depth h = (Some Node, h1) ->
  extends h1 h2 ->
  Depth' <> MaxDepth ->
  getLogicalOpNode kind MaxLeafs MaxDepth Val Depth' h2 = (Some Node, h2).
Proof.
  intros Hwalk (Hnodes & _) Hne.
  apply getLogicalOpNode_rec_cached in Hwalk.
  unfold getLogicalOpNode. by apply walk_cached, Hnodes.
Qed.

(** X16. A node returned by [getLogicalOpNode] is memoised: in every later
    state of the helper a call on the same value, at any depth other than
    the maximal one, returns that very node and leaves the helper as it
    is. *)
Theorem getLogicalOpNode_memoized Val Depth h Node h1 h2 Depth' :
  getLogicalOpNode kind MaxLeafs MaxDepth Val Depth h = (Some Node, h1) ->
  extends h1 h2 ->
  Depth' <> MaxDepth ->
  getLogicalOpNode kind MaxLeafs MaxDepth Val Depth' h2 = (Some Node, h2).
Proof. apply getLogicalOpNode_again. Qed.

Lemma getLogicalOpNode_some_depth Val Depth h Node h1 :
  getLogicalOpNode kind MaxLeafs MaxDepth Val Depth h = (Some Node, h1) ->
  Depth <> MaxDepth.
Proof.
  unfold getLogicalOpNode. simpl. intros Hwalk ->.
  by rewrite N.eqb_refl in Hwalk.
Qed.

Hypothesis MaxLeafs_le : MaxLeafs <= 62.

Lemma visitLeafNode_leaf_count Val Depth h :
  helper_inv kind h ->
  N.of_nat (length (LeafValues h)) <= MaxLeafs + 1 ->
  N.of_nat (length (LeafValues (visitLeafNode kind MaxLeafs Val Depth h).2))
  <= MaxLeafs + 1.
Proof.
  intros Hinv Hlen. unfold visitLeafNode.
  destruct (Depth =? 0); [done |]. simpl.
  destruct (N.ltb_spec MaxLeafs (N.of_nat (size (LeafSet h)))) as [| Hsize];
    [done |].
  rewrite (leaf_set_size kind h Hinv) in Hsize.
  match goal with
  | |- context [if ?c then _ else h] => destruct c
  end; [| done].
  simpl. case_decide; [done |]. rewrite length_app. simpl. lia.
Qed.

Lemma getLogicalOpNode_rec_leaf_count fuel : forall Val Depth h,
  helper_inv kind h ->
  N.of_nat (length (LeafValues h)) <= MaxLeafs + 1 ->
  N.of_nat (length (LeafValues
    (getLogicalOpNode_rec kind MaxLeafs MaxDepth fuel Val Depth h).2))
  <= MaxLeafs + 1.
Proof.
  induction fuel as [| fuel IH]; intros Val Depth h Hinv Hlen; simpl; [done |].
  destruct (Depth =? MaxDepth); [done |].
  destruct (LogicalOpNodes h !! Val) as [Node |] eqn:Hcache; [done |].
  pose proof (visitLeafNode_leaf_count Val Depth h Hinv Hlen) as Hleaf.
  destruct (kind Val) as [Opcode Op0 Op1 | isZero isAllOnes |] eqn:Hk.
  - unfold visitBinOp.
    destruct (is_logic_op Opcode) eqn:Hop; simpl.
    + pose proof (getLogicalOpNode_rec_inv kind MaxLeafs MaxDepth
                    MaxLeafs_le fuel Op0 (Depth + 1) h Hinv) as Hinv1.
      pose proof (IH Op0 (Depth + 1) h Hinv Hlen) as Hlen1.
      destruct (getLogicalOpNode_rec kind MaxLeafs MaxDepth fuel Op0 (Depth + 1) h)
        as [[LHS |] h1] eqn:E1; [| done].
      simpl in Hinv1, Hlen1.
      pose proof (IH Op1 (Depth + 1) h1 Hinv1 Hlen1) as Hlen2.
      destruct (getLogicalOpNode_rec kind MaxLeafs MaxDepth fuel Op1 (Depth + 1) h1)
        as [[RHS |] h2] eqn:E2; [| done].
      done.
    + destruct (visitLeafNode kind MaxLeafs Val Depth h) as [[? |] h1]; done.
  - destruct (visitLeafNode kind MaxLeafs Val Depth h) as [[? |] h1]; done.
  - destruct (visitLeafNode kind MaxLeafs Val Depth h) as [[? |] h1]; done.
Qed.

(** X17. The leaf table never holds more than [MaxLeafs + 1] values: the
    bound is tested with [>] before a leaf is added, so the table can
    exceed [MaxLeafs] by one value and not by more. *)
Theorem leaf_count_bound h :
  reachable kind MaxLeafs MaxDepth h ->
  N.of_nat (length (LeafValues h)) <= MaxLeafs + 1.
Proof.
  induction 1 as [| h Val Depth Hr IH].
  - simpl. lia.
  - apply getLogicalOpNode_rec_leaf_count; [| done].
    by apply (reachable_inv kind MaxLeafs MaxDepth MaxLeafs_le).
Qed.

Context {Ty : Type}.
Variable getType : Value -> Ty.
Variable getNullValue : Ty -> Value.
Variable getAllOnesValue : Ty -> Value.

(** X18. A replacement is made only after a complete scan: when [simplify]
    returns a new root, no call of the walk from the root was cut off,
    neither at the maximal depth nor on a value that is no and/or/xor
    operator at depth 0 or with more than [MaxLeafs] leaves tabled. *)
Theorem replacement_needs_full_scan Root h cnt NewRoot st y :
  simplify kind getType getNullValue getAllOnesValue MaxLeafs MaxDepth Root
    (h, cnt) = (Returns (Some NewRoot), st) ->
  rtc (nested_call kind MaxLeafs MaxDepth) (Root, 0, h) y ->
  ~ cut_off kind MaxLeafs MaxDepth y.
Proof.
  clear MaxLeafs_le. intros Hsimp Hcalls Hcut.
  pose proof (cut_off_propagates kind MaxLeafs MaxDepth _ _ Hcalls Hcut
                ltac:(simpl; lia)) as Hnone.
  simpl in Hnone. unfold simplify in Hsimp.
  destruct (negb (MaxLeafs <=? 62)); [done |].
  by destruct (getLogicalOpNode kind MaxLeafs MaxDepth Root 0 h)
    as [[Node |] h1]; [discriminate Hnone |].
Qed.

(** X19. A root that cannot be scanned is left alone and so is the helper:
    with a maximal depth of 0, or on a root that is neither cached nor an
    and/or/xor operator (a constant, an argument, any other instruction),
    [simplify] returns "no change" and neither the caches nor the statistic
    change. *)
Theorem simplify_unscanned_root Root h cnt :
  MaxDepth = 0 \/
  (LogicalOpNodes h !! Root = None /\
   forall Opcode Op0 Op1,
     kind Root = BinaryOperator Opcode Op0 Op1 -> is_logic_op Opcode = false) ->
  simplify kind getType getNullValue getAllOnesValue MaxLeafs MaxDepth Root
    (h, cnt) = (Returns None, (h, cnt)).
Proof.
  intros Hroot. unfold simplify.
  destruct (N.leb_spec MaxLeafs 62) as [_ | Hgt]; [| lia].
  unfold getLogicalOpNode. simpl.
  destruct MaxDepth as [| p]; [done |].
  destruct Hroot as [Heq | [Hnone Hkind]]; [done |].
  rewrite Hnone.
  destruct (kind Root) as [Opcode Op0 Op1 | |] eqn:Hk; [| done | done].
  unfold visitBinOp. by rewrite (Hkind _ _ _ eq_refl).
Qed.

(** X20. [X ^ X] is replaced by the null value of its type, whatever [X] is:
    when the walk gives a node for [X] at depth 1, [simplify] on an uncached
    exclusive or of [X] with itself returns the null value, caches the empty
    polynomial for the root and counts one simplification. *)
Theorem simplify_xor_self Root X h cnt LHS h1 :
  MaxDepth <> 0 ->
  LogicalOpNodes h !! Root = None ->
  kind Root = BinaryOperator Xor X X ->
  getLogicalOpNode kind MaxLeafs MaxDepth X 1 h = (Some LHS, h1) ->
  getNullValue (getType Root) <> Root ->
  simplify kind getType getNullValue getAllOnesValue MaxLeafs MaxDepth Root
    (h, cnt)
  = (Returns (Some (getNullValue (getType Root))),
     (store_node {| getValue := Root; getExpr := LogicalExpr_of_chain ∅ |} h1,
      cnt + 1)).
Proof.
  intros HD Hnone Hk Hwalk Hnull. unfold simplify.
  destruct (N.leb_spec MaxLeafs 62) as [_ | Hgt]; [| lia].
  cbn [negb].
  pose proof (getLogicalOpNode_some_depth _ _ _ _ _ Hwalk) as HD1.
  pose proof (getLogicalOpNode_again _ _ _ _ _ h1 1 Hwalk
                (extends_refl h1) HD1) as Hagain.
  rewrite getLogicalOpNode_unfold by lia.
  rewrite Hnone, Hk. unfold visitBinOp. cbn [is_logic_op negb].
  change (0 + 1) with 1. rewrite Hwalk, Hagain.
  assert (Hexpr : op_xor (getExpr LHS) (getExpr LHS) = LogicalExpr_of_chain ∅).
  { unfold op_xor, op_add, add_assign, LogicalExpr_of_chain.
    cbn [AddChain]. by rewrite add_chain_self. }
  rewrite Hexpr. unfold store_node at 1. cbn [LogicalOpNodes].
  rewrite lookup_insert_eq.
  unfold logicalOpToValue. cbn [getExpr getValue].
  unfold expr_size at 1, LogicalExpr_of_chain at 1. cbn [AddChain].
  rewrite size_empty. change (N.of_nat 0 =? 0) with true. cbv iota.
  by case_decide as Heq; [injection Heq as Heq |].
Qed.

End Walks.

(** ** The builder and the driver preserve the meaning of the expression *)

Section Soundness.

Context {Value : Type} `{Countable Value}.
Variable kind : Value -> ValueKind Value.
Variable MaxLeafs : N.
Variable MaxDepth : N.
Variable bit : Value -> bool.

Implicit Types (h : LogicalOpsHelper Value) (Val Leaf : Value)
               (Node : LogicalOpNode Value).

Lemma eval_mask_env_ext env1 env2 m :
  (forall i : nat, (i < 62)%nat -> N.testbit m (N.of_nat i) = true ->
                   env1 i = env2 i) ->
  eval_mask env1 m = eval_mask env2 m.
Proof.
  intros Hext. unfold eval_mask. f_equal.
  apply forallb_ext_in. intros i Hi%in_seq.
  destruct (N.testbit m (N.of_nat i)) eqn:Hb; [| done].
  simpl. apply Hext; [lia | done].
Qed.

(** The value of a polynomial whose bits index the leaf table does not
    change when leaves are appended to the table. *)
Lemma eval_chain_extends h h' Val (S : ExprAddChain) :
  LeafValues h `prefix_of` LeafValues h' ->
  (forall m, m ∈ S -> mask_ok kind h Val m) ->
  eval_chain (leaf_env bit h') S = eval_chain (leaf_env bit h) S.
Proof.
  intros Hpre Hok. unfold eval_chain. apply xor_sum_ext.
  intros m Hm%elem_of_elements. apply eval_mask_env_ext.
  intros i Hi Hb.
  destruct (Hok m Hm) as [-> | [-> | [_ Hbits]]].
  - rewrite ExprZero_pow2, N.pow2_bits_eqb in Hb.
    destruct (N.eqb_spec 62 (N.of_nat i)); [lia | done].
  - rewrite ExprAllOne_pow2, N.pow2_bits_eqb in Hb.
    destruct (N.eqb_spec 63 (N.of_nat i)); [lia | done].
  - destruct (Hbits _ Hb) as (Leaf & Hl & _). rewrite Nat2N.id in Hl.
    unfold leaf_env. by rewrite Hl, (prefix_lookup_Some _ _ _ _ Hl Hpre).
Qed.

Lemma store_node_sound h Node :
  nodes_sound bit h ->
  eval_expr (leaf_env bit h) (getExpr Node) = bit (getValue Node) ->
  nodes_sound bit (store_node Node h).
Proof.
  intros Hs Hnode Val Node'. unfold store_node. simpl.
  rewrite lookup_insert. case_decide as Heq.
  - by intros [= <-]; subst Val.
  - apply Hs.
Qed.

Lemma table_leaf_sound h Val :
  helper_inv kind h -> nodes_sound bit h ->
  (length (LeafValues h) < 62)%nat ->
  nodes_sound bit (table_leaf Val h).
Proof.
  intros Hinv Hs Hlen Val' Node. unfold table_leaf, store_node. simpl.
  set (h' := {| LogicalOpNodes := _; LeafSet := _; LeafValues := _ |}).
  assert (Hpre : LeafValues h `prefix_of` LeafValues h')
    by (by apply prefix_app_r).
  rewrite lookup_insert. case_decide as Heq.
  - intros [= <-]. subst Val'. unfold eval_expr, tabled_leaf_node. simpl.
    unfold eval_chain. rewrite elements_singleton. cbn [xor_sum].
    rewrite xorb_false_r, eval_mask_leaf_bit by done.
    unfold leaf_env. simpl. rewrite lookup_app_r by lia.
    by rewrite Nat.sub_diag.
  - intros Hn. rewrite <- (Hs Val' Node Hn). unfold eval_expr.
    apply (eval_chain_extends h _ Val'); [done |].
    intros m Hm. by apply (inv_masks _ _ Hinv Val' Node).
Qed.

Hypothesis MaxLeafs_le : MaxLeafs <= 61.
Hypothesis bit_ok : bit_consistent kind bit.

Lemma MaxLeafs_le_62 : MaxLeafs <= 62.
Proof. lia. Qed.

Lemma visitLeafNode_sound Val Depth h :
  helper_inv kind h -> nodes_sound bit h ->
  LogicalOpNodes h !! Val = None ->
  (forall Opcode Op0 Op1,
      kind Val = BinaryOperator Opcode Op0 Op1 -> is_logic_op Opcode = false) ->
  nodes_sound bit (visitLeafNode kind MaxLeafs Val Depth h).2.
Proof.
  intros Hinv Hs Hnone Hnl.
  destruct (is_opaque_leaf kind Val) eqn:Hop.
  - destruct (N.eq_dec Depth 0) as [-> | HD]; [done |].
    destruct (N.lt_ge_cases MaxLeafs (N.of_nat (length (LeafValues h))))
      as [Hlt | Hge].
    + unfold visitLeafNode. rewrite (leaf_set_size kind h Hinv).
      apply N.ltb_lt in Hlt. rewrite Hlt. by rewrite orb_true_r.
    + rewrite (visitLeafNode_opaque kind MaxLeafs MaxLeafs_le_62 Val Depth h)
        by (done || lia).
      apply table_leaf_sound; [done | done | lia].
  - unfold visitLeafNode.
    destruct ((Depth =? 0) || (MaxLeafs <? N.of_nat (size (LeafSet h))));
      [done |].
    destruct bit_ok as (_ & Hzero & Hones).
    unfold is_opaque_leaf in Hop.
    destruct (kind Val) as [Opcode Op0 Op1 | [] isAllOnes |] eqn:Hk;
      [by rewrite (Hnl _ _ _ eq_refl) in Hop | | | done].
    + simpl. apply store_node_sound; [done |]. simpl.
      rewrite (Hzero Val isAllOnes Hk).
      apply eval_expr_of_mask_zero.
    + destruct isAllOnes; [| done]. simpl.
      apply store_node_sound; [done |]. simpl. rewrite (Hones Val Hk).
      apply eval_expr_of_mask_all_one.
Qed.

Lemma getLogicalOpNode_rec_sound fuel : forall Val Depth h,
  helper_inv kind h -> nodes_sound bit h ->
  nodes_sound bit (getLogicalOpNode_rec kind MaxLeafs MaxDepth fuel Val Depth h).2.
Proof.
  induction fuel as [| fuel IH]; intros Val Depth h Hinv Hs; simpl; [done |].
  destruct (Depth =? MaxDepth); [done |].
  destruct (LogicalOpNodes h !! Val) as [Node |] eqn:Hcache; [done |].
  assert (Hleaf :
    (forall Opcode Op0 Op1,
        kind Val = BinaryOperator Opcode Op0 Op1 -> is_logic_op Opcode = false) ->
    nodes_sound bit (visitLeafNode kind MaxLeafs Val Depth h).2)
    by (by apply visitLeafNode_sound).
  destruct (kind Val) as [Opcode Op0 Op1 | isZero isAllOnes |] eqn:Hk.
  - unfold visitBinOp.
    destruct (is_logic_op Opcode) eqn:Hop; simpl.
    + pose proof (getLogicalOpNode_rec_inv kind MaxLeafs MaxDepth
                    MaxLeafs_le_62 fuel Op0 (Depth + 1) h Hinv) as Hinv1.
      pose proof (IH Op0 (Depth + 1) h Hinv Hs) as Hs1.
      destruct (getLogicalOpNode_rec kind MaxLeafs MaxDepth fuel Op0 (Depth + 1) h)
        as [[LHS |] h1] eqn:E1; [| done].
      simpl in Hinv1, Hs1.
      pose proof (getLogicalOpNode_rec_inv kind MaxLeafs MaxDepth
                    MaxLeafs_le_62 fuel Op1 (Depth + 1) h1 Hinv1) as Hinv2.
      pose proof (IH Op1 (Depth + 1) h1 Hinv1 Hs1) as Hs2.
      pose proof (getLogicalOpNode_rec_extends kind MaxLeafs MaxDepth
                    fuel Op1 (Depth + 1) h1) as Hext.
      destruct (getLogicalOpNode_rec kind MaxLeafs MaxDepth fuel Op1 (Depth + 1) h1)
        as [[RHS |] h2] eqn:E2; [| done].
      simpl in Hinv2, Hs2, Hext.
      apply getLogicalOpNode_rec_cached in E1, E2.
      assert (HL : eval_expr (leaf_env bit h2) (getExpr LHS) = bit Op0).
      { rewrite <- (Hs1 Op0 LHS E1). unfold eval_expr.
        apply (eval_chain_extends h1 h2 Op0); [apply Hext |].
        intros m Hm. by apply (inv_masks _ _ Hinv1 Op0 LHS). }
      assert (HR : eval_expr (leaf_env bit h2) (getExpr RHS) = bit Op1)
        by (by apply Hs2).
      destruct bit_ok as (Hbin & _).
      pose proof (Hbin Val Opcode Op0 Op1 Hk Hop) as Hbit.
      destruct Opcode; try discriminate Hop; simpl;
        (apply store_node_sound; [done |]); simpl; rewrite Hbit, <- HL, <- HR.
      * apply eval_expr_op_and.
      * apply eval_expr_op_or.
      * apply eval_expr_op_xor.
    + assert (Hs1 := Hleaf ltac:(by intros ? ? ? [= -> _ _])).
      destruct (visitLeafNode kind MaxLeafs Val Depth h) as [[? |] h1]; done.
  - assert (Hs1 := Hleaf ltac:(done)).
    destruct (visitLeafNode kind MaxLeafs Val Depth h) as [[? |] h1]; done.
  - assert (Hs1 := Hleaf ltac:(done)).
    destruct (visitLeafNode kind MaxLeafs Val Depth h) as [[? |] h1]; done.
Qed.

Lemma reachable_nodes_sound h :
  reachable kind MaxLeafs MaxDepth h -> nodes_sound bit h.
Proof.
  induction 1 as [| h Val Depth Hr IH].
  - intros Val Node Hn. simpl in Hn. by rewrite lookup_empty in Hn.
  - apply getLogicalOpNode_rec_sound; [| done].
    by apply (reachable_inv kind MaxLeafs MaxDepth MaxLeafs_le_62).
Qed.

(** X21. With at most 61 leaves allowed, every polynomial the builder has
    cached computes its value: under any assignment of truth values that
    follows the and/or/xor operators of the host and the two constants, the
    value of the cached polynomial of [Val], read with the truth values of
    the tabled leaves, is the truth value of [Val]. *)
Theorem cached_polynomials_sound h :
  reachable kind MaxLeafs MaxDepth h -> nodes_sound bit h.
Proof. apply reachable_nodes_sound. Qed.

Context {Ty : Type}.
Variable getType : Value -> Ty.
Variable getNullValue : Ty -> Value.
Variable getAllOnesValue : Ty -> Value.

Lemma logicalOpToValue_sound h Val Node NewVal :
  helper_inv kind h -> nodes_sound bit h ->
  LogicalOpNodes h !! Val = Some Node ->
  bit (getNullValue (getType Val)) = false ->
  bit (getAllOnesValue (getType Val)) = true ->
  logicalOpToValue getType getNullValue getAllOnesValue h Node
  = Returns (Some NewVal) ->
  bit NewVal = bit Val.
Proof.
  intros Hinv Hs Hn Hnull Hones. unfold logicalOpToValue.
  rewrite (inv_keys _ _ Hinv Val Node Hn).
  rewrite <- (Hs Val Node Hn). unfold eval_expr.
  destruct (N.eqb_spec (expr_size (getExpr Node)) 0) as [Hs0 | _].
  { intros [= <-]. by rewrite (proj1 (expr_size_0 _) Hs0). }
  destruct (N.eqb_spec (expr_size (getExpr Node)) 1) as [Hs1 | _]; [| done].
  destruct (expr_size_1 _ Hs1) as [m Hm].
  destruct (expr_singleton _ m Hm) as [_ ->].
  rewrite Hm, eval_chain_singleton.
  destruct (N.eqb_spec m ExprZero) as [-> | HZ].
  { intros [= <-]. by rewrite eval_mask_zero_bit. }
  destruct (N.eqb_spec m ExprAllOne) as [-> | HA].
  { intros [= <-]. by rewrite eval_mask_AllOne. }
  destruct (N.eqb_spec (popcount m) 1) as [Hpop | _]; [| done].
  destruct (one_hot_mask_lookup kind h Val Node m) as (Leaf & Hl & _);
    [done | done | rewrite Hm; by apply elem_of_singleton | done .. |].
  rewrite Hl. intros [= <-].
  pose proof (lookup_lt_Some _ _ _ Hl) as Hlt.
  pose proof (inv_leaf_count _ _ Hinv) as Hcnt.
  rewrite (popcount_1_pow2 m Hpop), <- N.shiftl_1_l.
  rewrite <- (N2Nat.id (Log2_64 m)), eval_mask_leaf_bit by lia.
  unfold leaf_env. by rewrite Hl.
Qed.

(** X22. With at most 61 leaves allowed, a replacement returned by
    [simplify] is equivalent to the root: under any assignment of truth
    values that follows the and/or/xor operators of the host, is false on the
    null value and true on the all-ones value of the type of the root, the
    new root has the truth value of the root. *)
Theorem simplify_sound Root h cnt NewRoot st :
  reachable kind MaxLeafs MaxDepth h ->
  bit (getNullValue (getType Root)) = false ->
  bit (getAllOnesValue (getType Root)) = true ->
  simplify kind getType getNullValue getAllOnesValue MaxLeafs MaxDepth Root
    (h, cnt) = (Returns (Some NewRoot), st) ->
  bit NewRoot = bit Root.
Proof.
  intros Hr Hnull Hones. unfold simplify.
  destruct (negb (MaxLeafs <=? 62)); [done |].
  pose proof (reachable_nodes_sound _ (reachable_walk _ _ _ h Root 0 Hr))
    as Hs1.
  pose proof (reachable_inv kind MaxLeafs MaxDepth MaxLeafs_le_62 _
                (reachable_walk _ _ _ h Root 0 Hr)) as Hinv1.
  destruct (getLogicalOpNode kind MaxLeafs MaxDepth Root 0 h)
    as [[RootNode |] h1] eqn:Ewalk; [| done].
  simpl in Hs1, Hinv1.
  apply getLogicalOpNode_rec_cached in Ewalk.
  destruct (logicalOpToValue getType getNullValue getAllOnesValue h1 RootNode)
    as [r | |] eqn:Eto; [| done | done].
  case_decide; [done |]. intros [= -> _].
  by eapply logicalOpToValue_sound.
Qed.

End Soundness.

(** ** Canonical polynomials in the caches, and what the reconstruction finds *)

Section Complete.

Context {Value : Type} `{Countable Value} {Ty : Type}.
Variable getType : Value -> Ty.
Variable getNullValue : Ty -> Value.
Variable getAllOnesValue : Ty -> Value.

(** X23. On canonical polynomials [logicalOpToValue] misses nothing: when
    the polynomial of a node is false under every assignment of truth
    values to the leaves, the null value is returned; when it is true under
    every assignment, the all-ones value; and when it always has the value
    of the leaf [k], the leaf the table holds at [k]. *)
Theorem logicalOpToValue_complete (h : LogicalOpsHelper Value)
    (Node : LogicalOpNode Value) :
  canonical_chain (AddChain (getExpr Node)) ->
  ((forall env, eval_expr env (getExpr Node) = false) ->
   logicalOpToValue getType getNullValue getAllOnesValue h Node
   = Returns (Some (getNullValue (getType (getValue Node))))) /\
  ((forall env, eval_expr env (getExpr Node) = true) ->
   logicalOpToValue getType getNullValue getAllOnesValue h Node
   = Returns (Some (getAllOnesValue (getType (getValue Node))))) /\
  (forall (k : nat) Leaf,
     (k < 62)%nat -> LeafValues h !! k = Some Leaf ->
     (forall env, eval_expr env (getExpr Node) = env k) ->
     logicalOpToValue getType getNullValue getAllOnesValue h Node
     = Returns (Some Leaf)).
Proof.
  intros Hc. unfold logicalOpToValue. cbv zeta. repeat apply conj.
  - intros Hfalse.
    assert (Hchain : AddChain (getExpr Node) = ∅).
    { apply canonical_chain_unique; [done | by intros m Hm |].
      intros env. exact (Hfalse env). }
    by rewrite (proj2 (expr_size_0 _) Hchain).
  - intros Htrue.
    assert (Hchain : AddChain (getExpr Node) = {[ ExprAllOne ]}).
    { apply canonical_chain_unique; [done | apply canonical_AllOne |].
      intros env. rewrite eval_chain_singleton, eval_mask_AllOne.
      apply Htrue. }
    destruct (expr_singleton _ _ Hchain) as [-> ->]. done.
  - intros k Leaf Hk Hl Hleaf.
    assert (Hpow : N.shiftl 1 (N.of_nat k) = 2 ^ N.of_nat k)
      by apply N.shiftl_1_l.
    assert (Hlt : 2 ^ N.of_nat k < 2 ^ 62)
      by (apply N.pow_lt_mono_r; lia).
    assert (Hchain : AddChain (getExpr Node) = {[ N.shiftl 1 (N.of_nat k) ]}).
    { apply canonical_chain_unique; [done | |].
      - intros m ->%elem_of_singleton. right. rewrite Hpow.
        split; [apply N.pow_nonzero; lia | done].
      - intros env. rewrite eval_chain_singleton, eval_mask_leaf_bit by done.
        apply Hleaf. }
    destruct (expr_singleton _ _ Hchain) as [-> ->]. rewrite Hpow.
    destruct (N.eqb_spec (2 ^ N.of_nat k) ExprZero) as [Heq | _].
    { rewrite ExprZero_pow2 in Heq. lia. }
    destruct (N.eqb_spec (2 ^ N.of_nat k) ExprAllOne) as [Heq | _].
    { rewrite ExprAllOne_pow2 in Heq. rewrite Heq in Hlt.
      apply N.pow_lt_mono_r_iff in Hlt; lia. }
    rewrite popcount_pow2. unfold Log2_64.
    rewrite N.log2_pow2 by lia. by rewrite Nat2N.id, Hl.
Qed.

End Complete.

Section CanonicalNodes.

Context {Value : Type} `{Countable Value}.
Variable kind : Value -> ValueKind Value.
Variable MaxLeafs : N.
Variable MaxDepth : N.

Implicit Types (h : LogicalOpsHelper Value) (Val Leaf : Value)
               (Node : LogicalOpNode Value).

Lemma store_node_canonical h Node :
  nodes_canonical h -> canonical_chain (AddChain (getExpr Node)) ->
  nodes_canonical (store_node Node h).
Proof.
  intros Hc Hnode Val Node'. unfold store_node. simpl.
  rewrite lookup_insert. case_decide as Heq; [by intros [= <-] | apply Hc].
Qed.

Hypothesis MaxLeafs_le : MaxLeafs <= 61.
Hypothesis no_zero_constant :
  forall Val isAllOnesValue, kind Val <> ConstantInt true isAllOnesValue.

Lemma visitLeafNode_canonical Val Depth h :
  helper_inv kind h -> nodes_canonical h ->
  nodes_canonical (visitLeafNode kind MaxLeafs Val Depth h).2.
Proof.
  intros Hinv Hc. unfold visitLeafNode.
  destruct (Depth =? 0); [done |]. simpl.
  destruct (N.ltb_spec MaxLeafs (N.of_nat (size (LeafSet h)))) as [| Hsize];
    [done |].
  pose proof (leaf_set_size kind h Hinv) as Hlen.
  assert (Hbit : canonical_chain
                   (AddChain (LogicalExpr_of_mask (leaf_bit h)))).
  { intros m Hm. cbn [AddChain LogicalExpr_of_mask] in Hm.
    apply elem_of_singleton in Hm as ->. right. unfold leaf_bit.
    rewrite N.shiftl_1_l.
    assert (Hlt : 2 ^ N.of_nat (size (LeafSet h)) < 2 ^ 62)
      by (apply N.pow_lt_mono_r; lia).
    rewrite N.mod_small by (etrans; [exact Hlt | done]).
    split; [apply N.pow_nonzero; lia | done]. }
  assert (Hstore : forall h',
            LogicalOpNodes h' = LogicalOpNodes h ->
            forall E, canonical_chain (AddChain E) ->
            nodes_canonical (store_node {| getValue := Val; getExpr := E |} h')).
  { intros h' Hnodes E HE. apply store_node_canonical; [| done].
    intros Val' Node'. rewrite Hnodes. apply Hc. }
  destruct (kind Val) as [Opcode Op0 Op1 | [] [] |] eqn:Hk;
    try (by destruct (no_zero_constant Val _ Hk));
    match goal with
    | |- context [if ?c then _ else h] => destruct c
    end; apply Hstore; try done; apply canonical_AllOne.
Qed.

Lemma getLogicalOpNode_rec_canonical fuel : forall Val Depth h,
  helper_inv kind h -> nodes_canonical h ->
  nodes_canonical (getLogicalOpNode_rec kind MaxLeafs MaxDepth fuel Val Depth h).2.
Proof.
  assert (Hle : MaxLeafs <= 62) by lia.
  induction fuel as [| fuel IH]; intros Val Depth h Hinv Hc; simpl; [done |].
  destruct (Depth =? MaxDepth); [done |].
  destruct (LogicalOpNodes h !! Val) as [Node |] eqn:Hcache; [done |].
  pose proof (visitLeafNode_canonical Val Depth h Hinv Hc) as Hleaf.
  destruct (kind Val) as [Opcode Op0 Op1 | isZero isAllOnes |] eqn:Hk.
  - unfold visitBinOp.
    destruct (is_logic_op Opcode) eqn:Hop; simpl.
    + pose proof (getLogicalOpNode_rec_inv kind MaxLeafs MaxDepth
                    Hle fuel Op0 (Depth + 1) h Hinv) as Hinv1.
      pose proof (IH Op0 (Depth + 1) h Hinv Hc) as Hc1.
      destruct (getLogicalOpNode_rec kind MaxLeafs MaxDepth fuel Op0 (Depth + 1) h)
        as [[LHS |] h1] eqn:E1; [| done].
      simpl in Hinv1, Hc1.
      pose proof (IH Op1 (Depth + 1) h1 Hinv1 Hc1) as Hc2.
      pose proof (getLogicalOpNode_rec_extends kind MaxLeafs MaxDepth
                    fuel Op1 (Depth + 1) h1) as Hext.
      destruct (getLogicalOpNode_rec kind MaxLeafs MaxDepth fuel Op1 (Depth + 1) h1)
        as [[RHS |] h2] eqn:E2; [| done].
      simpl in Hc2, Hext.
      apply getLogicalOpNode_rec_cached in E1, E2.
      assert (HL : canonical_chain (AddChain (getExpr LHS)))
        by (apply (Hc2 Op0), Hext, E1).
      assert (HR : canonical_chain (AddChain (getExpr RHS)))
        by (by apply (Hc2 Op1)).
      destruct Opcode; try discriminate Hop; simpl;
        (apply store_node_canonical; [done |]); simpl.
      * by apply canonical_mul_chain.
      * repeat apply canonical_add_chain; try done.
        by apply canonical_mul_chain.
      * by apply canonical_add_chain.
    + destruct (visitLeafNode kind MaxLeafs Val Depth h) as [[? |] h1]; done.
  - destruct (visitLeafNode kind MaxLeafs Val Depth h) as [[? |] h1]; done.
  - destruct (visitLeafNode kind MaxLeafs Val Depth h) as [[? |] h1]; done.
Qed.

(** X24. With at most 61 leaves allowed and no zero constant in the
    expressions, every cached polynomial is canonical: each and-chain is
    the all-ones sentinel alone or a non-empty set of leaf bits. *)
Theorem cached_polynomials_canonical h :
  reachable kind MaxLeafs MaxDepth h -> nodes_canonical h.
Proof.
  assert (Hle : MaxLeafs <= 62) by lia.
  induction 1 as [| h Val Depth Hr IH].
  - intros Val Node Hn. simpl in Hn. by rewrite lookup_empty in Hn.
  - apply getLogicalOpNode_rec_canonical; [| done].
    by apply (reachable_inv kind MaxLeafs MaxDepth Hle).
Qed.

End CanonicalNodes.

(** ** Printing *)

Section PrintingProofs.

Context {Value : Type} `{Countable Value}.
Variable isConstant : Value -> bool.
Variable printIR : Value -> string.
Variable getName : Value -> string.

Implicit Types (h : LogicalOpsHelper Value) (p q : positive) (k i n : nat).

Abbreviation print_value := (printValue isConstant printIR getName).

Lemma Pos_iter_xO k p : N.pos (Nat.iter k xO p) = N.pos p * 2 ^ N.of_nat k.
Proof.
  induction k as [| k IH].
  - simpl. lia.
  - rewrite Nat2N.inj_succ, N.pow_succ_r'. simpl Nat.iter.
    change (N.pos (xO (Nat.iter k xO p))) with (2 * N.pos (Nat.iter k xO p)).
    rewrite IH. lia.
Qed.

Lemma countr_zero_iter_xO k p :
  countr_zero (N.pos (Nat.iter k xO p)) = N.of_nat k + Pos_countr_zero p.
Proof.
  induction k as [| k IH].
  - simpl. lia.
  - simpl Nat.iter. simpl countr_zero. simpl in IH. rewrite IH. lia.
Qed.

Lemma Pos_bits_not_nil p k : Pos_bits p k <> [].
Proof. revert k. induction p as [q IH | q IH |]; intros k; simpl; done. Qed.

Lemma separated_cons sep x l :
  l <> [] -> separated sep (x :: l) = x :: sep :: separated sep l.
Proof. by destruct l. Qed.

Lemma Pos_popcount_positive p : 0 < Pos_popcount p.
Proof. induction p; simpl; lia. Qed.

Lemma printAndChain_loop_bits h p : forall k n Leaves,
  Pos_popcount p = N.of_nat (S n) ->
  Forall2 (fun i Leaf => LeafValues h !! i = Some Leaf) (Pos_bits p k) Leaves ->
  printAndChain_loop isConstant printIR getName h n (N.pos (Nat.iter k xO p))
  = Returns (separated " * " (print_value <$> Leaves)).
Proof.
  induction p as [q IH | q IH |]; intros k n Leaves Hpop Hleaves.
  - simpl in Hpop, Hleaves.
    apply Forall2_cons_inv_l in Hleaves as (Leaf & Rest & Hk & Hrest & ->).
    pose proof (Pos_popcount_positive q) as Hq.
    destruct n as [| n]; [lia |].
    assert (Hne : Rest <> []).
    { intros ->. apply Forall2_nil_inv_r in Hrest.
      by apply Pos_bits_not_nil in Hrest. }
    cbn [printAndChain_loop]. cbv zeta.
    rewrite countr_zero_iter_xO. simpl Pos_countr_zero.
    rewrite N.add_0_r, Nat2N.id, Hk.
    replace (N.pos (Nat.iter k xO (xI q)) - N.shiftl 1 (N.of_nat k))
      with (N.pos (Nat.iter (S k) xO q)).
    + rewrite (IH (S k) n Rest) by (done || lia).
      rewrite fmap_cons, separated_cons; [done |].
      by destruct Rest.
    + rewrite N.shiftl_1_l, !Pos_iter_xO, Nat2N.inj_succ, N.pow_succ_r'.
      change (N.pos (xI q)) with (2 * N.pos q + 1). nia.
  - simpl in Hpop, Hleaves.
    replace (Nat.iter k xO (xO q)) with (Nat.iter (S k) xO q)
      by (by rewrite Nat.iter_succ_r).
    by apply IH.
  - simpl in Hpop, Hleaves.
    apply Forall2_cons_inv_l in Hleaves as (Leaf & Rest & Hk & Hrest & ->).
    apply Forall2_nil_inv_l in Hrest as ->.
    destruct n as [| n]; [| lia].
    cbn [printAndChain_loop]. cbv zeta.
    rewrite countr_zero_iter_xO. simpl Pos_countr_zero.
    by rewrite N.add_0_r, Nat2N.id, Hk.
Qed.

Lemma Pos_bits_spec p : forall k i,
  i ∈ Pos_bits p k <->
  (k <= i)%nat /\ N.testbit (N.pos p) (N.of_nat (i - k)) = true.
Proof.
  induction p as [q IH | q IH |]; intros k i; cbn [Pos_bits].
  - rewrite elem_of_cons, IH.
    change (N.pos (xI q)) with (2 * N.pos q + 1).
    destruct (decide (i = k)) as [-> | Hne].
    + rewrite Nat.sub_diag. simpl N.of_nat. rewrite N.testbit_odd_0.
      split; [by intros _ | by left].
    + split.
      * intros [-> | [Hle Hb]]; [done |]. split; [lia |].
        replace (i - k)%nat with (S (i - S k)) by lia.
        by rewrite Nat2N.inj_succ, N.testbit_odd_succ by lia.
      * intros [Hle Hb]. right. split; [lia |].
        replace (i - k)%nat with (S (i - S k)) in Hb by lia.
        by rewrite Nat2N.inj_succ, N.testbit_odd_succ in Hb by lia.
  - rewrite IH. change (N.pos (xO q)) with (2 * N.pos q).
    destruct (decide (i = k)) as [-> | Hne].
    + rewrite Nat.sub_diag. simpl N.of_nat. rewrite N.testbit_even_0.
      split; [lia | by intros [_ ?]].
    + split.
      * intros [Hle Hb]. split; [lia |].
        replace (i - k)%nat with (S (i - S k)) by lia.
        by rewrite Nat2N.inj_succ, N.testbit_even_succ by lia.
      * intros [Hle Hb]. split; [lia |].
        replace (i - k)%nat with (S (i - S k)) in Hb by lia.
        by rewrite Nat2N.inj_succ, N.testbit_even_succ in Hb by lia.
  - rewrite list_elem_of_singleton. change (N.pos xH) with (2 ^ 0).
    rewrite N.pow2_bits_eqb. split.
    + intros ->. rewrite Nat.sub_diag. split; [lia | done].
    + intros [Hle Hb]. apply N.eqb_eq in Hb. lia.
Qed.

(** [mask_bits] lists the set bits, each once and in increasing order. *)
Lemma mask_bits_spec Mask i :
  i ∈ mask_bits Mask <-> N.testbit Mask (N.of_nat i) = true.
Proof.
  destruct Mask as [| p]; simpl.
  - rewrite elem_of_nil. split; [done | discriminate].
  - rewrite Pos_bits_spec, Nat.sub_0_r. split; [by intros [_ ?] |].
    intros Hb. split; [lia | done].
Qed.

Lemma Pos_bits_sorted p : forall k, StronglySorted lt (Pos_bits p k).
Proof.
  induction p as [q IH | q IH |]; intros k; cbn [Pos_bits].
  - constructor; [apply IH |].
    apply Forall_forall. intros i [Hle _]%Pos_bits_spec. lia.
  - apply IH.
  - repeat constructor.
Qed.

Lemma mask_bits_sorted Mask : StronglySorted lt (mask_bits Mask).
Proof. destruct Mask as [| p]; [constructor | apply Pos_bits_sorted]. Qed.

Lemma Pos_bits_log2 p : forall k,
  Pos_popcount p = 1 -> Pos_bits p k = [(k + N.to_nat (N.log2 (N.pos p)))%nat].
Proof.
  induction p as [q IH | q IH |]; intros k Hpop; simpl in Hpop.
  - pose proof (Pos_popcount_positive q). lia.
  - cbn [Pos_bits]. rewrite (IH (S k) Hpop).
    change (N.pos (xO q)) with (2 * N.pos q).
    rewrite N.log2_double by lia. f_equal. lia.
  - simpl. f_equal. lia.
Qed.

Lemma printAndChain_prints_leaves_loop h Mask Leaves :
  Mask <> ExprAllOne -> N.land Mask ExprZero = 0 ->
  Forall2 (fun i Leaf => LeafValues h !! i = Some Leaf) (mask_bits Mask) Leaves ->
  printAndChain isConstant printIR getName h Mask
  = Returns (separated " * " (print_value <$> Leaves)).
Proof.
  intros HA HZ Hleaves. unfold printAndChain.
  destruct (N.eqb_spec Mask ExprAllOne) as [| _]; [done |].
  rewrite HZ. cbn [N.eqb negb orb].
  destruct Mask as [| p].
  { apply Forall2_nil_inv_l in Hleaves as ->. done. }
  cbn [popcount mask_bits] in *.
  pose proof (Pos_popcount_positive p) as Hpos.
  destruct (N.eqb_spec (Pos_popcount p) 0) as [| _]; [lia |].
  destruct (N.eqb_spec (Pos_popcount p) 1) as [Hone | Hmore].
  - rewrite (Pos_bits_log2 p 0 Hone) in Hleaves.
    apply Forall2_cons_inv_l in Hleaves as (Leaf & Rest & Hk & Hrest & ->).
    apply Forall2_nil_inv_l in Hrest as ->.
    unfold Log2_64. rewrite Nat.add_0_l in Hk. by rewrite Hk.
  - apply (printAndChain_loop_bits h p 0); [lia | done].
Qed.

(** X25. [printAndChain] on an and-chain of leaves writes the leaves of the
    set bits of the mask, lowest bit first, with [" * "] between them: when
    the mask is not the all-ones sentinel, has no zero bit and [Leaves] are
    the values the leaf table holds at the set bits, the text is the printed
    [Leaves] separated by [" * "], and no index is out of range. *)
Theorem printAndChain_prints_leaves h Mask Leaves :
  Mask <> ExprAllOne -> N.land Mask ExprZero = 0 ->
  Forall2 (fun i Leaf => LeafValues h !! i = Some Leaf) (mask_bits Mask) Leaves ->
  printAndChain isConstant printIR getName h Mask
  = Returns (separated " * " (print_value <$> Leaves)).
Proof. apply printAndChain_prints_leaves_loop. Qed.

Variable kind : Value -> ValueKind Value.

Lemma printAndChain_mask_ok h Val m :
  helper_inv kind h -> mask_ok kind h Val m ->
  exists OS, printAndChain isConstant printIR getName h m = Returns OS.
Proof.
  intros Hinv [-> | [-> | [Hne Hbits]]]; [by eexists | by eexists |].
  pose proof (inv_leaf_count _ _ Hinv) as Hcnt.
  assert (Hlow : forall b : N, N.testbit m b = true -> b < 62).
  { intros b Hb. destruct (Hbits b Hb) as (Leaf & Hl%lookup_lt_Some & _). lia. }
  assert (Hleaves : is_Some (mapM (fun i => LeafValues h !! i) (mask_bits m))).
  { apply mapM_is_Some_2, Forall_forall. intros i Hi%mask_bits_spec.
    destruct (Hbits _ Hi) as (Leaf & Hl & _). rewrite Nat2N.id in Hl.
    by exists Leaf. }
  destruct Hleaves as [Leaves Hleaves%mapM_Some_1].
  eexists. apply (printAndChain_prints_leaves_loop h m Leaves); [| | done].
  - intros ->. pose proof (Hlow 63 eq_refl). lia.
  - apply land_ExprZero_testbit.
    destruct (N.testbit m 62) eqn:Hb; [| done].
    pose proof (Hlow 62 Hb). lia.
Qed.

Lemma print_loop_returns h Val l :
  helper_inv kind h -> Forall (mask_ok kind h Val) l ->
  exists OS, print_loop isConstant printIR getName h l = Returns OS.
Proof.
  intros Hinv. induction 1 as [| m l Hm _ [OS' IH]]; simpl; [by eexists |].
  destruct (printAndChain_mask_ok h Val m Hinv Hm) as [OS ->].
  rewrite IH. by eexists.
Qed.

Variable MaxLeafs : N.
Variable MaxDepth : N.
Hypothesis MaxLeafs_le : MaxLeafs <= 62.

(** X26. Printing a cached node never reads past the leaf table: in every
    state the helper goes through and for every order in which the set of
    and-chains is iterated, [print] on a cached node returns, and its text
    starts with the value of the node and the arrow. *)
Theorem print_cached_node_returns h Val Node Iteration :
  reachable kind MaxLeafs MaxDepth h ->
  LogicalOpNodes h !! Val = Some Node ->
  Iteration ≡ₚ elements (AddChain (getExpr Node)) ->
  exists OS,
    print isConstant printIR getName h Node Iteration
    = Returns (printIR Val :: " --> " :: OS).
Proof.
  intros Hr Hn Hperm.
  pose proof (reachable_inv kind MaxLeafs MaxDepth MaxLeafs_le h Hr) as Hinv.
  unfold print. rewrite (inv_keys _ _ Hinv Val Node Hn).
  assert (Hall : Forall (mask_ok kind h Val) Iteration).
  { apply Forall_forall. intros m Hm.
    rewrite Hperm in Hm. apply elem_of_elements in Hm.
    by apply (inv_masks _ _ Hinv Val Node). }
  destruct Iteration as [| First Rest]; [by eexists |].
  apply Forall_cons in Hall as [HFirst HRest].
  destruct (print_loop_returns h Val Rest Hinv HRest) as [OS ->].
  destruct (printAndChain_mask_ok h Val First Hinv HFirst) as [OS' ->].
  by eexists.
Qed.

End PrintingProofs.

(** ** The worked expressions *)

(** C3. With the default bounds (8 leaves, depth 8) the expression
    [27 ^ (27 ^ 9)] over nine distinct opaque leaves is not cut off: all
    nine leaves are tabled and [simplify] returns the ninth leaf. *)
Theorem nine_leaves_not_cut_off :
  let run := simplify kind_nine ex_getType ex_getNullValue ex_getAllOnesValue
                      8 8 29 (LogicalOpsHelper_new, 0) in
  LeafValues run.2.1 = [1; 2; 3; 4; 5; 6; 7; 8; 9] /\
  forallb (is_opaque_leaf kind_nine) (LeafValues run.2.1) = true /\
  run.1 = Returns (Some 9) /\ run.2.2 = 1.
Proof. vm_compute. repeat split; reflexivity. Qed.

(** C4. With [MaxLogicOpLeafsToScan = 62], which the assertion admits, the
    63rd distinct opaque leaf (value 200) is given the mask [1 << 62], the
    zero sentinel: it is not tabled, its node holds [{ExprZero}], and
    [simplify] replaces [1 ^ (1 ^ 200)] by the constant zero. *)
Theorem sixty_third_leaf_takes_zero_sentinel :
  let built := getLogicalOpNode kind_wide 62 8 202 0 LogicalOpsHelper_new in
  LeafValues built.2 = N.of_nat <$> seq 64 62 /\
  is_opaque_leaf kind_wide 200 = true /\
  (AddChain ∘ getExpr) <$> (LogicalOpNodes built.2 !! 200) = Some {[ ExprZero ]} /\
  (AddChain ∘ getExpr) <$> built.1 = Some {[ ExprZero ]} /\
  (simplify kind_wide ex_getType ex_getNullValue ex_getAllOnesValue 62 8 202
            (LogicalOpsHelper_new, 0)).1
  = Returns (Some 1000).
Proof. vm_compute. repeat split; reflexivity. Qed.

(** C5, as stated, fails: the polynomial [{ExprZero}] of the constant zero
    is within leaf bounds and its square is empty. *)
Lemma mul_self_drops_zero_sentinel :
  ~ (forall p : LogicalExpr,
        wf_chain (AddChain p) -> AddChain (op_mul p p) = AddChain p).
Proof.
  intros Hall.
  assert (Hwf : wf_chain (AddChain (LogicalExpr_of_mask ExprZero)))
    by (apply wf_chain_elements; vm_compute; reflexivity).
  specialize (Hall (LogicalExpr_of_mask ExprZero) Hwf).
  vm_compute in Hall. discriminate Hall.
Qed.

(** The amended law at [~(a | b)], the polynomial [{a, b, a*b, -1}]. *)
Lemma mul_self_idempotent_witness :
  let p := op_not (op_or (LogicalExpr_of_mask 1) (LogicalExpr_of_mask 2)) in
  wf_chain (AddChain p) /\
  AddChain (op_mul p p) = AddChain p ∖ {[ ExprZero ]} /\
  AddChain (op_mul p p) = AddChain p.
Proof.
  assert (Hwf : wf_chain
                  (AddChain (op_not (op_or (LogicalExpr_of_mask 1)
                                           (LogicalExpr_of_mask 2)))))
    by (apply wf_chain_elements; vm_compute; reflexivity).
  split; [exact Hwf |]. split.
  - exact (proj1 (mul_self_idempotent _ Hwf)).
  - apply (proj2 (mul_self_idempotent _ Hwf)). vm_compute. discriminate.
Defined.

(** C7, as stated, fails: after a first [simplify] the leaf table is not
    empty, and [simplify] of [50 ^ 50] on the same helper gives "no change"
    (the leaf budget is spent) where a new helper gives the constant zero. *)
Lemma second_simplify_sees_caches :
  let first := simplify kind_nine ex_getType ex_getNullValue ex_getAllOnesValue
                        8 8 29 (LogicalOpsHelper_new, 0) in
  let again := simplify kind_nine ex_getType ex_getNullValue ex_getAllOnesValue
                        8 8 40 first.2 in
  let fresh := simplify kind_nine ex_getType ex_getNullValue ex_getAllOnesValue
                        8 8 40 (LogicalOpsHelper_new, first.2.2) in
  LeafValues first.2.1 <> [] /\
  again.1 = Returns None /\
  fresh.1 = Returns (Some 1000) /\
  again.1 <> fresh.1.
Proof. vm_compute. repeat split; (reflexivity || discriminate). Qed.

(** The theorems above at the expression of scenario S6, with the default
    bounds. *)
Lemma simplify_no_change_iff_witness :
  8 <= 62 /\
  reachable kind_S6 8 8 LogicalOpsHelper_new /\
  exists r cnt1,
    simplify kind_S6 ex_getType ex_getNullValue ex_getAllOnesValue 8 8 16
             (LogicalOpsHelper_new, 0)
    = (Returns r,
       ((getLogicalOpNode kind_S6 8 8 16 0 LogicalOpsHelper_new).2, cnt1)) /\
    (r = None -> cnt1 = 0) /\
    (forall NewRoot, r = Some NewRoot -> NewRoot <> 16 /\ cnt1 = 0 + 1).
Proof.
  assert (Hle : 8 <= 62) by lia.
  split; [exact Hle |]. split; [apply reachable_new |].
  destruct (simplify_no_change_iff
              kind_S6 8 8 Hle ex_getType ex_getNullValue ex_getAllOnesValue
              16 LogicalOpsHelper_new 0 (reachable_new _ _ _))
    as (r & cnt1 & Hrun & _ & Hnone & Hsome).
  exists r, cnt1. split; [exact Hrun |]. split; [exact Hnone |].
  intros NewRoot Hr. destruct (Hsome NewRoot Hr) as (Hne & Hcnt & _).
  split; [exact Hne | exact Hcnt].
Defined.

Lemma logicalOpToValue_cases_witness :
  let h := (getLogicalOpNode kind_S6 8 8 16 0 LogicalOpsHelper_new).2 in
  let Node := {| getValue := 16;
                 getExpr := {| AddChain := {[ 4 ]}; LeafMask := 4 |} |} in
  8 <= 62 /\
  reachable kind_S6 8 8 h /\
  LogicalOpNodes h !! 16 = Some Node /\
  exists Leaf, LeafValues h !! N.to_nat (Log2_64 4) = Some Leaf /\
               logicalOpToValue ex_getType ex_getNullValue ex_getAllOnesValue
                                h Node
               = Returns (Some Leaf).
Proof.
  intros h Node.
  assert (Hle : 8 <= 62) by lia.
  assert (Hr : reachable kind_S6 8 8 h)
    by (apply reachable_walk, reachable_new).
  assert (Hn : LogicalOpNodes h !! 16 = Some Node)
    by (vm_compute; reflexivity).
  split; [exact Hle |]. split; [exact Hr |]. split; [exact Hn |].
  destruct (logicalOpToValue_cases
              kind_S6 8 8 Hle ex_getType ex_getNullValue ex_getAllOnesValue
              h 16 Node Hr Hn) as (_ & _ & Hleaf & _).
  apply (Hleaf 4).
  - reflexivity.
  - reflexivity.
  - vm_compute. discriminate.
  - vm_compute. discriminate.
Defined.

Lemma simplify_returns_constant_or_leaf_witness :
  let run := simplify kind_S6 ex_getType ex_getNullValue ex_getAllOnesValue
                      8 8 16 (LogicalOpsHelper_new, 0) in
  8 <= 62 /\
  reachable kind_S6 8 8 LogicalOpsHelper_new /\
  run = (Returns (Some 3), run.2) /\
  (3 = ex_getNullValue (ex_getType 16) \/
   3 = ex_getAllOnesValue (ex_getType 16) \/
   (is_opaque_leaf kind_S6 3 = true /\ occurs_in kind_S6 3 16 /\
    3 ∈ LeafValues run.2.1)).
Proof.
  intros run.
  assert (Hle : 8 <= 62) by lia.
  assert (Hrun : run = (Returns (Some 3), run.2)) by (vm_compute; reflexivity).
  split; [exact Hle |]. split; [apply reachable_new |]. split; [exact Hrun |].
  exact (simplify_returns_constant_or_leaf
           kind_S6 8 8 Hle ex_getType ex_getNullValue ex_getAllOnesValue
           16 LogicalOpsHelper_new 0 3 run.2 (reachable_new _ _ _) Hrun).
Defined.

Lemma leaf_table_consistent_witness :
  let h := (getLogicalOpNode kind_S6 8 8 16 0 LogicalOpsHelper_new).2 in
  8 <= 62 /\
  reachable kind_S6 8 8 h /\
  LeafValues h !! 2%nat = Some 3 /\
  is_opaque_leaf kind_S6 3 = true /\
  (exists Node, LogicalOpNodes h !! 3 = Some Node /\ getValue Node = 3 /\
                AddChain (getExpr Node) = {[ N.shiftl 1 (N.of_nat 2) ]}) /\
  LeafValues h !! N.to_nat (Log2_64 (N.shiftl 1 (N.of_nat 2))) = Some 3.
Proof.
  intros h.
  assert (Hle : 8 <= 62) by lia.
  assert (Hr : reachable kind_S6 8 8 h)
    by (apply reachable_walk, reachable_new).
  assert (Hl : LeafValues h !! 2%nat = Some 3) by (vm_compute; reflexivity).
  split; [exact Hle |]. split; [exact Hr |]. split; [exact Hl |].
  destruct (leaf_table_consistent kind_S6 8 8 Hle h Hr) as [Htable _].
  destruct (Htable 2%nat 3 Hl) as (Hop & Hnode & _ & _ & _ & _ & Hlook).
  split; [exact Hop |]. split; [exact Hnode | exact Hlook].
Defined.

Lemma scenario_S6_reduces_to_c_witness :
  let built := getLogicalOpNode kind_S6 8 8 16 0 LogicalOpsHelper_new in
  LeafValues built.2 = [1; 2; 3] /\
  (AddChain ∘ getExpr) <$> built.1 = Some {[ 4 ]} /\
  simplify kind_S6 ex_getType ex_getNullValue ex_getAllOnesValue 8 8 16
           (LogicalOpsHelper_new, 0)
  = (Returns (Some 3), (built.2, 0 + 1)).
Proof.
  apply (scenario_S6_reduces_to_c
           kind_S6 8 8 ltac:(lia) ex_getType ex_getNullValue ex_getAllOnesValue
           1 2 3 1001 10 11 12 13 14 15 16 0);
    first [reflexivity | lia].
Defined.

(** *** The further properties at worked polynomials and expressions *)

(** Zero absorbs, at the zero sentinel and [a ^ b]. *)
Lemma op_mul_zero_witness :
  let z := LogicalExpr_of_mask ExprZero in
  let p := op_xor (LogicalExpr_of_mask 1) (LogicalExpr_of_mask 2) in
  (forall L, L ∈ AddChain z -> N.land L ExprZero <> 0) /\
  AddChain (op_mul z p) = ∅ /\ AddChain (op_mul p z) = ∅.
Proof.
  intros z p.
  assert (Hz : forall L, L ∈ AddChain z -> N.land L ExprZero <> 0)
    by (intros L HL; unfold z, LogicalExpr_of_mask in HL; cbn [AddChain] in HL;
        apply elem_of_singleton in HL as ->; vm_compute; discriminate).
  split; [exact Hz |]. exact (op_mul_zero z p Hz).
Defined.

(** The product [(a ^ 0) & (b ^ -1)] holds [a * b] and [a], no zero bit. *)
Lemma op_mul_no_zero_bit_witness :
  let p := op_xor (LogicalExpr_of_mask 1) (LogicalExpr_of_mask ExprZero) in
  let q := op_not (LogicalExpr_of_mask 2) in
  3 ∈ AddChain (op_mul p q) /\ N.land 3 ExprZero = 0.
Proof.
  intros p q.
  assert (Hin : 3 ∈ AddChain (op_mul p q)) by (vm_compute; reflexivity).
  split; [exact Hin |]. exact (op_mul_no_zero_bit p q 3 Hin).
Defined.

Lemma uint64_chain_elements S :
  forallb (fun m => m <? 2 ^ 64) (elements S) = true -> uint64_chain S.
Proof.
  intros Hall m Hm. rewrite forallb_forall in Hall.
  by apply N.ltb_lt, Hall, list_elem_of_In, elem_of_elements.
Qed.

(** Associativity at [~a], [a | b] and [b ^ 0]. *)
Lemma op_mul_assoc_witness :
  let p := op_not (LogicalExpr_of_mask 1) in
  let q := op_or (LogicalExpr_of_mask 1) (LogicalExpr_of_mask 2) in
  let r := op_xor (LogicalExpr_of_mask 2) (LogicalExpr_of_mask ExprZero) in
  uint64_chain (AddChain p) /\ uint64_chain (AddChain q) /\
  uint64_chain (AddChain r) /\
  op_mul (op_mul p q) r = op_mul p (op_mul q r).
Proof.
  intros p q r.
  assert (Hp : uint64_chain (AddChain p))
    by (apply uint64_chain_elements; vm_compute; reflexivity).
  assert (Hq : uint64_chain (AddChain q))
    by (apply uint64_chain_elements; vm_compute; reflexivity).
  assert (Hr : uint64_chain (AddChain r))
    by (apply uint64_chain_elements; vm_compute; reflexivity).
  split; [exact Hp |]. split; [exact Hq |]. split; [exact Hr |].
  exact (op_mul_assoc p q r Hp Hq Hr).
Defined.

(** Canonical polynomials at [~(a | b)] and [b ^ c]. *)
Lemma canonical_closed_witness :
  let p := op_not (op_or (LogicalExpr_of_mask 1) (LogicalExpr_of_mask 2)) in
  let q := op_xor (LogicalExpr_of_mask 2) (LogicalExpr_of_mask 4) in
  canonical_chain (AddChain p) /\ canonical_chain (AddChain q) /\
  canonical_chain (AddChain (op_and p q)) /\
  canonical_chain (AddChain (op_xor p q)) /\
  canonical_chain (AddChain (op_or p q)) /\
  canonical_chain (AddChain (op_not p)).
Proof.
  intros p q.
  assert (Hp : canonical_chain (AddChain p))
    by (apply canonical_chain_elements; vm_compute; reflexivity).
  assert (Hq : canonical_chain (AddChain q))
    by (apply canonical_chain_elements; vm_compute; reflexivity).
  split; [exact Hp |]. split; [exact Hq |].
  exact (canonical_closed p q Hp Hq).
Defined.

Lemma op_mul_one_witness :
  let p := op_not (op_or (LogicalExpr_of_mask 1) (LogicalExpr_of_mask 2)) in
  canonical_chain (AddChain p) /\
  AddChain (op_mul (LogicalExpr_of_mask ExprAllOne) p) = AddChain p /\
  AddChain (op_mul p (LogicalExpr_of_mask ExprAllOne)) = AddChain p.
Proof.
  intros p.
  assert (Hp : canonical_chain (AddChain p))
    by (apply canonical_chain_elements; vm_compute; reflexivity).
  split; [exact Hp |]. exact (op_mul_one p Hp).
Defined.

Lemma op_not_complement_witness :
  let p := op_or (LogicalExpr_of_mask 1)
                 (op_and (LogicalExpr_of_mask 2) (LogicalExpr_of_mask 4)) in
  canonical_chain (AddChain p) /\
  AddChain (op_and p (op_not p)) = ∅ /\
  AddChain (op_or p (op_not p)) = {[ ExprAllOne ]}.
Proof.
  intros p.
  assert (Hp : canonical_chain (AddChain p))
    by (apply canonical_chain_elements; vm_compute; reflexivity).
  split; [exact Hp |]. exact (op_not_complement p Hp).
Defined.

(** The value of the leaf polynomial of index 3. *)
Lemma eval_expr_operators_witness :
  let env := fun i : nat => Nat.even i in
  (3 < 62)%nat /\
  eval_expr env (LogicalExpr_of_mask (N.shiftl 1 (N.of_nat 3))) = env 3%nat.
Proof.
  intros env.
  assert (Hk : (3 < 62)%nat) by lia.
  split; [exact Hk |].
  exact (proj2 (proj2 (proj2 (proj2 (proj2 (proj2 (proj2
           (eval_expr_operators env (LogicalExpr_of_mask 1)
              (LogicalExpr_of_mask 2)))))))) 3%nat Hk).
Defined.

(** The loops of [a ^ b ^ -1] and [b ^ c], iterated backwards. *)
Lemma loops_any_iteration_order_witness :
  let S1 : ExprAddChain := {[ 1; 2; ExprAllOne ]} in
  let S2 : ExprAddChain := {[ 2; 4 ]} in
  let l1 := rev (elements S1) in
  let l2 := rev (elements S2) in
  l1 ≡ₚ elements S1 /\ l2 ≡ₚ elements S2 /\
  foldl (fun Chain RHSMask => insert_or_erase RHSMask Chain) S1 l2
  = add_chain S1 S2 /\
  foldl (fun LeafMask Mask => N.lor LeafMask Mask) 0 l1 = updateLeafMask S1.
Proof.
  intros S1 S2 l1 l2.
  assert (H1 : l1 ≡ₚ elements S1)
    by (symmetry; apply (Permutation_rev (elements S1))).
  assert (H2 : l2 ≡ₚ elements S2)
    by (symmetry; apply (Permutation_rev (elements S2))).
  split; [exact H1 |]. split; [exact H2 |].
  destruct (loops_any_iteration_order S1 S2 l1 l2 H1 H2) as (Hadd & _ & Hmask).
  split; [exact Hadd | exact Hmask].
Defined.

Lemma zero_free_elements S :
  forallb (fun m => negb (m =? 0) && (N.land m ExprZero =? 0)) (elements S)
  = true ->
  zero_free S.
Proof.
  intros Hall m Hm. rewrite forallb_forall in Hall.
  specialize (Hall m). rewrite andb_true_iff, negb_true_iff in Hall.
  rewrite N.eqb_neq, N.eqb_eq in Hall.
  by apply Hall, list_elem_of_In, elem_of_elements.
Qed.

(** The two revisions at [a ^ b] and [~(b & c)]. *)
Lemma previous_revision_agrees_witness :
  let p := op_xor (LogicalExpr_of_mask 1) (LogicalExpr_of_mask 2) in
  let q := op_not (op_and (LogicalExpr_of_mask 2) (LogicalExpr_of_mask 4)) in
  zero_free (AddChain p) /\ zero_free (AddChain q) /\
  Previous.op_mul p q = op_mul p q /\ Previous.op_or p q = op_or p q.
Proof.
  intros p q.
  assert (Hp : zero_free (AddChain p))
    by (apply zero_free_elements; vm_compute; reflexivity).
  assert (Hq : zero_free (AddChain q))
    by (apply zero_free_elements; vm_compute; reflexivity).
  split; [exact Hp |]. split; [exact Hq |].
  destruct (previous_revision_agrees p q Hp Hq) as (Hmul & _ & Hor).
  split; [exact Hmul | exact Hor].
Defined.

(** The truth values [bit_S6] follow the operators of the walkthrough. *)
Lemma bit_S6_consistent : bit_consistent kind_S6 bit_S6.
Proof.
  assert (Hkinds : forall Val,
            Val = 10 \/ Val = 11 \/ Val = 12 \/ Val = 13 \/ Val = 14 \/
            Val = 15 \/ Val = 16 \/ Val = 1000 \/ Val = 1001 \/
            kind_S6 Val = OtherValue).
  { intros Val. unfold kind_S6, ex_constants. cbn [kind_table app].
    repeat match goal with
           | |- context [?v =? Val] =>
               destruct (N.eqb_spec v Val) as [<- | _]; [tauto |]
           end.
    tauto. }
  repeat apply conj.
  - intros BO Opcode Op0 Op1 Hk Hop.
    destruct (Hkinds BO) as [-> | [-> | [-> | [-> | [-> | [-> | [-> | [-> |
                              [-> | Hother]]]]]]]]];
      try (vm_compute in Hk; injection Hk as <- <- <-; reflexivity);
      try (vm_compute in Hk; discriminate Hk).
    rewrite Hother in Hk. discriminate Hk.
  - intros Val isAllOnes Hk.
    destruct (Hkinds Val) as [-> | [-> | [-> | [-> | [-> | [-> | [-> | [-> |
                              [-> | Hother]]]]]]]]];
      try reflexivity; try (vm_compute in Hk; discriminate Hk).
    rewrite Hother in Hk. discriminate Hk.
  - intros Val Hk.
    destruct (Hkinds Val) as [-> | [-> | [-> | [-> | [-> | [-> | [-> | [-> |
                              [-> | Hother]]]]]]]]];
      try reflexivity; try (vm_compute in Hk; discriminate Hk).
    rewrite Hother in Hk. discriminate Hk.
Qed.

(** The cached polynomials of the walkthrough under [bit_S6]. *)
Lemma cached_polynomials_sound_witness :
  let h := (getLogicalOpNode kind_S6 8 8 16 0 LogicalOpsHelper_new).2 in
  8 <= 61 /\ bit_consistent kind_S6 bit_S6 /\ reachable kind_S6 8 8 h /\
  nodes_sound bit_S6 h.
Proof.
  intros h.
  assert (Hle : 8 <= 61) by lia.
  assert (Hr : reachable kind_S6 8 8 h)
    by (apply reachable_walk, reachable_new).
  split; [exact Hle |]. split; [exact bit_S6_consistent |].
  split; [exact Hr |].
  exact (cached_polynomials_sound kind_S6 8 8 bit_S6 Hle bit_S6_consistent
           h Hr).
Defined.

(** The walkthrough is replaced by [c], which has the truth value of the
    root. *)
Lemma simplify_sound_witness :
  let run := simplify kind_S6 ex_getType ex_getNullValue ex_getAllOnesValue
                      8 8 16 (LogicalOpsHelper_new, 0) in
  8 <= 61 /\ bit_consistent kind_S6 bit_S6 /\
  reachable kind_S6 8 8 LogicalOpsHelper_new /\
  bit_S6 (ex_getNullValue (ex_getType 16)) = false /\
  bit_S6 (ex_getAllOnesValue (ex_getType 16)) = true /\
  run = (Returns (Some 3), run.2) /\
  bit_S6 3 = bit_S6 16.
Proof.
  intros run.
  assert (Hle : 8 <= 61) by lia.
  assert (Hnull : bit_S6 (ex_getNullValue (ex_getType 16)) = false)
    by reflexivity.
  assert (Hones : bit_S6 (ex_getAllOnesValue (ex_getType 16)) = true)
    by reflexivity.
  assert (Hrun : run = (Returns (Some 3), run.2)) by (vm_compute; reflexivity).
  split; [exact Hle |]. split; [exact bit_S6_consistent |].
  split; [apply reachable_new |]. split; [exact Hnull |].
  split; [exact Hones |]. split; [exact Hrun |].
  exact (simplify_sound kind_S6 8 8 bit_S6 Hle bit_S6_consistent
           ex_getType ex_getNullValue ex_getAllOnesValue
           16 LogicalOpsHelper_new 0 3 run.2 (reachable_new _ _ _)
           Hnull Hones Hrun).
Defined.

(** The node of the root of the walkthrough, asked for again at depth 3. *)
Lemma getLogicalOpNode_memoized_witness :
  let built := getLogicalOpNode kind_S6 8 8 16 0 LogicalOpsHelper_new in
  let Node := {| getValue := 16;
                 getExpr := {| AddChain := {[ 4 ]}; LeafMask := 4 |} |} in
  built = (Some Node, built.2) /\ 3 <> 8 /\
  getLogicalOpNode kind_S6 8 8 16 3 built.2 = (Some Node, built.2).
Proof.
  intros built Node.
  assert (Hbuilt : built = (Some Node, built.2)) by (vm_compute; reflexivity).
  assert (Hne : 3 <> 8) by discriminate.
  split; [exact Hbuilt |]. split; [exact Hne |].
  exact (getLogicalOpNode_memoized kind_S6 8 8 16 0 LogicalOpsHelper_new
           Node built.2 built.2 3 Hbuilt (extends_refl _) Hne).
Defined.

Lemma leaf_count_bound_witness :
  let h := (getLogicalOpNode kind_nine 8 8 29 0 LogicalOpsHelper_new).2 in
  8 <= 62 /\ reachable kind_nine 8 8 h /\
  N.of_nat (length (LeafValues h)) <= 8 + 1.
Proof.
  intros h.
  assert (Hle : 8 <= 62) by lia.
  assert (Hr : reachable kind_nine 8 8 h)
    by (apply reachable_walk, reachable_new).
  split; [exact Hle |]. split; [exact Hr |].
  exact (leaf_count_bound kind_nine 8 8 Hle h Hr).
Defined.

(** The first nested call of the walkthrough, on [(a & b) | (a ^ c)], is
    not cut off. *)
Lemma replacement_needs_full_scan_witness :
  let run := simplify kind_S6 ex_getType ex_getNullValue ex_getAllOnesValue
                      8 8 16 (LogicalOpsHelper_new, 0) in
  run = (Returns (Some 3), run.2) /\
  rtc (nested_call kind_S6 8 8) (16, 0, LogicalOpsHelper_new)
      (12, 0 + 1, LogicalOpsHelper_new) /\
  ~ cut_off kind_S6 8 8 (12, 0 + 1, LogicalOpsHelper_new).
Proof.
  intros run.
  assert (Hrun : run = (Returns (Some 3), run.2)) by (vm_compute; reflexivity).
  assert (Hcalls : rtc (nested_call kind_S6 8 8) (16, 0, LogicalOpsHelper_new)
                       (12, 0 + 1, LogicalOpsHelper_new)).
  { apply rtc_once. apply (nested_op0 _ _ _ 16 0 _ Xor 12 15).
    - discriminate.
    - reflexivity.
    - reflexivity.
    - reflexivity. }
  split; [exact Hrun |]. split; [exact Hcalls |].
  exact (replacement_needs_full_scan kind_S6 8 8
           ex_getType ex_getNullValue ex_getAllOnesValue
           16 LogicalOpsHelper_new 0 3 run.2 _ Hrun Hcalls).
Defined.

(** The leaf [a] as a root. *)
Lemma simplify_unscanned_root_witness :
  8 <= 62 /\
  (LogicalOpNodes (LogicalOpsHelper_new (Value := N)) !! 1 = None /\
   forall Opcode Op0 Op1,
     kind_S6 1 = BinaryOperator Opcode Op0 Op1 -> is_logic_op Opcode = false) /\
  simplify kind_S6 ex_getType ex_getNullValue ex_getAllOnesValue 8 8 1
           (LogicalOpsHelper_new, 5)
  = (Returns None, (LogicalOpsHelper_new, 5)).
Proof.
  assert (Hle : 8 <= 62) by lia.
  assert (Hroot : LogicalOpNodes (LogicalOpsHelper_new (Value := N)) !! 1 = None /\
                  forall Opcode Op0 Op1,
                    kind_S6 1 = BinaryOperator Opcode Op0 Op1 ->
                    is_logic_op Opcode = false).
  { split; [reflexivity |]. intros Opcode Op0 Op1 Hk.
    vm_compute in Hk. discriminate Hk. }
  split; [exact Hle |]. split; [exact Hroot |].
  exact (simplify_unscanned_root kind_S6 8 8 Hle
           ex_getType ex_getNullValue ex_getAllOnesValue
           1 LogicalOpsHelper_new 5 (or_intror Hroot)).
Defined.

(** [50 ^ 50], value 40 of the second worked expression. *)
Lemma simplify_xor_self_witness :
  let LHS := {| getValue := 50;
                getExpr := {| AddChain := {[ 1 ]}; LeafMask := 1 |} |} in
  let walked := getLogicalOpNode kind_nine 8 8 50 1 LogicalOpsHelper_new in
  8 <= 62 /\ 8 <> 0 /\
  kind_nine 40 = BinaryOperator Xor 50 50 /\
  walked = (Some LHS, walked.2) /\
  ex_getNullValue (ex_getType 40) <> 40 /\
  (simplify kind_nine ex_getType ex_getNullValue ex_getAllOnesValue 8 8 40
            (LogicalOpsHelper_new, 0)).1
  = Returns (Some 1000).
Proof.
  intros LHS walked.
  assert (Hle : 8 <= 62) by lia.
  assert (HD : 8 <> 0) by discriminate.
  assert (Hk : kind_nine 40 = BinaryOperator Xor 50 50) by reflexivity.
  assert (Hwalk : walked = (Some LHS, walked.2)) by (vm_compute; reflexivity).
  assert (Hnull : ex_getNullValue (ex_getType 40) <> 40) by discriminate.
  split; [exact Hle |]. split; [exact HD |]. split; [exact Hk |].
  split; [exact Hwalk |]. split; [exact Hnull |].
  exact (f_equal fst
           (simplify_xor_self kind_nine 8 8 Hle
              ex_getType ex_getNullValue ex_getAllOnesValue
              40 50 LogicalOpsHelper_new 0 LHS walked.2 HD eq_refl Hk Hwalk
              Hnull)).
Defined.

(** The and-chain [a * c] of the walkthrough, mask 5. *)
Lemma printAndChain_prints_leaves_witness :
  let h := (getLogicalOpNode kind_S6 8 8 16 0 LogicalOpsHelper_new).2 in
  5 <> ExprAllOne /\ N.land 5 ExprZero = 0 /\
  Forall2 (fun i Leaf => LeafValues h !! i = Some Leaf) (mask_bits 5) [1; 3] /\
  printAndChain ex_isConstant ex_printIR ex_getName h 5
  = Returns ["a"; " * "; "c"].
Proof.
  intros h.
  assert (HA : 5 <> ExprAllOne) by discriminate.
  assert (HZ : N.land 5 ExprZero = 0) by reflexivity.
  assert (Hleaves : Forall2 (fun i Leaf => LeafValues h !! i = Some Leaf)
                            (mask_bits 5) [1; 3])
    by (repeat constructor; vm_compute; reflexivity).
  split; [exact HA |]. split; [exact HZ |]. split; [exact Hleaves |].
  exact (printAndChain_prints_leaves ex_isConstant ex_printIR ex_getName
           h 5 [1; 3] HA HZ Hleaves).
Defined.

(** The node of the root of the walkthrough. *)
Lemma print_cached_node_returns_witness :
  let h := (getLogicalOpNode kind_S6 8 8 16 0 LogicalOpsHelper_new).2 in
  let Node := {| getValue := 16;
                 getExpr := {| AddChain := {[ 4 ]}; LeafMask := 4 |} |} in
  8 <= 62 /\ reachable kind_S6 8 8 h /\
  LogicalOpNodes h !! 16 = Some Node /\
  [4] ≡ₚ elements (AddChain (getExpr Node)) /\
  exists OS, print ex_isConstant ex_printIR ex_getName h Node [4]
             = Returns (ex_printIR 16 :: " --> " :: OS).
Proof.
  intros h Node.
  assert (Hle : 8 <= 62) by lia.
  assert (Hr : reachable kind_S6 8 8 h)
    by (apply reachable_walk, reachable_new).
  assert (Hn : LogicalOpNodes h !! 16 = Some Node)
    by (vm_compute; reflexivity).
  assert (Hperm : [4] ≡ₚ elements (AddChain (getExpr Node)))
    by (unfold Node; cbn [getExpr AddChain]; by rewrite elements_singleton).
  split; [exact Hle |]. split; [exact Hr |]. split; [exact Hn |].
  split; [exact Hperm |].
  exact (print_cached_node_returns ex_isConstant ex_printIR ex_getName
           kind_S6 8 8 Hle h 16 Node [4] Hr Hn Hperm).
Defined.

(** [a | b] and [b | a], built in two ways. *)
Lemma canonical_normal_form_witness :
  let p := op_or (LogicalExpr_of_mask 1) (LogicalExpr_of_mask 2) in
  let q := op_or (LogicalExpr_of_mask 2) (LogicalExpr_of_mask 1) in
  canonical_chain (AddChain p) /\ canonical_chain (AddChain q) /\
  (forall env, eval_expr env p = eval_expr env q) /\
  AddChain p = AddChain q.
Proof.
  intros p q.
  assert (Hp : canonical_chain (AddChain p))
    by (apply canonical_chain_elements; vm_compute; reflexivity).
  assert (Hq : canonical_chain (AddChain q))
    by (apply canonical_chain_elements; vm_compute; reflexivity).
  assert (Heq : forall env, eval_expr env p = eval_expr env q)
    by (intros env; unfold p, q; rewrite !eval_expr_op_or; apply orb_comm).
  split; [exact Hp |]. split; [exact Hq |]. split; [exact Heq |].
  exact (canonical_normal_form p q Hp Hq Heq).
Defined.

(** The polynomial [{c}] of the root of the walkthrough. *)
Lemma logicalOpToValue_complete_witness :
  let h := (getLogicalOpNode kind_S6 8 8 16 0 LogicalOpsHelper_new).2 in
  let Node := {| getValue := 16;
                 getExpr := {| AddChain := {[ 4 ]}; LeafMask := 4 |} |} in
  canonical_chain (AddChain (getExpr Node)) /\
  (2 < 62)%nat /\ LeafValues h !! 2%nat = Some 3 /\
  (forall env, eval_expr env (getExpr Node) = env 2%nat) /\
  logicalOpToValue ex_getType ex_getNullValue ex_getAllOnesValue h Node
  = Returns (Some 3).
Proof.
  intros h Node.
  assert (Hc : canonical_chain (AddChain (getExpr Node)))
    by (apply canonical_chain_elements; vm_compute; reflexivity).
  assert (Hk : (2 < 62)%nat) by lia.
  assert (Hl : LeafValues h !! 2%nat = Some 3) by (vm_compute; reflexivity).
  assert (Hleaf : forall env, eval_expr env (getExpr Node) = env 2%nat).
  { intros env. unfold eval_expr, Node. cbn [getExpr AddChain].
    rewrite eval_chain_singleton.
    exact (eval_mask_leaf_bit env 2 Hk). }
  split; [exact Hc |]. split; [exact Hk |]. split; [exact Hl |].
  split; [exact Hleaf |].
  exact (proj2 (proj2 (logicalOpToValue_complete
                         ex_getType ex_getNullValue ex_getAllOnesValue
                         h Node Hc))
           2%nat 3 Hk Hl Hleaf).
Defined.

Lemma kind_plain_no_zero_constant :
  forall Val isAllOnesValue, kind_plain Val <> ConstantInt true isAllOnesValue.
Proof.
  intros Val isAllOnes. unfold kind_plain. cbn [kind_table].
  repeat match goal with
         | |- context [?v =? Val] => destruct (N.eqb_spec v Val) as [_ | _]
         end; discriminate.
Qed.

(** The caches after the walk of [((a & b) | c) ^ -1]. *)
Lemma cached_polynomials_canonical_witness :
  let h := (getLogicalOpNode kind_plain 8 8 12 0 LogicalOpsHelper_new).2 in
  8 <= 61 /\
  (forall Val isAllOnesValue,
      kind_plain Val <> ConstantInt true isAllOnesValue) /\
  reachable kind_plain 8 8 h /\
  (exists Node, LogicalOpNodes h !! 12 = Some Node) /\
  nodes_canonical h.
Proof.
  intros h.
  assert (Hle : 8 <= 61) by lia.
  assert (Hr : reachable kind_plain 8 8 h)
    by (apply reachable_walk, reachable_new).
  split; [exact Hle |]. split; [exact kind_plain_no_zero_constant |].
  split; [exact Hr |].
  split; [eexists; vm_compute; reflexivity |].
  exact (cached_polynomials_canonical kind_plain 8 8 Hle
           kind_plain_no_zero_constant h Hr).
Defined.
